(** * Semantic diff of parsed YAML documents: a model of [core/diffs.py]

    The Python module compares two parsed documents (scalars, [dict]s and
    [list]s).  Lists are matched by content: a similarity matrix is built,
    flattened and merge-sorted, and the ranked pairs are claimed greedily.

    This development embeds the five functions of the module
    ([_create_similarity_matrix], [_sort_similarity_list],
    [_sort_similarity_matrix], [list_diff], [dict_diff]) and states the
    properties of the design document against them.

    Modelling choices, all read off the source:
    - scalars are [None], booleans, integers and strings, with Python's
      [==] (so [True == 1]); floating point numbers are left out;
    - a [dict] is an association list in insertion order, looked up with
      Python's key equality;
    - a [set] is the list of its distinct elements in insertion order; the
      order in which Python iterates over it is a parameter ([IterOrder]);
    - indexing a list out of range raises [IndexError];
    - [print] appends to an output log;
    - the mutual recursion of [list_diff] and [dict_diff] is bounded by
      fuel, one unit per call. *)

From Stdlib Require Import String.
From Stdlib Require Import List ZArith Bool Arith Lia Permutation.
From Equations Require Import Equations.
Import ListNotations.

Local Open Scope Z_scope.

(** ** Values *)

Inductive scalar : Type :=
| SNone
| SBool (b : bool)
| SInt (z : Z)
| SStr (s : string).

#[warnings="-register-all"]
Inductive value : Type :=
| VScalar (s : scalar)
| VDict (items : list (scalar * value))
| VList (elems : list value).

Definition dict : Type := list (scalar * value).

(** [type(v) == dict], [type(v) == list]. *)
Definition is_dict (v : value) : bool :=
  match v with VDict _ => true | _ => false end.

Definition is_list (v : value) : bool :=
  match v with VList _ => true | _ => false end.

Inductive shape : Type := ShScalar | ShMapping | ShSequence.

Definition shape_of (v : value) : shape :=
  match v with
  | VScalar _ => ShScalar
  | VDict _ => ShMapping
  | VList _ => ShSequence
  end.

(** Python's [==] on scalars: [bool] is a subclass of [int]. *)
Definition as_int (s : scalar) : option Z :=
  match s with
  | SBool true => Some 1
  | SBool false => Some 0
  | SInt z => Some z
  | _ => None
  end.

Definition scalar_eqb (a b : scalar) : bool :=
  match a, b with
  | SNone, SNone => true
  | SStr x, SStr y => String.eqb x y
  | SNone, _ | _, SNone => false
  | SStr _, _ | _, SStr _ => false
  | _, _ =>
      match as_int a, as_int b with
      | Some x, Some y => Z.eqb x y
      | _, _ => false
      end
  end.

(** [d.get(k, None)] and [d[k]]. *)
Fixpoint dict_lookup (d : dict) (k : scalar) : option value :=
  match d with
  | [] => None
  | (k', v) :: rest => if scalar_eqb k' k then Some v else dict_lookup rest k
  end.

Definition dict_get (d : dict) (k : scalar) : value :=
  match dict_lookup d k with
  | Some v => v
  | None => VScalar SNone
  end.

(** Python's [==] on values. *)
Fixpoint value_eqb (a b : value) {struct a} : bool :=
  match a, b with
  | VScalar x, VScalar y => scalar_eqb x y
  | VList xs, VList ys =>
      (fix elems_eqb (xs ys : list value) {struct xs} : bool :=
         match xs, ys with
         | [], [] => true
         | x :: xs', y :: ys' => value_eqb x y && elems_eqb xs' ys'
         | _, _ => false
         end) xs ys
  | VDict xs, VDict ys =>
      Nat.eqb (length xs) (length ys)
      && (fix items_eqb (xs : list (scalar * value)) : bool :=
            match xs with
            | [] => true
            | (k, v) :: xs' =>
                match dict_lookup ys k with
                | Some w => value_eqb v w && items_eqb xs'
                | None => false
                end
            end) xs
  | _, _ => false
  end.

(** ** Outcomes *)

Inductive exn : Type := IndexError | KeyError | TypeError.

Inductive outcome (A : Type) : Type :=
| Ok (a : A)
| Raise (e : exn)
| OutOfFuel.
Arguments Ok {A} a.
Arguments Raise {A} e.
Arguments OutOfFuel {A}.

Definition obind {A B} (m : outcome A) (f : A -> outcome B) : outcome B :=
  match m with
  | Ok a => f a
  | Raise e => Raise e
  | OutOfFuel => OutOfFuel
  end.

(** [l[i]] *)
Definition index {A} (l : list A) (i : nat) : outcome A :=
  match nth_error l i with
  | Some x => Ok x
  | None => Raise IndexError
  end.

(** ** The similarity matrix *)

(** The four lookup tables built from [l2] are Python dicts from a key to
    the list of indices that carry it. *)
Section Buckets.
Context {K : Type} (eqb : K -> K -> bool).

Definition bucket : Type := list (K * list nat).

(** [b.get(k, [])] *)
Fixpoint bucket_get (b : bucket) (k : K) : list nat :=
  match b with
  | [] => []
  | (k', js) :: rest => if eqb k' k then js else bucket_get rest k
  end.

(** [b[k] = js] *)
Fixpoint bucket_set (b : bucket) (k : K) (js : list nat) : bucket :=
  match b with
  | [] => [(k, js)]
  | (k', js') :: rest =>
      if eqb k' k then (k', js) :: rest else (k', js') :: bucket_set rest k js
  end.

(** [b[k] = b.get(k, []) + [i]] *)
Definition bucket_add (b : bucket) (k : K) (i : nat) : bucket :=
  bucket_set b k (bucket_get b k ++ [i]).
End Buckets.

Definition pair_eqb (a b : scalar * scalar) : bool :=
  scalar_eqb (fst a) (fst b) && scalar_eqb (snd a) (snd b).

Record tables : Type := mk_tables {
  simple_values : @bucket scalar;
  key_value_pairs : @bucket (scalar * scalar);
  complex_keys : @bucket scalar;
  list_lengths : @bucket nat
}.

Definition empty_tables : tables := mk_tables [] [] [] [].

(** Body of [for k, v in l2[i].items()]. *)
Definition parse_item (i : nat) (T : tables) (kv : scalar * value) : tables :=
  match snd kv with
  | VDict _ | VList _ =>
      mk_tables (simple_values T) (key_value_pairs T)
                (bucket_add scalar_eqb (complex_keys T) (fst kv) i)
                (list_lengths T)
  | VScalar s =>
      mk_tables (simple_values T)
                (bucket_add pair_eqb (key_value_pairs T) (fst kv, s) i)
                (complex_keys T) (list_lengths T)
  end.

(** Body of [for i in range(len(l2))] in step 2. *)
Definition parse_elem (i : nat) (T : tables) (x : value) : tables :=
  match x with
  | VDict items => fold_left (parse_item i) items T
  | VList xs =>
      mk_tables (simple_values T) (key_value_pairs T) (complex_keys T)
                (bucket_add Nat.eqb (list_lengths T) (length xs) i)
  | VScalar s =>
      mk_tables (bucket_add scalar_eqb (simple_values T) s i)
                (key_value_pairs T) (complex_keys T) (list_lengths T)
  end.

Fixpoint parse_from (i : nat) (l2 : list value) (T : tables) : tables :=
  match l2 with
  | [] => T
  | x :: rest => parse_from (S i) rest (parse_elem i T x)
  end.

Definition matrix : Type := list (list Z).

(** [[[0] * cols for _ in range(rows)]] *)
Definition zeros (rows cols : nat) : matrix := repeat (repeat 0 cols) rows.

Fixpoint set_nth {A} (l : list A) (i : nat) (x : A) : list A :=
  match l, i with
  | [], _ => []
  | _ :: rest, O => x :: rest
  | y :: rest, S i' => y :: set_nth rest i' x
  end.

(** [m[i][j] += 1] *)
Definition incr (m : matrix) (i j : nat) : outcome matrix :=
  obind (index m i) (fun row =>
  obind (index row j) (fun x =>
  Ok (set_nth m i (set_nth row j (x + 1))))).

(** [for l2_index in js: m[i][l2_index] += 1] *)
Fixpoint incr_all (m : matrix) (i : nat) (js : list nat) : outcome matrix :=
  match js with
  | [] => Ok m
  | j :: rest => obind (incr m i j) (fun m' => incr_all m' i rest)
  end.

(** The indices of [l2] that one key/value of [l1[i]] votes for. *)
Definition item_votes (T : tables) (kv : scalar * value) : list nat :=
  match snd kv with
  | VDict _ | VList _ => bucket_get scalar_eqb (complex_keys T) (fst kv)
  | VScalar s => bucket_get pair_eqb (key_value_pairs T) (fst kv, s)
  end.

Fixpoint score_items (T : tables) (i : nat) (items : dict) (m : matrix)
  : outcome matrix :=
  match items with
  | [] => Ok m
  | kv :: rest =>
      obind (incr_all m i (item_votes T kv)) (fun m' => score_items T i rest m')
  end.

(** Body of [for i in range(len(l1))] in step 3. *)
Definition score_elem (T : tables) (i : nat) (x : value) (m : matrix)
  : outcome matrix :=
  match x with
  | VDict items => score_items T i items m
  | VList xs => incr_all m i (bucket_get Nat.eqb (list_lengths T) (length xs))
  | VScalar s => incr_all m i (bucket_get scalar_eqb (simple_values T) s)
  end.

Fixpoint score_from (T : tables) (i : nat) (l1 : list value) (m : matrix)
  : outcome matrix :=
  match l1 with
  | [] => Ok m
  | x :: rest => obind (score_elem T i x m) (fun m' => score_from T (S i) rest m')
  end.

Definition _create_similarity_matrix (l1 l2 : list value) : outcome matrix :=
  let similarity_matrix := zeros (length l2) (length l1) in
  let T := parse_from 0 l2 empty_tables in
  score_from T 0 l1 similarity_matrix.

(** [m[i][j]], when both indices are in range. *)
Definition cell (m : matrix) (i j : nat) : option Z :=
  match nth_error m i with
  | Some row => nth_error row j
  | None => None
  end.

Definition ints (zs : list Z) : list value := map (fun z => VScalar (SInt z)) zs.


(** ** Ranking: flattening and the merge sort *)

(** [(score, row_index, column_index)] *)
Definition entry : Type := (Z * nat * nat)%type.

Definition score (e : entry) : Z := fst (fst e).
Definition row_of (e : entry) : nat := snd (fst e).
Definition col_of (e : entry) : nat := snd e.

(** The [while] loop that joins the two sorted halves: the head of [h1]
    is taken only when its score is strictly greater. *)
Fixpoint join (h1 : list entry) : list entry -> list entry :=
  fix join_h1 (h2 : list entry) : list entry :=
    match h1, h2 with
    | [], _ => h2
    | _, [] => h1
    | a :: h1', b :: h2' =>
        if score a >? score b then a :: join h1' h2 else b :: join_h1 h2'
    end.

(** [int(len(sl)/2)] *)
Definition split_index (n : nat) : nat := Nat.div n 2.

Lemma split_index_bounds (n : nat) :
  (1 < n)%nat -> (0 < split_index n < n)%nat.
Proof.
  intros H. unfold split_index. split.
  - apply Nat.div_str_pos. lia.
  - apply Nat.div_lt; lia.
Qed.

Equations? _sort_similarity_list (sl : list entry) : list entry
  by wf (length sl) lt :=
  _sort_similarity_list sl with le_lt_dec (length sl) 1 => {
    | left _ => sl
    | right H =>
        join (_sort_similarity_list (firstn (split_index (length sl)) sl))
             (_sort_similarity_list (skipn (split_index (length sl)) sl)) }.
Proof.
  - rewrite length_firstn. pose proof (split_index_bounds (length sl) H). lia.
  - rewrite length_skipn. pose proof (split_index_bounds (length sl) H). lia.
Qed.

(** [for c in range(len(sm[r])): sim_list.append((sm[r][c], r, c))] *)
Fixpoint flatten_row (r c : nat) (row : list Z) : list entry :=
  match row with
  | [] => []
  | x :: rest => (x, r, c) :: flatten_row r (S c) rest
  end.

(** [for r in range(len(sm))] *)
Fixpoint flatten_from (r : nat) (sm : matrix) : list entry :=
  match sm with
  | [] => []
  | row :: rest => flatten_row r 0 row ++ flatten_from (S r) rest
  end.

Definition flatten (sm : matrix) : list entry := flatten_from 0 sm.

Definition _sort_similarity_matrix (sm : matrix) : list entry :=
  _sort_similarity_list (flatten sm).


(** ** Mismatch paths *)

(** A tuple [(i, None)], [(None, j)] or [(i, j)]. *)
Definition index_pair : Type := (option nat * option nat)%type.

Inductive segment : Type :=
| Key (k : scalar)
| IndexPair (p : index_pair).

Definition path : Type := list segment.

Definition index_pair_eqb (p q : index_pair) : bool :=
  match fst p, fst q with
  | Some a, Some b => Nat.eqb a b
  | None, None => true
  | _, _ => false
  end
  &&
  match snd p, snd q with
  | Some a, Some b => Nat.eqb a b
  | None, None => true
  | _, _ => false
  end.

(** ** Python sets *)

Section Sets.
Context {A : Type} (eqb : A -> A -> bool).

(** [x in s] *)
Definition set_mem (x : A) (s : list A) : bool := existsb (eqb x) s.

(** [s.add(x)] *)
Definition set_add (s : list A) (x : A) : list A :=
  if set_mem x s then s else s ++ [x].

(** [set(xs)], and [s.union(t)] as [set_of_list] from [s]. *)
Definition set_add_all (s : list A) (xs : list A) : list A :=
  fold_left set_add xs s.
End Sets.

(** The order in which a [for] loop visits a set is fixed by the hashes
    of its elements; the model only assumes that every element is
    visited once. *)
Class IterOrder (A : Type) : Type := {
  iter_set : list A -> list A;
  iter_set_perm : forall s, Permutation (iter_set s) s
}.

(** Visiting in insertion order is one such order. *)
Definition insertion_order (A : Type) : IterOrder A :=
  {| iter_set := fun s => s; iter_set_perm := @Permutation_refl A |}.

(** ** Output *)

(** A computation that may print: the lines printed, and the outcome. *)
Definition io (A : Type) : Type := (list string * outcome A)%type.

Definition ret {A} (a : A) : io A := ([], Ok a).

Definition lift {A} (m : outcome A) : io A := ([], m).

Definition bind {A B} (m : io A) (f : A -> io B) : io B :=
  match snd m with
  | Ok a => (fst m ++ fst (f a), snd (f a))
  | Raise e => (fst m, Raise e)
  | OutOfFuel => (fst m, OutOfFuel)
  end.

Definition print (line : string) : io unit := ([line], Ok tt).

Definition stdout {A} (m : io A) : list string := fst m.
Definition result {A} (m : io A) : outcome A := snd m.

(** ** Matching the elements of two lists ([list_diff], steps 1 to 4) *)

Record labels : Type := mk_labels {
  seen_l1_indices : list nat;
  mismatch_l1_indices : list nat;
  seen_l2_indices : list nat;
  mismatch_l2_indices : list nat;
  mismatch_set : list index_pair;
  to_recurse : list (nat * nat)
}.

Definition no_labels : labels := mk_labels [] [] [] [] [] [].

(** [type(l1[i]) == t and type(l2[j]) == t]; [and] does not evaluate
    [l2[j]] when the left operand is false. *)
Definition both_have_type (is_t : value -> bool)
           (l1 : list value) (i : nat) (l2 : list value) (j : nat)
  : outcome bool :=
  obind (index l1 i) (fun x =>
  if is_t x then obind (index l2 j) (fun y => Ok (is_t y)) else Ok false).

Definition queue_pair (st : labels) (seen1 seen2 : list nat) (r c : nat)
           (queued : bool) : labels :=
  mk_labels seen1 (mismatch_l1_indices st) seen2 (mismatch_l2_indices st)
            (mismatch_set st)
            (if queued then to_recurse st ++ [(r, c)] else to_recurse st).

(** Case 2, left index. *)
Definition mark_left (st : labels) (r : nat) : labels :=
  if negb (set_mem Nat.eqb r (seen_l1_indices st)) then
    mk_labels (seen_l1_indices st)
              (set_add Nat.eqb (mismatch_l1_indices st) r)
              (seen_l2_indices st) (mismatch_l2_indices st)
              (set_add index_pair_eqb (mismatch_set st) (Some r, None))
              (to_recurse st)
  else st.

(** Case 2, right index. *)
Definition mark_right (st : labels) (c : nat) : labels :=
  if negb (set_mem Nat.eqb c (seen_l2_indices st)) then
    mk_labels (seen_l1_indices st) (mismatch_l1_indices st)
              (seen_l2_indices st)
              (set_add Nat.eqb (mismatch_l2_indices st) c)
              (set_add index_pair_eqb (mismatch_set st) (None, Some c))
              (to_recurse st)
  else st.

(** Body of [for elem in similarity_list]. *)
Definition label_step (l1 l2 : list value) (st : labels) (elem : entry)
  : outcome labels :=
  let r := row_of elem in
  let c := col_of elem in
  if (score elem >? 0)
     && negb (set_mem Nat.eqb r (seen_l1_indices st)
              || set_mem Nat.eqb c (seen_l2_indices st))
  then
    let seen1 := set_add Nat.eqb (seen_l1_indices st) r in
    let seen2 := set_add Nat.eqb (seen_l2_indices st) c in
    obind (both_have_type is_dict l1 r l2 c) (fun dicts =>
    if dicts then Ok (queue_pair st seen1 seen2 r c true)
    else
      obind (both_have_type is_list l1 r l2 c) (fun lists =>
      Ok (queue_pair st seen1 seen2 r c lists)))
  else if score elem =? 0 then Ok (mark_right (mark_left st r) c)
  else Ok st.

Fixpoint label_all (l1 l2 : list value) (sl : list entry) (st : labels)
  : outcome labels :=
  match sl with
  | [] => Ok st
  | elem :: rest => obind (label_step l1 l2 st elem) (label_all l1 l2 rest)
  end.

(** Step 4: [for i in range(n): if i not in labelled: mismatch_set.add(mk i)] *)
Definition stragglers (mk : nat -> index_pair) (n : nat) (labelled : list nat)
           (ms : list index_pair) : list index_pair :=
  fold_left
    (fun ms i => if set_mem Nat.eqb i labelled then ms
                 else set_add index_pair_eqb ms (mk i))
    (seq 0 n) ms.

Definition label_stragglers (l1 l2 : list value) (st : labels) : labels :=
  let labelled_l1 :=
    set_add_all Nat.eqb (seen_l1_indices st) (mismatch_l1_indices st) in
  let ms1 :=
    stragglers (fun i => (Some i, None)) (length l1) labelled_l1 (mismatch_set st) in
  let labelled_l2 :=
    set_add_all Nat.eqb (seen_l2_indices st) (mismatch_l2_indices st) in
  let ms2 :=
    stragglers (fun i => (None, Some i)) (length l2) labelled_l2 ms1 in
  mk_labels (seen_l1_indices st) (mismatch_l1_indices st)
            (seen_l2_indices st) (mismatch_l2_indices st)
            ms2 (to_recurse st).

(** Steps 1 to 4 of [list_diff]. *)
Definition match_elements (l1 l2 : list value) : outcome labels :=
  obind (_create_similarity_matrix l1 l2) (fun similarity_matrix =>
  let similarity_list := _sort_similarity_matrix similarity_matrix in
  obind (label_all l1 l2 similarity_list no_labels) (fun st =>
  Ok (label_stragglers l1 l2 st))).

(** ** The two differs *)

Definition double_quote : string := String (Ascii.ascii_of_nat 34) EmptyString.

Definition unreachable_message : string :=
  String.append "case for "
    (String.append double_quote
       (String.append "to_recurse"
          (String.append double_quote
             " index types do not match. If you hit this, something is wrong"))).

(** [dict_diff] reads [d.keys()], [list_diff] takes [len(l)]. *)
Definition as_dict (v : value) : outcome dict :=
  match v with VDict d => Ok d | _ => Raise TypeError end.

Definition as_list (v : value) : outcome (list value) :=
  match v with VList l => Ok l | _ => Raise TypeError end.

(** [for retvals in tmp_non_match_list: acc.append([seg] + retvals)] *)
Definition append_under (seg : segment) (acc tmp : list path) : list path :=
  acc ++ map (cons seg) tmp.

Record key_classes : Type := mk_classes {
  dict_keys_to_recurse : list scalar;
  list_keys_to_recurse : list scalar;
  return_values : list path
}.

(** Body of [for k in keys] in [dict_diff]. *)
Definition classify_key (d1 d2 : dict) (cl : key_classes) (k : scalar)
  : key_classes :=
  if is_dict (dict_get d1 k) && is_dict (dict_get d2 k) then
    mk_classes (dict_keys_to_recurse cl ++ [k]) (list_keys_to_recurse cl)
               (return_values cl)
  else if is_list (dict_get d1 k) && is_list (dict_get d2 k) then
    mk_classes (dict_keys_to_recurse cl) (list_keys_to_recurse cl ++ [k])
               (return_values cl)
  else if negb (value_eqb (dict_get d1 k) (dict_get d2 k)) then
    mk_classes (dict_keys_to_recurse cl) (list_keys_to_recurse cl)
               (return_values cl ++ [[Key k]])
  else cl.

(** [d[k]] *)
Definition dict_item (d : dict) (k : scalar) : outcome value :=
  match dict_lookup d k with
  | Some v => Ok v
  | None => Raise KeyError
  end.

Section Differs.
Context {key_order : IterOrder scalar} {pair_order : IterOrder index_pair}.

Section Loops.
(** The recursive calls available to the loops below. *)
Variable dict_diff_rec : dict -> dict -> io (list path).
Variable list_diff_rec : list value -> list value -> io (list path).

(** [dict_diff(a, b)] and [list_diff(a, b)] on values taken from the
    documents. *)
Definition call_dict_diff (a b : outcome value) : io (list path) :=
  bind (lift a) (fun x => bind (lift b) (fun y =>
  bind (lift (as_dict x)) (fun d1 => bind (lift (as_dict y)) (fun d2 =>
  dict_diff_rec d1 d2)))).

Definition call_list_diff (a b : outcome value) : io (list path) :=
  bind (lift a) (fun x => bind (lift b) (fun y =>
  bind (lift (as_list x)) (fun l1 => bind (lift (as_list y)) (fun l2 =>
  list_diff_rec l1 l2)))).

(** Step 5 of [list_diff]: [for elem in to_recurse]. *)
Fixpoint run_recursions (l1 l2 : list value) (queue : list (nat * nat))
         (mismatches : list path) : io (list path) :=
  match queue with
  | [] => ret mismatches
  | (i, j) :: rest =>
      let elem := IndexPair (Some i, Some j) in
      bind (lift (both_have_type is_dict l1 i l2 j)) (fun dicts =>
      if dicts then
        bind (call_dict_diff (index l1 i) (index l2 j)) (fun tmp =>
        run_recursions l1 l2 rest (append_under elem mismatches tmp))
      else
        bind (lift (both_have_type is_list l1 i l2 j)) (fun lists =>
        if lists then
          bind (call_list_diff (index l1 i) (index l2 j)) (fun tmp =>
          run_recursions l1 l2 rest (append_under elem mismatches tmp))
        else
          bind (print unreachable_message) (fun _ =>
          run_recursions l1 l2 rest mismatches)))
  end.

(** [for k in dict_keys_to_recurse] *)
Fixpoint recurse_dict_keys (d1 d2 : dict) (ks : list scalar)
         (acc : list path) : io (list path) :=
  match ks with
  | [] => ret acc
  | k :: rest =>
      bind (call_dict_diff (dict_item d1 k) (dict_item d2 k)) (fun tmp =>
      recurse_dict_keys d1 d2 rest (append_under (Key k) acc tmp))
  end.

(** [for k in list_keys_to_recurse] *)
Fixpoint recurse_list_keys (d1 d2 : dict) (ks : list scalar)
         (acc : list path) : io (list path) :=
  match ks with
  | [] => ret acc
  | k :: rest =>
      bind (call_list_diff (dict_item d1 k) (dict_item d2 k)) (fun tmp =>
      recurse_list_keys d1 d2 rest (append_under (Key k) acc tmp))
  end.

(** [set(d1.keys()).union(set(d2.keys()))], in the order the union
    was filled. *)
Definition key_union (d1 d2 : dict) : list scalar :=
  let s1 := set_add_all scalar_eqb [] (map fst d1) in
  let s2 := set_add_all scalar_eqb [] (map fst d2) in
  set_add_all scalar_eqb (set_add_all scalar_eqb [] (iter_set s1)) (iter_set s2).

Definition classify_keys (d1 d2 : dict) : key_classes :=
  fold_left (classify_key d1 d2) (iter_set (key_union d1 d2))
            (mk_classes [] [] []).

Definition dict_diff_body (d1 d2 : dict) : io (list path) :=
  let cl := classify_keys d1 d2 in
  bind (recurse_dict_keys d1 d2 (dict_keys_to_recurse cl) (return_values cl))
       (fun acc => recurse_list_keys d1 d2 (list_keys_to_recurse cl) acc).

Definition list_diff_body (l1 l2 : list value) : io (list path) :=
  bind (lift (match_elements l1 l2)) (fun st =>
  let mismatches :=
    map (fun elem => [IndexPair elem]) (iter_set (mismatch_set st)) in
  run_recursions l1 l2 (to_recurse st) mismatches).
End Loops.

Fixpoint list_diff (fuel : nat) (l1 l2 : list value) : io (list path) :=
  match fuel with
  | O => lift OutOfFuel
  | S fuel' => list_diff_body (dict_diff fuel') (list_diff fuel') l1 l2
  end
with dict_diff (fuel : nat) (d1 d2 : dict) : io (list path) :=
  match fuel with
  | O => lift OutOfFuel
  | S fuel' => dict_diff_body (dict_diff fuel') (list_diff fuel') d1 d2
  end.

(** The recursion loop of [list_diff] as it runs inside a call that has
    [fuel] units left for its callees. *)
Definition recursion_loop (fuel : nat) :=
  run_recursions (dict_diff fuel) (list_diff fuel).
End Differs.

(** ** The documents of the module's own examples *)

Definition str (s : string) : scalar := SStr s.
Definition int (z : Z) : value := VScalar (SInt z).

Definition main_a : list value :=
  [ int 1; int 2;
    VDict [(str "a", VScalar (str "b")); (str "b", VDict [(str "c", int 2)])];
    VList [ int 1; int 2;
            VDict [(str "a", VScalar (str "b"));
                   (str "b", VDict [(str "c", int 2)])] ] ].

Definition main_b : list value :=
  [ int 1; int 4;
    VDict [(str "k", VScalar (str "c")); (str "a", VScalar (str "b"));
           (str "b", VDict [(str "d", int 2)])];
    VList [ int 1; int 2;
            VDict [(str "k", VScalar (str "c")); (str "a", VScalar (str "b"));
                   (str "b", VDict [(str "d", int 2)])] ] ].

Definition by_insertion {A} (f : forall (_ : IterOrder scalar) (_ : IterOrder index_pair), A) : A :=
  f (insertion_order scalar) (insertion_order index_pair).

(** * Notions used to state the properties *)

(** Row-major order on the positions of two entries. *)
Definition row_major_lt (a b : entry) : Prop :=
  (row_of a < row_of b)%nat \/ (row_of a = row_of b /\ (col_of a < col_of b)%nat).

(** The order of the ranked list: higher score first; among equal
    scores, the entry that is later in row-major order first. *)
Definition ranks_before (a b : entry) : Prop :=
  score a > score b \/ (score a = score b /\ row_major_lt b a).

Inductive sorted_by {A : Type} (R : A -> A -> Prop) : list A -> Prop :=
| sorted_nil : sorted_by R []
| sorted_cons (x : A) (l : list A) :
    Forall (R x) l -> sorted_by R l -> sorted_by R (x :: l).

#[local] Hint Constructors sorted_by : core.

(** [incr] at each of a list of positions. *)
Fixpoint incr_pairs (m : matrix) (ps : list (nat * nat)) : outcome matrix :=
  match ps with
  | [] => Ok m
  | p :: rest => obind (incr m (fst p) (snd p)) (fun m' => incr_pairs m' rest)
  end.

Definition pos_eqb (p q : nat * nat) : bool :=
  Nat.eqb (fst p) (fst q) && Nat.eqb (snd p) (snd q).

Definition count_pos (p : nat * nat) (ps : list (nat * nat)) : nat :=
  length (filter (pos_eqb p) ps).

(** The columns that the element [x] of [l1] votes for. *)
Definition votes (T : tables) (x : value) : list nat :=
  match x with
  | VDict items => flat_map (item_votes T) items
  | VList xs => bucket_get Nat.eqb (list_lengths T) (length xs)
  | VScalar s => bucket_get scalar_eqb (simple_values T) s
  end.

Fixpoint ballots (T : tables) (i : nat) (l1 : list value) : list (nat * nat) :=
  match l1 with
  | [] => []
  | x :: rest => map (pair i) (votes T x) ++ ballots T (S i) rest
  end.

Definition count_nat (j : nat) (js : list nat) : nat :=
  length (filter (Nat.eqb j) js).

(** Python's [==] identifies [True] with [1] and [False] with [0]. *)
Definition norm (s : scalar) : scalar :=
  match s with
  | SBool true => SInt 1
  | SBool false => SInt 0
  | _ => s
  end.

Definition is_complex (v : value) : bool := is_dict v || is_list v.

(** What one element [y] of [l2] adds to the bucket looked up by an
    element of [l1]: a scalar, a list length, a key with a nested
    container, or a key with a scalar value. *)
Definition scalar_mult (a : scalar) (y : value) : nat :=
  match y with
  | VScalar b => if scalar_eqb b a then 1 else 0
  | _ => 0
  end%nat.

Definition length_mult (n : nat) (y : value) : nat :=
  match y with
  | VList ys => if Nat.eqb (length ys) n then 1 else 0
  | _ => 0
  end%nat.

Definition complex_item_matches (k : scalar) (kv : scalar * value) : bool :=
  is_complex (snd kv) && scalar_eqb (fst kv) k.

Definition simple_item_matches (ks : scalar * scalar) (kv : scalar * value) : bool :=
  match snd kv with
  | VScalar s' => pair_eqb (fst kv, s') ks
  | _ => false
  end.

Definition complex_key_mult (k : scalar) (y : value) : nat :=
  match y with
  | VDict items => length (filter (complex_item_matches k) items)
  | _ => 0%nat
  end.

Definition key_value_mult (ks : scalar * scalar) (y : value) : nat :=
  match y with
  | VDict items => length (filter (simple_item_matches ks) items)
  | _ => 0%nat
  end.

Definition item_mult (kv : scalar * value) (y : value) : nat :=
  match snd kv with
  | VDict _ | VList _ => complex_key_mult (fst kv) y
  | VScalar s => key_value_mult (fst kv, s) y
  end.

(** The score of the pair [(x, y)], [x] from [l1] and [y] from [l2]. *)
Definition similarity (x y : value) : nat :=
  match x with
  | VScalar a => scalar_mult a y
  | VList xs => length_mult (length xs) y
  | VDict items => list_sum (map (fun kv => item_mult kv y) items)
  end.

(** The indices, from [i] on, of the elements of [l2] counted by
    [mult], each as often as [mult] says. *)
Fixpoint hits_from (i : nat) (l2 : list value) (mult : value -> nat) : list nat :=
  match l2 with
  | [] => []
  | y :: rest => repeat i (mult y) ++ hits_from (S i) rest mult
  end.

(** The two mappings of scenario B. *)
Definition scenario_b_left : dict := [(str "a", VList (ints [1; 2; 3; 5]))].
Definition scenario_b_right : dict := [(str "a", VList (ints [1; 2; 4; 5]))].

(** A pair of indices that names two mappings or two sequences. *)
Definition same_container (l1 l2 : list value) (p : nat * nat) : bool :=
  match nth_error l1 (fst p), nth_error l2 (snd p) with
  | Some x, Some y => is_dict x && is_dict y || is_list x && is_list y
  | _, _ => false
  end.

(** ** Trees that are equal to themselves under the diff *)

(** The keys of a Python dict are pairwise different under [==]. *)
Fixpoint distinct_keys (d : dict) : bool :=
  match d with
  | [] => true
  | kv :: rest =>
      negb (existsb (fun kv' => scalar_eqb (fst kv') (fst kv)) rest)
      && distinct_keys rest
  end.

Definition is_empty_dict (v : value) : bool :=
  match v with VDict [] => true | _ => false end.

(** Every mapping of the tree has distinct keys, and no sequence of the
    tree has an empty mapping among its elements. *)
Fixpoint diffable (v : value) : bool :=
  match v with
  | VScalar _ => true
  | VDict items =>
      distinct_keys items
      && (fix all_items (items : list (scalar * value)) : bool :=
            match items with
            | [] => true
            | kv :: rest => diffable (snd kv) && all_items rest
            end) items
  | VList xs =>
      (fix all_elems (xs : list value) : bool :=
         match xs with
         | [] => true
         | x :: rest => negb (is_empty_dict x) && diffable x && all_elems rest
         end) xs
  end.

(** Nesting depth: the number of nested calls a diff of the tree makes. *)
Fixpoint depth (v : value) : nat :=
  match v with
  | VScalar _ => 0%nat
  | VDict items =>
      S ((fix max_items (items : list (scalar * value)) : nat :=
            match items with
            | [] => 0%nat
            | kv :: rest => Nat.max (depth (snd kv)) (max_items rest)
            end) items)
  | VList xs =>
      S ((fix max_elems (xs : list value) : nat :=
            match xs with
            | [] => 0%nat
            | x :: rest => Nat.max (depth x) (max_elems rest)
            end) xs)
  end.

(** Whether the item [kv'] of an element of [l2] is counted for the
    item [kv] of an element of [l1]. *)
Definition items_match (kv kv' : scalar * value) : bool :=
  match snd kv with
  | VDict _ | VList _ => complex_item_matches (fst kv) kv'
  | VScalar s => simple_item_matches (fst kv, s) kv'
  end.

(** While a list is matched against itself, only pairs [(i, i)] are
    claimed: the state after the entries [pre] of the ranked list. *)
Definition diagonal_state (pre : list entry) (st : labels) : Prop :=
  seen_l2_indices st = seen_l1_indices st
  /\ (forall i, In i (seen_l1_indices st) <-> exists s, 0 < s /\ In (s, i, i) pre)
  /\ mismatch_l1_indices st = []
  /\ mismatch_l2_indices st = []
  /\ mismatch_set st = []
  /\ Forall (fun p => fst p = snd p) (to_recurse st).

(** ** Notions for the further properties *)

(** Sorted by score, highest first. *)
Definition descending (sl : list entry) : Prop :=
  sorted_by (fun a b => score a >= score b) sl.

(** The entries of one score, in the order of the list. *)
Definition with_score (s : Z) (sl : list entry) : list entry :=
  filter (fun e => score e =? s) sl.

(** Whether the mapping [ys] holds, under the key of the item [kv], a
    value that counts for [kv]: a container when [kv] holds a container,
    an equal scalar when [kv] holds a scalar. *)
Definition shares_item (ys : dict) (kv : scalar * value) : bool :=
  match dict_lookup ys (fst kv) with
  | Some v' =>
      match snd kv, v' with
      | VScalar a, VScalar b => scalar_eqb a b
      | VScalar _, _ | _, VScalar _ => false
      | _, _ => true
      end
  | None => false
  end.

Definition position (e : entry) : nat * nat := (row_of e, col_of e).

(** The state of the matching loop after the entries [pre] of the ranked
    list, with [post] still to come: [claimed] lists the entries that
    were counted as a match, in the order they were claimed. *)
Definition matching_state (l1 l2 : list value) (pre post claimed : list entry)
           (st : labels) : Prop :=
  seen_l1_indices st = map row_of claimed
  /\ seen_l2_indices st = map col_of claimed
  /\ NoDup (map row_of claimed)
  /\ NoDup (map col_of claimed)
  /\ Forall (fun e => score e > 0 /\ In e pre) claimed
  /\ to_recurse st
     = map position (filter (fun e => same_container l1 l2 (position e)) claimed)
  /\ (forall e, In e pre -> score e > 0 ->
                In (row_of e) (seen_l1_indices st) \/ In (col_of e) (seen_l2_indices st))
  /\ (forall r, In r (mismatch_l1_indices st) <-> In (Some r, None) (mismatch_set st))
  /\ (forall c, In c (mismatch_l2_indices st) <-> In (None, Some c) (mismatch_set st))
  /\ (forall p, In p (mismatch_set st) ->
                (exists r, p = (Some r, None)) \/ (exists c, p = (None, Some c)))
  /\ (forall r, In r (mismatch_l1_indices st) -> ~ In r (seen_l1_indices st))
  /\ (forall c, In c (mismatch_l2_indices st) -> ~ In c (seen_l2_indices st))
  /\ (forall r, In r (mismatch_l1_indices st) -> exists e, In e pre /\ row_of e = r)
  /\ (forall c, In c (mismatch_l2_indices st) -> exists e, In e pre /\ col_of e = c)
  /\ (mismatch_set st = [] \/ Forall (fun e => score e <= 0) post).

Definition one_sided (p : index_pair) : bool :=
  match p with
  | (Some _, None) | (None, Some _) => true
  | _ => false
  end.

Definition two_sided (p : index_pair) : bool :=
  match p with
  | (Some _, Some _) => true
  | _ => false
  end.

(** A path that leads to a difference: it is not empty, every index
    pair before its end names a matched pair, and it ends in a key or in
    a one-sided index pair. *)
Fixpoint leads_to_difference (p : path) : bool :=
  match p with
  | [] => false
  | Key _ :: rest =>
      match rest with [] => true | _ => leads_to_difference rest end
  | IndexPair q :: rest =>
      match rest with
      | [] => one_sided q
      | _ => two_sided q && leads_to_difference rest
      end
  end.

Definition starts_with_pair (p : path) : bool :=
  match p with IndexPair _ :: _ => true | _ => false end.

Definition starts_with_key (p : path) : bool :=
  match p with Key _ :: _ => true | _ => false end.

(** The outcomes that the differs can have: a result, an [IndexError]
    from the similarity matrix, or the end of the fuel. *)
Definition no_other_error {A} (r : outcome A) : Prop :=
  forall e, r = Raise e -> e = IndexError.

Definition depth_of_list (l : list value) : nat := depth (VList l).
Definition depth_of_dict (d : dict) : nat := depth (VDict d).

(** The third branch of the loop over the keys: the two values under
    [k] (absent read as [None]) are not two mappings, not two sequences,
    and unequal. *)
Definition leaf_differs (d1 d2 : dict) (k : scalar) : bool :=
  negb (is_dict (dict_get d1 k) && is_dict (dict_get d2 k))
  && negb (is_list (dict_get d1 k) && is_list (dict_get d2 k))
  && negb (value_eqb (dict_get d1 k) (dict_get d2 k)).

Definition both_dicts (d1 d2 : dict) (k : scalar) : bool :=
  is_dict (dict_get d1 k) && is_dict (dict_get d2 k).

Definition both_lists (d1 d2 : dict) (k : scalar) : bool :=
  is_list (dict_get d1 k) && is_list (dict_get d2 k).

(** The diff [tmp] of two elements of one shape, as the recursive calls
    [dict_diff_rec] and [list_diff_rec] return it. *)
Definition nested_diff (dict_diff_rec : dict -> dict -> io (list path))
           (list_diff_rec : list value -> list value -> io (list path))
           (x y : value) (tmp : list path) : Prop :=
  (exists a b, x = VDict a /\ y = VDict b /\ result (dict_diff_rec a b) = Ok tmp)
  \/ (exists a b, x = VList a /\ y = VList b /\ result (list_diff_rec a b) = Ok tmp).

(** ** Sequences of scalars *)

(** No two elements of the sequence are equal under [==]. *)
Fixpoint distinct_scalars (s : list scalar) : bool :=
  match s with
  | [] => true
  | a :: rest => negb (existsb (scalar_eqb a) rest) && distinct_scalars rest
  end.

Definition scalars (s : list scalar) : list value := map VScalar s.

(** ** Mappings that read alike *)

(** [get(k, None)] gives the same value on both mappings, whatever the
    key. *)
Definition same_reads (d d' : dict) : Prop :=
  forall k, dict_get d k = dict_get d' k.

(** [d[k] = None] on a mapping [d] that has no key [k]. *)
Definition with_null (d : dict) (k : scalar) : dict := d ++ [(k, VScalar SNone)].

(** Two paths that are equal but for the name of a first key, which is
    equal under [==] (as [1] and [True] are). *)
Definition same_path (p p' : path) : Prop :=
  match p, p' with
  | Key k :: q, Key k' :: q' => scalar_eqb k k' = true /\ q = q'
  | _, _ => p = p'
  end.

Definition same_paths (ps ps' : list path) : Prop :=
  (forall p, In p ps -> exists p', In p' ps' /\ same_path p p')
  /\ (forall p', In p' ps' -> exists p, In p ps /\ same_path p p').

(** Two calls of which one returns exactly when the other does, and
    then with the same paths. *)
Definition same_outcome (m m' : io (list path)) : Prop :=
  (forall ps, result m = Ok ps -> exists ps', result m' = Ok ps' /\ same_paths ps ps')
  /\ (forall ps', result m' = Ok ps' -> exists ps, result m = Ok ps /\ same_paths ps ps').

(** * Properties *)

(** ** Ranking *)


Lemma join_nil_l (h2 : list entry) : join [] h2 = h2.
Proof. destruct h2; reflexivity. Qed.

Lemma join_nil_r (h1 : list entry) : join h1 [] = h1.
Proof. destruct h1; reflexivity. Qed.

Lemma join_cons (a b : entry) (h1 h2 : list entry) :
  join (a :: h1) (b :: h2)
  = if score a >? score b then a :: join h1 (b :: h2) else b :: join (a :: h1) h2.
Proof. reflexivity. Qed.

Lemma join_perm (h1 h2 : list entry) : Permutation (join h1 h2) (h1 ++ h2).
Proof.
  revert h2. induction h1 as [|a h1 IH1]; intros h2.
  - rewrite join_nil_l. reflexivity.
  - induction h2 as [|b h2 IH2].
    + rewrite join_nil_r, app_nil_r. reflexivity.
    + rewrite join_cons. destruct (score a >? score b).
      * simpl. constructor. apply IH1.
      * rewrite IH2. apply Permutation_middle with (l1 := a :: h1).
Qed.

Lemma sort_perm (sl : list entry) : Permutation (_sort_similarity_list sl) sl.
Proof.
  funelim (_sort_similarity_list sl).
  - reflexivity.
  - rewrite join_perm.
    match goal with
    | IH1 : Permutation _ (firstn _ _), IH2 : Permutation _ (skipn _ _) |- _ =>
        rewrite IH1, IH2
    end.
    rewrite firstn_skipn. reflexivity.
Qed.

Lemma ranks_before_trans (a b c : entry) :
  ranks_before a b -> ranks_before b c -> ranks_before a c.
Proof. unfold ranks_before, row_major_lt. lia. Qed.

Lemma ranks_before_irrefl (a : entry) : ~ ranks_before a a.
Proof. unfold ranks_before, row_major_lt. lia. Qed.

Lemma join_sorted (h1 h2 : list entry) :
  sorted_by ranks_before h1 -> sorted_by ranks_before h2 ->
  Forall (fun a => Forall (row_major_lt a) h2) h1 ->
  sorted_by ranks_before (join h1 h2).
Proof.
  revert h2. induction h1 as [|a h1 IH1]; intros h2 S1 S2 X.
  - rewrite join_nil_l. assumption.
  - induction h2 as [|b h2 IH2].
    + rewrite join_nil_r. assumption.
    + rewrite join_cons.
      inversion S1 as [|? ? Fa S1']; subst.
      inversion S2 as [|? ? Fb S2']; subst.
      inversion X as [|? ? Xa X']; subst.
      inversion Xa as [|? ? Xab Xa']; subst.
      destruct (score a >? score b) eqn:E.
      * apply Z.gtb_lt in E. constructor.
        -- eapply Permutation_Forall; [symmetry; apply join_perm|].
           apply Forall_app. split; [assumption|].
           assert (Hab : ranks_before a b) by (left; lia).
           constructor; [assumption|].
           eapply Forall_impl; [|exact Fb].
           intros c Hc. eapply ranks_before_trans; eauto.
        -- apply IH1; assumption.
      * assert (Hle : score a <= score b)
          by (destruct (Z.gtb_spec (score a) (score b)); [discriminate | lia]).
        assert (Hba : ranks_before b a).
        { unfold ranks_before. destruct (Z.eq_dec (score a) (score b)); [right|left]; [|lia].
          split; [lia | assumption]. }
        constructor.
        -- eapply Permutation_Forall; [symmetry; apply join_perm|].
           apply Forall_app. split; [|assumption].
           constructor; [assumption|].
           eapply Forall_impl; [|exact Fa].
           intros c Hc. eapply ranks_before_trans; eauto.
        -- apply IH2; [assumption|].
           constructor; [assumption|].
           eapply Forall_impl; [|exact X'].
           intros c Hc. inversion Hc; assumption.
Qed.

Lemma sorted_by_app {A} (R : A -> A -> Prop) (l1 l2 : list A) :
  sorted_by R (l1 ++ l2) <->
  sorted_by R l1 /\ sorted_by R l2 /\ Forall (fun a => Forall (R a) l2) l1.
Proof.
  induction l1 as [|x l1 IH]; simpl.
  - split; [intros H; repeat split; auto | intros (_ & H & _); exact H].
  - split.
    + intros H. inversion H as [|? ? F S]; subst.
      apply Forall_app in F. destruct F as [F1 F2].
      apply IH in S. destruct S as (S1 & S2 & X).
      repeat split; auto.
    + intros (S1 & S2 & X).
      inversion S1 as [|? ? F S]; subst. inversion X as [|? ? F2 X']; subst.
      constructor; [apply Forall_app; split; assumption|].
      apply IH. repeat split; assumption.
Qed.

(** The merge sort turns a list in row-major order into the ranked
    order. *)
Lemma sort_sorted (sl : list entry) :
  sorted_by row_major_lt sl -> sorted_by ranks_before (_sort_similarity_list sl).
Proof.
  funelim (_sort_similarity_list sl); intros S.
  - destruct sl as [|a [|b sl]]; simpl in *; try lia; auto.
  - rewrite <- (firstn_skipn (split_index (length sl)) sl) in S.
    apply sorted_by_app in S. destruct S as (S1 & S2 & X).
    apply join_sorted; auto.
    eapply Permutation_Forall; [symmetry; apply sort_perm|].
    eapply Forall_impl; [|exact X].
    intros a Ha. eapply Permutation_Forall; [symmetry; apply sort_perm|exact Ha].
Qed.

Lemma flatten_row_spec (r c : nat) (row : list Z) (e : entry) :
  In e (flatten_row r c row) <->
  row_of e = r /\ (c <= col_of e)%nat /\ nth_error row (col_of e - c) = Some (score e).
Proof.
  revert c. induction row as [|x row IH]; intros c; simpl.
  - split; [tauto|]. intros (_ & _ & H). destruct (col_of e - c)%nat; discriminate.
  - rewrite IH. destruct e as [[s r'] c']. unfold row_of, col_of, score. simpl. split.
    + intros [H | (H1 & H2 & H3)].
      * inversion H; subst. rewrite Nat.sub_diag. auto.
      * subst. split; [reflexivity|]. split; [lia|].
        replace (c' - c)%nat with (S (c' - S c)) by lia. exact H3.
    + intros (H1 & H2 & H3). subst.
      destruct (Nat.eq_dec c' c) as [->|Hne].
      * left. rewrite Nat.sub_diag in H3. simpl in H3. congruence.
      * right. split; [reflexivity|]. split; [lia|].
        replace (c' - c)%nat with (S (c' - S c)) in H3 by lia. exact H3.
Qed.

Lemma flatten_row_sorted (r c : nat) (row : list Z) :
  sorted_by row_major_lt (flatten_row r c row).
Proof.
  revert c. induction row as [|x row IH]; intros c; simpl; auto.
  constructor; [|apply IH].
  apply Forall_forall. intros e He. apply flatten_row_spec in He.
  destruct He as (H1 & H2 & _). right. unfold row_of, col_of in *. simpl. lia.
Qed.

Lemma flatten_from_rows (r : nat) (sm : matrix) (e : entry) :
  In e (flatten_from r sm) -> (r <= row_of e)%nat.
Proof.
  revert r. induction sm as [|row sm IH]; intros r; simpl; [tauto|].
  rewrite in_app_iff. intros [H | H].
  - apply flatten_row_spec in H. lia.
  - apply IH in H. lia.
Qed.

Lemma flatten_from_sorted (r : nat) (sm : matrix) :
  sorted_by row_major_lt (flatten_from r sm).
Proof.
  revert r. induction sm as [|row sm IH]; intros r; simpl; auto.
  apply sorted_by_app. split; [apply flatten_row_sorted|]. split; [apply IH|].
  apply Forall_forall. intros a Ha. apply Forall_forall. intros b Hb.
  apply flatten_row_spec in Ha. apply flatten_from_rows in Hb.
  left. lia.
Qed.

Lemma flatten_from_spec (r : nat) (sm : matrix) (e : entry) :
  In e (flatten_from r sm) <->
  (r <= row_of e)%nat /\ cell sm (row_of e - r) (col_of e) = Some (score e).
Proof.
  revert r. induction sm as [|row sm IH]; intros r; simpl.
  - unfold cell. split; [tauto|]. intros (_ & H).
    destruct (row_of e - r)%nat; discriminate.
  - rewrite in_app_iff, flatten_row_spec, IH. unfold cell. split.
    + intros [(H1 & _ & H3) | (H1 & H2)].
      * subst. rewrite Nat.sub_diag, Nat.sub_0_r in *. simpl. auto.
      * split; [lia|]. replace (row_of e - r)%nat with (S (row_of e - S r)) by lia.
        exact H2.
    + intros (H1 & H2).
      destruct (Nat.eq_dec (row_of e) r) as [E|Hne].
      * left. rewrite E, Nat.sub_diag in H2. simpl in H2.
        rewrite Nat.sub_0_r. split; [assumption|]. split; [lia | assumption].
      * right. split; [lia|].
        replace (row_of e - r)%nat with (S (row_of e - S r)) in H2 by lia. exact H2.
Qed.

Lemma flatten_spec (sm : matrix) (s : Z) (r c : nat) :
  In (s, r, c) (flatten sm) <-> cell sm r c = Some s.
Proof.
  unfold flatten. rewrite flatten_from_spec. unfold row_of, col_of, score. simpl.
  rewrite Nat.sub_0_r. split; [tauto | intros H; split; [lia | exact H]].
Qed.

Lemma flatten_from_length (r : nat) (sm : matrix) :
  length (flatten_from r sm) = list_sum (map (@length Z) sm).
Proof.
  revert r. induction sm as [|row sm IH]; intros r; simpl; [reflexivity|].
  rewrite length_app, IH. f_equal.
  generalize 0%nat. induction row as [|x row IHr]; intros c; simpl; auto.
Qed.

Lemma sorted_by_nth {A} (R : A -> A -> Prop) (l : list A) (p q : nat) (a b : A) :
  sorted_by R l -> (p < q)%nat ->
  nth_error l p = Some a -> nth_error l q = Some b -> R a b.
Proof.
  intros S. revert p q. induction S as [|x l F S IH]; intros p q Hpq Ha Hb.
  - destruct p; discriminate.
  - destruct q as [|q]; [lia|]. simpl in Hb. destruct p as [|p]; simpl in Ha.
    + inversion Ha; subst. rewrite Forall_forall in F. apply F.
      eapply nth_error_In; eauto.
    + apply (IH p q); [lia | exact Ha | exact Hb].
Qed.

Example rank_two_ties :
  _sort_similarity_matrix [[1; 1]] = [(1, 0%nat, 1%nat); (1, 0%nat, 0%nat)].
Proof. reflexivity. Qed.

(** C3, as the design document states it, fails: a stable sort would
    keep the two entries of the matrix [[1, 1]] in row-major order; the
    merge puts the entry of column 1 first. *)
Lemma ranking_is_not_stable :
  ~ (forall (p q : nat) (a b : entry),
        (p < q)%nat ->
        nth_error (_sort_similarity_matrix [[1; 1]]) p = Some a ->
        nth_error (_sort_similarity_matrix [[1; 1]]) q = Some b ->
        score a = score b -> row_major_lt a b).
Proof.
  intros H.
  specialize (H 0%nat 1%nat (1, 0%nat, 1%nat) (1, 0%nat, 0%nat)).
  rewrite rank_two_ties in H.
  specialize (H ltac:(lia) eq_refl eq_refl eq_refl).
  unfold row_major_lt, row_of, col_of in H. simpl in H. lia.
Qed.

(** C3 (amended): the ranking returns every entry of the matrix exactly
    once, sorted by score descending; two entries of equal score come
    out in the reverse of their row-major order. *)
Theorem ranking_sorted_ties_reversed (sm : matrix) :
  Permutation (_sort_similarity_matrix sm) (flatten sm)
  /\ length (_sort_similarity_matrix sm) = list_sum (map (@length Z) sm)
  /\ (forall (s : Z) (r c : nat),
         In (s, r, c) (_sort_similarity_matrix sm) <-> cell sm r c = Some s)
  /\ (forall (p q : nat) (a b : entry),
         (p < q)%nat ->
         nth_error (_sort_similarity_matrix sm) p = Some a ->
         nth_error (_sort_similarity_matrix sm) q = Some b ->
         score a >= score b /\ (score a = score b -> row_major_lt b a)).
Proof.
  unfold _sort_similarity_matrix.
  pose proof (sort_perm (flatten sm)) as P.
  split; [exact P|]. split.
  - rewrite (Permutation_length P). apply flatten_from_length.
  - split.
    + intros s r c. rewrite <- flatten_spec. split; intros H.
      * eapply Permutation_in; [exact P | exact H].
      * eapply Permutation_in; [symmetry; exact P | exact H].
    + intros p q a b Hpq Ha Hb.
      pose proof (sort_sorted (flatten sm) (flatten_from_sorted 0 sm)) as S.
      pose proof (sorted_by_nth _ _ _ _ _ _ S Hpq Ha Hb) as [Hgt | [Heq Hrm]].
      * split; lia.
      * split; [lia | intros _; exact Hrm].
Qed.

(** ** The similarity matrix: cells *)


Lemma nth_error_set_nth {A} (l : list A) (i i' : nat) (x : A) :
  nth_error (set_nth l i x) i'
  = if Nat.eqb i' i then option_map (fun _ => x) (nth_error l i') else nth_error l i'.
Proof.
  revert i i'. induction l as [|y l IH]; intros i i'; simpl.
  - destruct i'; destruct (Nat.eqb _ i); reflexivity.
  - destruct i as [|i]; destruct i' as [|i']; simpl; try reflexivity.
    apply IH.
Qed.

Lemma incr_cells (m m' : matrix) (i j : nat) :
  incr m i j = Ok m' ->
  forall i' j',
    cell m' i' j'
    = option_map (fun z => z + (if pos_eqb (i', j') (i, j) then 1 else 0))
                 (cell m i' j').
Proof.
  unfold incr, index, cell, pos_eqb. simpl.
  destruct (nth_error m i) as [row|] eqn:Er; simpl; [|discriminate].
  destruct (nth_error row j) as [x|] eqn:Ex; simpl; [|discriminate].
  intros H i' j'. inversion H; subst; clear H.
  rewrite nth_error_set_nth.
  destruct (Nat.eqb_spec i' i) as [->|Hi]; simpl.
  - rewrite Er. simpl. rewrite nth_error_set_nth.
    destruct (Nat.eqb_spec j' j) as [->|Hj]; simpl.
    + rewrite Ex. reflexivity.
    + destruct (nth_error row j'); simpl; [f_equal; lia | reflexivity].
  - destruct (nth_error m i') as [row'|]; [|reflexivity].
    destruct (nth_error row' j'); simpl; [f_equal; lia | reflexivity].
Qed.

Lemma incr_defined (m : matrix) (i j : nat) :
  cell m i j <> None -> exists m', incr m i j = Ok m'.
Proof.
  unfold incr, index, cell.
  destruct (nth_error m i) as [row|]; simpl; [|congruence].
  destruct (nth_error row j); simpl; [eauto | congruence].
Qed.

Lemma incr_undefined (m : matrix) (i j : nat) :
  cell m i j = None -> incr m i j = Raise IndexError.
Proof.
  unfold incr, index, cell.
  destruct (nth_error m i) as [row|]; simpl; [|reflexivity].
  destruct (nth_error row j); simpl; [discriminate | reflexivity].
Qed.

Lemma incr_pairs_cells (ps : list (nat * nat)) (m m' : matrix) :
  incr_pairs m ps = Ok m' ->
  forall i j,
    cell m' i j = option_map (fun z => z + Z.of_nat (count_pos (i, j) ps)) (cell m i j).
Proof.
  revert m. induction ps as [|[pi pj] ps IH]; intros m H i j; simpl in *.
  - inversion H; subst. destruct (cell m' i j); simpl; [f_equal; lia | reflexivity].
  - destruct (incr m pi pj) as [m1| |] eqn:E; simpl in H; try discriminate.
    rewrite (IH _ H), (incr_cells _ _ _ _ E). unfold count_pos. simpl.
    destruct (cell m i j); simpl; [|reflexivity].
    destruct (pos_eqb (i, j) (pi, pj)); simpl; f_equal; lia.
Qed.

Lemma incr_pairs_defined (ps : list (nat * nat)) (m : matrix) :
  Forall (fun p => cell m (fst p) (snd p) <> None) ps ->
  exists m', incr_pairs m ps = Ok m'.
Proof.
  revert m. induction ps as [|[pi pj] ps IH]; intros m F; simpl.
  - eauto.
  - inversion F as [|? ? Hp F']; subst. simpl in Hp.
    destruct (incr_defined m pi pj Hp) as [m1 E]. rewrite E. simpl.
    apply IH. eapply Forall_impl; [|exact F'].
    intros [a b] Hab. simpl in *. rewrite (incr_cells _ _ _ _ E).
    destruct (cell m a b); simpl; congruence.
Qed.

Lemma incr_pairs_app (ps qs : list (nat * nat)) (m : matrix) :
  incr_pairs m (ps ++ qs) = obind (incr_pairs m ps) (fun m' => incr_pairs m' qs).
Proof.
  revert m. induction ps as [|p ps IH]; intros m; simpl; [reflexivity|].
  destruct (incr m (fst p) (snd p)); simpl; auto.
Qed.

Lemma incr_all_pairs (m : matrix) (i : nat) (js : list nat) :
  incr_all m i js = incr_pairs m (map (pair i) js).
Proof.
  revert m. induction js as [|j js IH]; intros m; simpl; [reflexivity|].
  destruct (incr m i j); simpl; auto.
Qed.


Lemma score_items_pairs (T : tables) (i : nat) (items : dict) (m : matrix) :
  score_items T i items m = incr_pairs m (map (pair i) (flat_map (item_votes T) items)).
Proof.
  revert m. induction items as [|kv items IH]; intros m; simpl; [reflexivity|].
  rewrite map_app, incr_pairs_app, incr_all_pairs.
  destruct (incr_pairs m (map (pair i) (item_votes T kv))); simpl; auto.
Qed.

Lemma score_elem_pairs (T : tables) (i : nat) (x : value) (m : matrix) :
  score_elem T i x m = incr_pairs m (map (pair i) (votes T x)).
Proof.
  destruct x; simpl; [apply incr_all_pairs | apply score_items_pairs | apply incr_all_pairs].
Qed.

Lemma score_from_pairs (T : tables) (i : nat) (l1 : list value) (m : matrix) :
  score_from T i l1 m = incr_pairs m (ballots T i l1).
Proof.
  revert i m. induction l1 as [|x l1 IH]; intros i m; simpl; [reflexivity|].
  rewrite incr_pairs_app, score_elem_pairs.
  destruct (incr_pairs m (map (pair i) (votes T x))); simpl; auto.
Qed.

Lemma count_pos_app (p : nat * nat) (ps qs : list (nat * nat)) :
  count_pos p (ps ++ qs) = (count_pos p ps + count_pos p qs)%nat.
Proof. unfold count_pos. rewrite filter_app, length_app. reflexivity. Qed.


Lemma count_nat_app (j : nat) (js ks : list nat) :
  count_nat j (js ++ ks) = (count_nat j js + count_nat j ks)%nat.
Proof. unfold count_nat. rewrite filter_app, length_app. reflexivity. Qed.

Lemma count_pos_row (i i' j : nat) (js : list nat) :
  count_pos (i', j) (map (pair i) js) = if Nat.eqb i' i then count_nat j js else 0%nat.
Proof.
  unfold count_pos, count_nat, pos_eqb.
  induction js as [|k js IH]; simpl.
  - destruct (Nat.eqb i' i); reflexivity.
  - destruct (Nat.eqb i' i); simpl in *; [|exact IH].
    destruct (Nat.eqb j k); simpl; congruence.
Qed.

Lemma count_pos_ballots (T : tables) (i0 : nat) (l1 : list value) (i j : nat) :
  count_pos (i, j) (ballots T i0 l1)
  = if Nat.leb i0 i then
      match nth_error l1 (i - i0) with
      | Some x => count_nat j (votes T x)
      | None => 0%nat
      end
    else 0%nat.
Proof.
  revert i0. induction l1 as [|x l1 IH]; intros i0; simpl.
  - destruct (Nat.leb i0 i); [destruct (i - i0)%nat|]; reflexivity.
  - rewrite count_pos_app, count_pos_row, IH.
    destruct (Nat.eqb_spec i i0) as [->|Hne].
    + replace (Nat.leb (S i0) i0) with false by (symmetry; apply Nat.leb_gt; lia).
      rewrite Nat.leb_refl, Nat.sub_diag. simpl. lia.
    + destruct (Nat.leb_spec i0 i) as [Hle|Hgt].
      * replace (Nat.leb (S i0) i) with true by (symmetry; apply Nat.leb_le; lia).
        replace (i - i0)%nat with (S (i - S i0)) by lia. reflexivity.
      * replace (Nat.leb (S i0) i) with false by (symmetry; apply Nat.leb_gt; lia).
        reflexivity.
Qed.

Lemma cell_zeros (rows cols i j : nat) :
  cell (zeros rows cols) i j
  = if Nat.ltb i rows && Nat.ltb j cols then Some 0 else None.
Proof.
  unfold cell, zeros.
  destruct (Nat.ltb_spec i rows) as [Hi|Hi]; simpl.
  - rewrite nth_error_repeat by assumption.
    destruct (Nat.ltb_spec j cols) as [Hj|Hj].
    + apply nth_error_repeat. assumption.
    + apply nth_error_None. rewrite repeat_length. assumption.
  - replace (nth_error (repeat (repeat 0 cols) rows) i) with (@None (list Z)); [reflexivity|].
    symmetry. apply nth_error_None. rewrite repeat_length. assumption.
Qed.

(** Every cell of a matrix that was returned holds the number of votes
    of its row for its column. *)
Lemma matrix_cells (l1 l2 : list value) (m : matrix) (i j : nat) (x : value) (s : Z) :
  _create_similarity_matrix l1 l2 = Ok m ->
  nth_error l1 i = Some x ->
  cell m i j = Some s ->
  s = Z.of_nat (count_nat j (votes (parse_from 0 l2 empty_tables) x)).
Proof.
  unfold _create_similarity_matrix. rewrite score_from_pairs. intros H Hx Hc.
  rewrite (incr_pairs_cells _ _ _ H), cell_zeros, count_pos_ballots in Hc.
  simpl in Hc. rewrite Nat.sub_0_r, Hx in Hc.
  destruct (_ && _); simpl in Hc; [|discriminate].
  inversion Hc. lia.
Qed.

(** ** The similarity matrix: the lookup tables *)

Lemma scalar_eqb_norm (a b : scalar) : scalar_eqb a b = true <-> norm a = norm b.
Proof.
  destruct a as [|[|]|x|x], b as [|[|]|y|y]; cbv [scalar_eqb as_int norm];
    try rewrite Z.eqb_eq; try rewrite String.eqb_eq;
    split; intros H; try reflexivity; try discriminate; congruence.
Qed.

Lemma scalar_eqb_refl (a : scalar) : scalar_eqb a a = true.
Proof. apply scalar_eqb_norm. reflexivity. Qed.

Lemma scalar_eqb_sym (a b : scalar) : scalar_eqb a b = scalar_eqb b a.
Proof.
  destruct (scalar_eqb a b) eqn:E1, (scalar_eqb b a) eqn:E2; try reflexivity.
  - apply scalar_eqb_norm in E1. symmetry in E1. apply scalar_eqb_norm in E1. congruence.
  - apply scalar_eqb_norm in E2. symmetry in E2. apply scalar_eqb_norm in E2. congruence.
Qed.

Lemma scalar_eqb_trans (a b c : scalar) :
  scalar_eqb a b = true -> scalar_eqb b c = true -> scalar_eqb a c = true.
Proof. rewrite !scalar_eqb_norm. congruence. Qed.

(** If [a == b], the two compare alike with any third scalar. *)
Lemma scalar_eqb_congr (a b c : scalar) :
  scalar_eqb a b = true -> scalar_eqb a c = scalar_eqb b c.
Proof.
  intros H. destruct (scalar_eqb b c) eqn:E.
  - eapply scalar_eqb_trans; eauto.
  - destruct (scalar_eqb a c) eqn:E'; [|reflexivity].
    rewrite scalar_eqb_sym in H. rewrite <- E. symmetry.
    eapply scalar_eqb_trans; eauto.
Qed.

Lemma pair_eqb_sym (a b : scalar * scalar) : pair_eqb a b = pair_eqb b a.
Proof. unfold pair_eqb. rewrite (scalar_eqb_sym (fst a)), (scalar_eqb_sym (snd a)). reflexivity. Qed.

Lemma pair_eqb_trans (a b c : scalar * scalar) :
  pair_eqb a b = true -> pair_eqb b c = true -> pair_eqb a c = true.
Proof.
  unfold pair_eqb. rewrite !andb_true_iff. intros [H1 H2] [H3 H4].
  split; eapply scalar_eqb_trans; eauto.
Qed.

Section BucketLemmas.
Context {K : Type} (eqb : K -> K -> bool).
Hypothesis eqb_sym : forall a b, eqb a b = eqb b a.
Hypothesis eqb_trans : forall a b c, eqb a b = true -> eqb b c = true -> eqb a c = true.

Lemma eqb_congr (a b c : K) : eqb a b = true -> eqb c a = eqb c b.
Proof.
  intros H. destruct (eqb c b) eqn:E.
  - apply eqb_trans with b; [assumption|]. rewrite eqb_sym. assumption.
  - destruct (eqb c a) eqn:E'; [|reflexivity].
    rewrite <- E. symmetry. apply eqb_trans with a; assumption.
Qed.

Lemma bucket_get_congr (b : bucket) (k k' : K) :
  eqb k k' = true -> bucket_get eqb b k = bucket_get eqb b k'.
Proof.
  intros H. induction b as [|[k0 js] b IH]; simpl; [reflexivity|].
  rewrite (eqb_congr k k' k0 H), IH. reflexivity.
Qed.

Lemma bucket_get_set (b : bucket) (k k' : K) (js : list nat) :
  bucket_get eqb (bucket_set eqb b k js) k'
  = if eqb k k' then js else bucket_get eqb b k'.
Proof.
  induction b as [|[k0 js0] b IH]; simpl.
  - reflexivity.
  - destruct (eqb k0 k) eqn:E0; simpl.
    + destruct (eqb k k') eqn:E.
      * rewrite (eqb_trans _ _ _ E0 E). reflexivity.
      * destruct (eqb k0 k') eqn:E1; [|reflexivity].
        rewrite eqb_sym in E0. rewrite (eqb_trans _ _ _ E0 E1) in E. discriminate.
    + destruct (eqb k0 k') eqn:E1.
      * destruct (eqb k k') eqn:E; [|reflexivity].
        rewrite eqb_sym in E. rewrite (eqb_trans _ _ _ E1 E) in E0. discriminate.
      * apply IH.
Qed.

Lemma bucket_get_add (b : bucket) (k k' : K) (i : nat) :
  bucket_get eqb (bucket_add eqb b k i) k'
  = bucket_get eqb b k' ++ (if eqb k k' then [i] else []).
Proof.
  unfold bucket_add. rewrite bucket_get_set.
  destruct (eqb k k') eqn:E.
  - rewrite (bucket_get_congr b k k' E). reflexivity.
  - rewrite app_nil_r. reflexivity.
Qed.
End BucketLemmas.

Lemma nat_eqb_trans (a b c : nat) :
  Nat.eqb a b = true -> Nat.eqb b c = true -> Nat.eqb a c = true.
Proof. rewrite !Nat.eqb_eq. congruence. Qed.

(** *** One element of [l2] *)

Lemma parse_items_simple_values (i : nat) (items : dict) (T : tables) :
  simple_values (fold_left (parse_item i) items T) = simple_values T.
Proof.
  revert T. induction items as [|[k v] items IH]; intros T; simpl; [reflexivity|].
  rewrite IH. unfold parse_item. simpl. destruct v; reflexivity.
Qed.

Lemma parse_items_list_lengths (i : nat) (items : dict) (T : tables) :
  list_lengths (fold_left (parse_item i) items T) = list_lengths T.
Proof.
  revert T. induction items as [|[k v] items IH]; intros T; simpl; [reflexivity|].
  rewrite IH. unfold parse_item. simpl. destruct v; reflexivity.
Qed.

Lemma parse_items_complex_keys (i : nat) (items : dict) (T : tables) (k : scalar) :
  bucket_get scalar_eqb (complex_keys (fold_left (parse_item i) items T)) k
  = bucket_get scalar_eqb (complex_keys T) k
    ++ repeat i (length (filter (complex_item_matches k) items)).
Proof.
  revert T. induction items as [|[k0 v] items IH]; intros T; simpl.
  - rewrite app_nil_r. reflexivity.
  - rewrite IH. unfold parse_item, complex_item_matches, is_complex. simpl.
    destruct v; simpl; try reflexivity;
      rewrite (bucket_get_add scalar_eqb scalar_eqb_sym scalar_eqb_trans), <- app_assoc;
      destruct (scalar_eqb k0 k); reflexivity.
Qed.

Lemma parse_items_key_value_pairs (i : nat) (items : dict) (T : tables)
      (ks : scalar * scalar) :
  bucket_get pair_eqb (key_value_pairs (fold_left (parse_item i) items T)) ks
  = bucket_get pair_eqb (key_value_pairs T) ks
    ++ repeat i (length (filter (simple_item_matches ks) items)).
Proof.
  revert T. induction items as [|[k0 v] items IH]; intros T; simpl.
  - rewrite app_nil_r. reflexivity.
  - rewrite IH. unfold parse_item, simple_item_matches. simpl.
    destruct v; simpl; try reflexivity.
    rewrite (bucket_get_add pair_eqb pair_eqb_sym pair_eqb_trans), <- app_assoc.
    destruct (pair_eqb (k0, s) ks); reflexivity.
Qed.

Lemma parse_elem_simple_values (i : nat) (T : tables) (y : value) (a : scalar) :
  bucket_get scalar_eqb (simple_values (parse_elem i T y)) a
  = bucket_get scalar_eqb (simple_values T) a ++ repeat i (scalar_mult a y).
Proof.
  destruct y; simpl.
  - rewrite (bucket_get_add scalar_eqb scalar_eqb_sym scalar_eqb_trans).
    destruct (scalar_eqb s a); reflexivity.
  - rewrite parse_items_simple_values, app_nil_r. reflexivity.
  - rewrite app_nil_r. reflexivity.
Qed.

Lemma parse_elem_list_lengths (i : nat) (T : tables) (y : value) (n : nat) :
  bucket_get Nat.eqb (list_lengths (parse_elem i T y)) n
  = bucket_get Nat.eqb (list_lengths T) n ++ repeat i (length_mult n y).
Proof.
  destruct y; simpl.
  - rewrite app_nil_r. reflexivity.
  - rewrite parse_items_list_lengths, app_nil_r. reflexivity.
  - rewrite (bucket_get_add Nat.eqb Nat.eqb_sym nat_eqb_trans).
    destruct (Nat.eqb (length elems) n); reflexivity.
Qed.

Lemma parse_elem_complex_keys (i : nat) (T : tables) (y : value) (k : scalar) :
  bucket_get scalar_eqb (complex_keys (parse_elem i T y)) k
  = bucket_get scalar_eqb (complex_keys T) k ++ repeat i (complex_key_mult k y).
Proof.
  destruct y; simpl; try (rewrite app_nil_r; reflexivity).
  apply parse_items_complex_keys.
Qed.

Lemma parse_elem_key_value_pairs (i : nat) (T : tables) (y : value)
      (ks : scalar * scalar) :
  bucket_get pair_eqb (key_value_pairs (parse_elem i T y)) ks
  = bucket_get pair_eqb (key_value_pairs T) ks ++ repeat i (key_value_mult ks y).
Proof.
  destruct y; simpl; try (rewrite app_nil_r; reflexivity).
  apply parse_items_key_value_pairs.
Qed.

(** *** All of [l2] *)

Lemma parse_from_simple_values (l2 : list value) (i : nat) (T : tables) (a : scalar) :
  bucket_get scalar_eqb (simple_values (parse_from i l2 T)) a
  = bucket_get scalar_eqb (simple_values T) a ++ hits_from i l2 (scalar_mult a).
Proof.
  revert i T. induction l2 as [|y l2 IH]; intros i T; simpl.
  - rewrite app_nil_r. reflexivity.
  - rewrite IH, parse_elem_simple_values, <- app_assoc. reflexivity.
Qed.

Lemma parse_from_list_lengths (l2 : list value) (i : nat) (T : tables) (n : nat) :
  bucket_get Nat.eqb (list_lengths (parse_from i l2 T)) n
  = bucket_get Nat.eqb (list_lengths T) n ++ hits_from i l2 (length_mult n).
Proof.
  revert i T. induction l2 as [|y l2 IH]; intros i T; simpl.
  - rewrite app_nil_r. reflexivity.
  - rewrite IH, parse_elem_list_lengths, <- app_assoc. reflexivity.
Qed.

Lemma parse_from_complex_keys (l2 : list value) (i : nat) (T : tables) (k : scalar) :
  bucket_get scalar_eqb (complex_keys (parse_from i l2 T)) k
  = bucket_get scalar_eqb (complex_keys T) k ++ hits_from i l2 (complex_key_mult k).
Proof.
  revert i T. induction l2 as [|y l2 IH]; intros i T; simpl.
  - rewrite app_nil_r. reflexivity.
  - rewrite IH, parse_elem_complex_keys, <- app_assoc. reflexivity.
Qed.

Lemma parse_from_key_value_pairs (l2 : list value) (i : nat) (T : tables)
      (ks : scalar * scalar) :
  bucket_get pair_eqb (key_value_pairs (parse_from i l2 T)) ks
  = bucket_get pair_eqb (key_value_pairs T) ks ++ hits_from i l2 (key_value_mult ks).
Proof.
  revert i T. induction l2 as [|y l2 IH]; intros i T; simpl.
  - rewrite app_nil_r. reflexivity.
  - rewrite IH, parse_elem_key_value_pairs, <- app_assoc. reflexivity.
Qed.

Lemma count_nat_repeat (j i n : nat) :
  count_nat j (repeat i n) = if Nat.eqb j i then n else 0%nat.
Proof.
  unfold count_nat. induction n as [|n IH]; simpl.
  - destruct (Nat.eqb j i); reflexivity.
  - destruct (Nat.eqb j i); simpl in *; congruence.
Qed.

Lemma count_nat_hits (l2 : list value) (mult : value -> nat) (i j : nat) :
  count_nat j (hits_from i l2 mult)
  = if Nat.leb i j then
      match nth_error l2 (j - i) with
      | Some y => mult y
      | None => 0%nat
      end
    else 0%nat.
Proof.
  revert i. induction l2 as [|y l2 IH]; intros i; simpl.
  - destruct (Nat.leb i j); [destruct (j - i)%nat|]; reflexivity.
  - rewrite count_nat_app, count_nat_repeat, IH.
    destruct (Nat.eqb_spec j i) as [->|Hne].
    + replace (Nat.leb (S i) i) with false by (symmetry; apply Nat.leb_gt; lia).
      rewrite Nat.leb_refl, Nat.sub_diag. simpl. lia.
    + destruct (Nat.leb_spec i j) as [Hle|Hgt].
      * replace (Nat.leb (S i) j) with true by (symmetry; apply Nat.leb_le; lia).
        replace (j - i)%nat with (S (j - S i)) by lia. reflexivity.
      * replace (Nat.leb (S i) j) with false by (symmetry; apply Nat.leb_gt; lia).
        reflexivity.
Qed.

Lemma hits_in_range (l2 : list value) (mult : value -> nat) (i j : nat) :
  In j (hits_from i l2 mult) -> (i <= j < i + length l2)%nat.
Proof.
  revert i. induction l2 as [|y l2 IH]; intros i; simpl; [tauto|].
  rewrite in_app_iff. intros [H | H].
  - apply repeat_spec in H. lia.
  - apply IH in H. lia.
Qed.

(** The votes of [x], read off [l2] directly. *)
Lemma votes_hits (l2 : list value) (x : value) :
  votes (parse_from 0 l2 empty_tables) x
  = match x with
    | VScalar a => hits_from 0 l2 (scalar_mult a)
    | VList xs => hits_from 0 l2 (length_mult (length xs))
    | VDict items => flat_map (fun kv => hits_from 0 l2 (item_mult kv)) items
    end.
Proof.
  destruct x as [a|items|xs]; simpl.
  - rewrite parse_from_simple_values. reflexivity.
  - apply flat_map_ext. intros [k v]. unfold item_votes, item_mult. simpl.
    destruct v; simpl.
    + rewrite parse_from_key_value_pairs. reflexivity.
    + rewrite parse_from_complex_keys. reflexivity.
    + rewrite parse_from_complex_keys. reflexivity.
  - rewrite parse_from_list_lengths. reflexivity.
Qed.

Lemma count_nat_flat_map {A} (f : A -> list nat) (l : list A) (j : nat) :
  count_nat j (flat_map f l) = list_sum (map (fun a => count_nat j (f a)) l).
Proof.
  induction l as [|a l IH]; simpl; [reflexivity|].
  rewrite count_nat_app, IH. reflexivity.
Qed.

Lemma count_votes (l2 : list value) (x y : value) (j : nat) :
  nth_error l2 j = Some y ->
  count_nat j (votes (parse_from 0 l2 empty_tables) x) = similarity x y.
Proof.
  intros Hy. rewrite votes_hits. destruct x as [a|items|xs]; simpl.
  - rewrite count_nat_hits. simpl. rewrite Nat.sub_0_r, Hy. reflexivity.
  - rewrite count_nat_flat_map. f_equal. apply map_ext. intros kv.
    rewrite count_nat_hits. simpl. rewrite Nat.sub_0_r, Hy. reflexivity.
  - rewrite count_nat_hits. simpl. rewrite Nat.sub_0_r, Hy. reflexivity.
Qed.

Lemma votes_in_range (l2 : list value) (x : value) (j : nat) :
  In j (votes (parse_from 0 l2 empty_tables) x) -> (j < length l2)%nat.
Proof.
  rewrite votes_hits. destruct x as [a|items|xs].
  - intros H. apply hits_in_range in H. lia.
  - rewrite in_flat_map. intros (kv & _ & H). apply hits_in_range in H. lia.
  - intros H. apply hits_in_range in H. lia.
Qed.

(** Every cell of a returned matrix whose row and column name elements
    of the two lists holds the similarity of that pair. *)
Lemma matrix_cell_similarity (l1 l2 : list value) (m : matrix) (i j : nat)
      (x y : value) (s : Z) :
  _create_similarity_matrix l1 l2 = Ok m ->
  nth_error l1 i = Some x -> nth_error l2 j = Some y ->
  cell m i j = Some s ->
  s = Z.of_nat (similarity x y).
Proof.
  intros H Hx Hy Hc. rewrite (matrix_cells _ _ _ _ _ _ _ H Hx Hc).
  rewrite (count_votes _ _ _ _ Hy). reflexivity.
Qed.

Lemma similarity_scalars (a b : scalar) :
  similarity (VScalar a) (VScalar b) = if scalar_eqb a b then 1%nat else 0%nat.
Proof. simpl. rewrite scalar_eqb_sym. reflexivity. Qed.

Lemma similarity_cross_shape (x y : value) :
  shape_of x <> shape_of y -> similarity x y = 0%nat.
Proof.
  destruct x as [a|items|xs], y as [b|items'|ys]; simpl; intros H;
    try congruence; try reflexivity.
  - induction items as [|[k v] items IH]; simpl; [reflexivity|].
    rewrite IH. unfold item_mult. simpl. destruct v; reflexivity.
  - induction items as [|[k v] items IH]; simpl; [reflexivity|].
    rewrite IH. unfold item_mult. simpl. destruct v; reflexivity.
Qed.

(** The rows of a returned matrix are indexed by [l2] and its columns by
    [l1]. *)
Lemma matrix_shape (l1 l2 : list value) (m : matrix) (i j : nat) :
  _create_similarity_matrix l1 l2 = Ok m ->
  (cell m i j <> None <-> (i < length l2)%nat /\ (j < length l1)%nat).
Proof.
  unfold _create_similarity_matrix. rewrite score_from_pairs. intros H.
  rewrite (incr_pairs_cells _ _ _ H), cell_zeros.
  destruct (Nat.ltb_spec i (length l2)), (Nat.ltb_spec j (length l1)); simpl;
    split; try congruence; try lia; intros _; discriminate.
Qed.

Example matrix_square :
  _create_similarity_matrix (ints [1; 2; 3; 5]) (ints [1; 2; 4; 5])
  = Ok [[1; 0; 0; 0]; [0; 1; 0; 0]; [0; 0; 0; 0]; [0; 0; 0; 1]].
Proof. reflexivity. Qed.

(** C1 at two inputs with more elements on the left than on the right:
    for [[1, 1]] against [[1]] the second increment addresses row 1 of a
    one-row matrix and raises [IndexError]; for [[1, 2, 3]] against
    [[4]] the scorer returns one row of three columns, not three rows
    of one. *)
Theorem matrix_is_built_transposed :
  _create_similarity_matrix (ints [1; 1]) (ints [1]) = Raise IndexError
  /\ _create_similarity_matrix (ints [1; 2; 3]) (ints [4]) = Ok [[0; 0; 0]].
Proof. split; reflexivity. Qed.

(** C8: the scorer gives a pair of elements its score only inside the
    shape it allocates, [len(l2)] rows of [len(l1)] columns.  For
    [[1, 5]] against [[1]] it returns the one row [[1, 0]]: the pair of
    the unequal scalars [l1[1] = 5] and [l2[0] = 1] has no score, since
    there is no row 1.  For every returned matrix and every pair
    [(l1[i], l2[j])]: when [i < len(l2)] and [j < len(l1)] the cell
    [m[i][j]] holds 1 for two equal scalars, 0 for two unequal scalars
    and 0 for two elements of different shapes; otherwise there is no
    cell [m[i][j]]. *)
Theorem pairs_outside_the_allocated_shape_have_no_score :
  (_create_similarity_matrix (ints [1; 5]) (ints [1]) = Ok [[1; 0]]
   /\ nth_error (ints [1; 5]) 1 = Some (int 5)
   /\ nth_error (ints [1]) 0 = Some (int 1)
   /\ cell [[1; 0]] 1 0 = None)
  /\ forall (l1 l2 : list value) (m : matrix) (i j : nat) (x y : value),
      _create_similarity_matrix l1 l2 = Ok m ->
      nth_error l1 i = Some x -> nth_error l2 j = Some y ->
      ((i < length l2)%nat /\ (j < length l1)%nat ->
       (forall a b, x = VScalar a -> y = VScalar b ->
                    cell m i j = Some (if scalar_eqb a b then 1 else 0))
       /\ (shape_of x <> shape_of y -> cell m i j = Some 0))
      /\ (~ ((i < length l2)%nat /\ (j < length l1)%nat) -> cell m i j = None).
Proof.
  split; [repeat split; reflexivity|].
  intros l1 l2 m i j x y H Hx Hy. split.
  - intros Hin. apply (matrix_shape l1 l2 m i j H) in Hin.
    destruct (cell m i j) as [s|] eqn:Hc; [clear Hin | congruence].
    pose proof (matrix_cell_similarity _ _ _ _ _ _ _ _ H Hx Hy Hc) as Hs.
    split.
    + intros a b -> ->. rewrite similarity_scalars in Hs.
      destruct (scalar_eqb a b); simpl in Hs; subst; reflexivity.
    + intros Hsh. rewrite (similarity_cross_shape _ _ Hsh) in Hs. subst. reflexivity.
  - intros Hout. destruct (cell m i j) as [s|] eqn:Hc; [|reflexivity].
    exfalso. apply Hout. apply (matrix_shape l1 l2 m i j H). congruence.
Qed.

(** ** The differs: unfolding and small sets *)

Lemma bind_ok {A B} (a : A) (f : A -> io B) : bind ([], Ok a) f = f a.
Proof. unfold bind. simpl. destruct (f a). reflexivity. Qed.

Lemma bind_lift_ok {A B} (a : A) (f : A -> io B) : bind (lift (Ok a)) f = f a.
Proof. apply bind_ok. Qed.

Lemma bind_ret {A B} (a : A) (f : A -> io B) : bind (ret a) f = f a.
Proof. apply bind_ok. Qed.

Lemma bind_lift_raise {A B} (e : exn) (f : A -> io B) :
  bind (lift (Raise e)) f = ([], Raise e).
Proof. reflexivity. Qed.

Lemma iter_set_nil {A} {O : IterOrder A} : iter_set (@nil A) = [].
Proof. apply Permutation_nil. symmetry. apply iter_set_perm. Qed.

Lemma iter_set_not_nil {A} {O : IterOrder A} (x : A) (s : list A) :
  iter_set (x :: s) <> [].
Proof.
  intros E. pose proof (iter_set_perm (x :: s)) as P. rewrite E in P.
  apply Permutation_nil in P. discriminate.
Qed.

Lemma iter_set_singleton {A} {O : IterOrder A} (x : A) : iter_set [x] = [x].
Proof. apply Permutation_length_1_inv. symmetry. apply iter_set_perm. Qed.

Lemma iter_set_pair {A} {O : IterOrder A} (x y : A) :
  iter_set [x; y] = [x; y] \/ iter_set [x; y] = [y; x].
Proof. apply Permutation_length_2_inv. symmetry. apply iter_set_perm. Qed.

Section DifferBasics.
Context {key_order : IterOrder scalar} {pair_order : IterOrder index_pair}.

Lemma list_diff_S (fuel : nat) (l1 l2 : list value) :
  list_diff (S fuel) l1 l2
  = bind (lift (match_elements l1 l2)) (fun st =>
      recursion_loop fuel l1 l2 (to_recurse st)
        (map (fun elem => [IndexPair elem]) (iter_set (mismatch_set st)))).
Proof. reflexivity. Qed.

Lemma dict_diff_S (fuel : nat) (d1 d2 : dict) :
  dict_diff (S fuel) d1 d2
  = dict_diff_body (dict_diff fuel) (list_diff fuel) d1 d2.
Proof. reflexivity. Qed.

Lemma key_union_same_key (k : scalar) (v w : value) :
  key_union [(k, v)] [(k, w)] = [k].
Proof.
  unfold key_union.
  cbv [set_add_all set_add set_mem fold_left existsb app map fst].
  rewrite !iter_set_singleton.
  cbv [set_add_all set_add set_mem fold_left existsb app map fst].
  rewrite scalar_eqb_refl. reflexivity.
Qed.

Lemma recursion_loop_nil (fuel : nat) (l1 l2 : list value) (acc : list path) :
  recursion_loop fuel l1 l2 [] acc = ret acc.
Proof. reflexivity. Qed.

(** A list diff whose matching phase queues nothing returns the
    one-sided mismatches, in the order the set yields them. *)
Lemma list_diff_no_recursion (fuel : nat) (l1 l2 : list value) (st : labels) :
  match_elements l1 l2 = Ok st -> to_recurse st = [] ->
  list_diff (S fuel) l1 l2
  = ret (map (fun elem => [IndexPair elem]) (iter_set (mismatch_set st))).
Proof.
  intros H Hq. rewrite list_diff_S, H, bind_lift_ok, Hq. reflexivity.
Qed.
End DifferBasics.

(** The two documents of the module's [__main__] block, with every set
    visited in insertion order. *)
Example main_example :
  by_insertion (fun _ _ => list_diff 4 main_a main_b)
  = ([],
     Ok [[IndexPair (None, Some 1%nat)];
         [IndexPair (Some 1%nat, None)];
         [IndexPair (Some 2%nat, Some 2%nat); Key (str "k")];
         [IndexPair (Some 2%nat, Some 2%nat); Key (str "b"); Key (str "c")];
         [IndexPair (Some 2%nat, Some 2%nat); Key (str "b"); Key (str "d")];
         [IndexPair (Some 3%nat, Some 3%nat); IndexPair (Some 2%nat, Some 2%nat);
          Key (str "k")];
         [IndexPair (Some 3%nat, Some 3%nat); IndexPair (Some 2%nat, Some 2%nat);
          Key (str "b"); Key (str "c")];
         [IndexPair (Some 3%nat, Some 3%nat); IndexPair (Some 2%nat, Some 2%nat);
          Key (str "b"); Key (str "d")]]).
Proof. vm_compute. reflexivity. Qed.

(** Scenario A of the design document, the example of [dict_diff]'s
    docstring. *)
Example scenario_a :
  by_insertion (fun _ _ =>
    dict_diff 2 [(str "a", int 1); (str "b", int 2); (str "c", VDict [(str "d", int 1)])]
                [(str "a", int 1); (str "b", int 1); (str "c", VDict [(str "d", int 2)])])
  = ([], Ok [[Key (str "b")]; [Key (str "c"); Key (str "d")]]).
Proof. vm_compute. reflexivity. Qed.

(** C4 at its own input: [list_diff([1, 2, 2], [2, 1])] does not
    return.  The matrix has two rows (one per element of [l2]); the
    third element of [l1] votes for column 0 of row 2, which raises
    [IndexError]. *)
Theorem list_diff_1_2_2_raises
        (key_order : IterOrder scalar) (pair_order : IterOrder index_pair)
        (fuel : nat) :
  _create_similarity_matrix (ints [1; 2; 2]) (ints [2; 1]) = Raise IndexError
  /\ list_diff (S fuel) (ints [1; 2; 2]) (ints [2; 1]) = ([], Raise IndexError).
Proof.
  split; [reflexivity|].
  rewrite list_diff_S.
  replace (match_elements (ints [1; 2; 2]) (ints [2; 1]))
    with (@Raise labels IndexError) by (vm_compute; reflexivity).
  reflexivity.
Qed.

(** ** Scenario B *)


Lemma scenario_b_lists (key_order : IterOrder scalar)
      (pair_order : IterOrder index_pair) (fuel : nat) :
  exists paths,
    list_diff (S fuel) (ints [1; 2; 3; 5]) (ints [1; 2; 4; 5]) = ([], Ok paths)
    /\ (paths = [[IndexPair (None, Some 2%nat)]; [IndexPair (Some 2%nat, None)]]
        \/ paths = [[IndexPair (Some 2%nat, None)]; [IndexPair (None, Some 2%nat)]]).
Proof.
  destruct (match_elements (ints [1; 2; 3; 5]) (ints [1; 2; 4; 5])) as [st| |] eqn:E;
    vm_compute in E; try discriminate.
  inversion E as [Est]; clear E.
  erewrite list_diff_no_recursion; [| |].
  2:{ vm_compute. rewrite Est. reflexivity. }
  2:{ rewrite <- Est. reflexivity. }
  rewrite <- Est. simpl mismatch_set.
  destruct (iter_set_pair (O := pair_order) (None, Some 2%nat) (Some 2%nat, None)) as [-> | ->];
    eexists; (split; [reflexivity|]); [left | right]; reflexivity.
Qed.

Lemma scenario_b_unfold (key_order : IterOrder scalar)
      (pair_order : IterOrder index_pair) (fuel : nat) :
  dict_diff (S fuel) scenario_b_left scenario_b_right
  = bind (list_diff fuel (ints [1; 2; 3; 5]) (ints [1; 2; 4; 5]))
         (fun tmp => ret (append_under (Key (str "a")) [] tmp)).
Proof.
  assert (Hc : classify_keys scenario_b_left scenario_b_right
               = mk_classes [] [str "a"] []).
  { unfold classify_keys, scenario_b_left, scenario_b_right.
    rewrite key_union_same_key, iter_set_singleton. reflexivity. }
  rewrite dict_diff_S. unfold dict_diff_body. rewrite Hc.
  cbn [dict_keys_to_recurse list_keys_to_recurse return_values
       recurse_dict_keys recurse_list_keys].
  rewrite bind_ret. unfold call_list_diff.
  replace (dict_item scenario_b_left (str "a"))
    with (Ok (VList (ints [1; 2; 3; 5]))) by reflexivity.
  replace (dict_item scenario_b_right (str "a"))
    with (Ok (VList (ints [1; 2; 4; 5]))) by reflexivity.
  rewrite !bind_lift_ok. cbn [as_list]. rewrite !bind_lift_ok. reflexivity.
Qed.

Lemma scenario_b_paths (key_order : IterOrder scalar)
      (pair_order : IterOrder index_pair) (fuel : nat) :
  exists paths,
    dict_diff (S (S fuel)) scenario_b_left scenario_b_right = ([], Ok paths)
    /\ (paths = [[Key (str "a"); IndexPair (None, Some 2%nat)];
                 [Key (str "a"); IndexPair (Some 2%nat, None)]]
        \/ paths = [[Key (str "a"); IndexPair (Some 2%nat, None)];
                    [Key (str "a"); IndexPair (None, Some 2%nat)]]).
Proof.
  rewrite scenario_b_unfold.
  destruct (scenario_b_lists key_order pair_order fuel) as (paths & -> & Hp).
  rewrite bind_ok. unfold ret, append_under.
  destruct Hp as [-> | ->]; eexists; (split; [reflexivity|]); [left | right]; reflexivity.
Qed.

(** C5, as the design document states it, fails: whatever the order in
    which the sets are visited and however deep the recursion may go,
    the diff of scenario B never consists of a single path. *)
Lemma scenario_b_is_not_one_path :
  ~ (exists (key_order : IterOrder scalar) (pair_order : IterOrder index_pair)
            (fuel : nat) (p : path),
        result (dict_diff fuel scenario_b_left scenario_b_right) = Ok [p]).
Proof.
  intros (ko & po & fuel & p & H).
  destruct fuel as [|[|fuel]]; [discriminate H | |].
  { rewrite scenario_b_unfold in H. discriminate H. }
  destruct (scenario_b_paths ko po fuel) as (paths & E & Hp).
  rewrite E in H. unfold result in H. simpl in H.
  destruct Hp as [-> | ->]; discriminate H.
Qed.

(** C5 (amended): [dict_diff({'a': [1,2,3,5]}, {'a': [1,2,4,5]})] prints
    nothing and returns exactly two paths, one per side: [Key a]
    followed by the left-only pair of index 2 (the unmatched 3), and
    [Key a] followed by the right-only pair of index 2 (the unmatched
    4). *)
Theorem scenario_b_two_one_sided_paths
        (key_order : IterOrder scalar) (pair_order : IterOrder index_pair)
        (fuel : nat) :
  exists paths,
    dict_diff (S (S fuel)) scenario_b_left scenario_b_right = ([], Ok paths)
    /\ Permutation paths
         [[Key (str "a"); IndexPair (Some 2%nat, None)];
          [Key (str "a"); IndexPair (None, Some 2%nat)]].
Proof.
  destruct (scenario_b_paths key_order pair_order fuel) as (paths & E & Hp).
  exists paths. split; [exact E|].
  destruct Hp as [-> | ->]; [apply perm_swap | reflexivity].
Qed.

(** ** The recursion loop *)

Lemma stdout_bind {A B} (m : io A) (f : A -> io B) :
  stdout (bind m f)
  = stdout m ++ match result m with Ok a => stdout (f a) | _ => [] end.
Proof.
  unfold stdout, result, bind. destruct m as [w [a|e|]]; simpl;
    rewrite ?app_nil_r; reflexivity.
Qed.

Lemma result_bind {A B} (m : io A) (f : A -> io B) :
  result (bind m f)
  = match result m with
    | Ok a => result (f a)
    | Raise e => Raise e
    | OutOfFuel => OutOfFuel
    end.
Proof. unfold result, bind. destruct m as [w [a|e|]]; reflexivity. Qed.

Lemma both_have_type_cases (is_t : value -> bool) (l1 l2 : list value)
      (i j : nat) (x y : value) :
  nth_error l1 i = Some x -> nth_error l2 j = Some y ->
  both_have_type is_t l1 i l2 j = Ok (is_t x && is_t y).
Proof.
  intros Hx Hy. unfold both_have_type, index. rewrite Hx. simpl.
  destruct (is_t x); [rewrite Hy|]; reflexivity.
Qed.

Section LoopFacts.
Context {key_order : IterOrder scalar} {pair_order : IterOrder index_pair}.

(** The [else] branch of the recursion loop, for a queue whose first
    pair names neither two mappings nor two sequences: one line is
    printed and the loop goes on with the rest of the queue. *)
Lemma recursion_loop_fallback (fuel : nat) (l1 l2 : list value) (i j : nat)
      (rest : list (nat * nat)) (acc : list path) (x y : value) :
  nth_error l1 i = Some x -> nth_error l2 j = Some y ->
  is_dict x && is_dict y = false -> is_list x && is_list y = false ->
  recursion_loop fuel l1 l2 ((i, j) :: rest) acc
  = bind (print unreachable_message) (fun _ => recursion_loop fuel l1 l2 rest acc).
Proof.
  intros Hx Hy Hd Hl. unfold recursion_loop. cbn [run_recursions].
  rewrite (both_have_type_cases is_dict _ _ _ _ _ _ Hx Hy), Hd, bind_lift_ok.
  rewrite (both_have_type_cases is_list _ _ _ _ _ _ Hx Hy), Hl, bind_lift_ok.
  reflexivity.
Qed.
End LoopFacts.

(** ** The queue holds containers of one shape *)

Lemma label_step_queue (l1 l2 : list value) (st st' : labels) (elem : entry) :
  label_step l1 l2 st elem = Ok st' ->
  Forall (fun p => same_container l1 l2 p = true) (to_recurse st) ->
  Forall (fun p => same_container l1 l2 p = true) (to_recurse st').
Proof.
  unfold label_step. intros H F.
  destruct (_ && _).
  - unfold both_have_type, index in H.
    destruct (nth_error l1 (row_of elem)) as [x|] eqn:Ex; simpl in H; [|discriminate].
    assert (Hq : forall b,
               b = true -> same_container l1 l2 (row_of elem, col_of elem) = true ->
               Forall (fun p => same_container l1 l2 p = true)
                      (if b then to_recurse st ++ [(row_of elem, col_of elem)]
                       else to_recurse st)).
    { intros b -> Hs. apply Forall_app. split; [assumption|]. constructor; auto. }
    destruct (is_dict x) eqn:Dx.
    + destruct (nth_error l2 (col_of elem)) as [y|] eqn:Ey; simpl in H; [|discriminate].
      destruct (is_dict y) eqn:Dy.
      * inversion H; subst. simpl. apply (Hq true); [reflexivity|].
        unfold same_container. simpl. rewrite Ex, Ey, Dx, Dy. reflexivity.
      * destruct x; simpl in Dx; try discriminate. simpl in H.
        inversion H; subst. simpl. assumption.
    + simpl in H. destruct (is_list x) eqn:Lx.
      * destruct (nth_error l2 (col_of elem)) as [y|] eqn:Ey; simpl in H; [|discriminate].
        inversion H; subst. simpl. destruct (is_list y) eqn:Ly; [|assumption].
        apply (Hq true); [reflexivity|].
        unfold same_container. simpl. rewrite Ex, Ey, Dx, Lx, Ly. reflexivity.
      * simpl in H. inversion H; subst. simpl. assumption.
  - destruct (score elem =? 0).
    + inversion H; subst. unfold mark_right, mark_left.
      destruct (negb _); destruct (negb _); simpl; assumption.
    + inversion H; subst. assumption.
Qed.

Lemma label_all_queue (l1 l2 : list value) (sl : list entry) (st st' : labels) :
  label_all l1 l2 sl st = Ok st' ->
  Forall (fun p => same_container l1 l2 p = true) (to_recurse st) ->
  Forall (fun p => same_container l1 l2 p = true) (to_recurse st').
Proof.
  revert st. induction sl as [|e sl IH]; intros st H F; simpl in H.
  - inversion H; subst. assumption.
  - destruct (label_step l1 l2 st e) as [st1| |] eqn:E; simpl in H; try discriminate.
    eapply IH; [exact H|]. eapply label_step_queue; eauto.
Qed.

Lemma match_elements_queue (l1 l2 : list value) (st : labels) :
  match_elements l1 l2 = Ok st ->
  Forall (fun p => same_container l1 l2 p = true) (to_recurse st).
Proof.
  unfold match_elements. intros H.
  destruct (_create_similarity_matrix l1 l2) as [m| |]; simpl in H; try discriminate.
  destruct (label_all l1 l2 (_sort_similarity_matrix m) no_labels) as [st1| |] eqn:E;
    simpl in H; try discriminate.
  inversion H; subst. simpl.
  eapply label_all_queue; [exact E | constructor].
Qed.

Lemma stdout_bind_silent {A B} (m : io A) (f : A -> io B) :
  stdout m = [] -> (forall a, stdout (f a) = []) -> stdout (bind m f) = [].
Proof.
  intros Hm Hf. rewrite stdout_bind, Hm. destruct (result m); simpl; auto.
Qed.

Lemma stdout_lift {A} (m : outcome A) : stdout (lift m) = [].
Proof. reflexivity. Qed.

#[local] Hint Resolve stdout_lift : core.

Section Silence.
Variable dict_diff_rec : dict -> dict -> io (list path).
Variable list_diff_rec : list value -> list value -> io (list path).
Hypothesis dict_diff_silent : forall d1 d2, stdout (dict_diff_rec d1 d2) = [].
Hypothesis list_diff_silent : forall l1 l2, stdout (list_diff_rec l1 l2) = [].

Lemma call_dict_diff_silent (a b : outcome value) :
  stdout (call_dict_diff dict_diff_rec a b) = [].
Proof.
  unfold call_dict_diff. repeat (apply stdout_bind_silent; [apply stdout_lift | intros ?]).
  apply dict_diff_silent.
Qed.

Lemma call_list_diff_silent (a b : outcome value) :
  stdout (call_list_diff list_diff_rec a b) = [].
Proof.
  unfold call_list_diff. repeat (apply stdout_bind_silent; [apply stdout_lift | intros ?]).
  apply list_diff_silent.
Qed.

Lemma run_recursions_silent (l1 l2 : list value) (queue : list (nat * nat))
      (acc : list path) :
  Forall (fun p => same_container l1 l2 p = true) queue ->
  stdout (run_recursions dict_diff_rec list_diff_rec l1 l2 queue acc) = [].
Proof.
  intros F. revert acc. induction F as [|[i j] queue Hp F IH]; intros acc.
  - reflexivity.
  - cbn [run_recursions]. unfold same_container in Hp. simpl in Hp.
    destruct (nth_error l1 i) as [x|] eqn:Ex; [|discriminate].
    destruct (nth_error l2 j) as [y|] eqn:Ey; [|discriminate].
    rewrite (both_have_type_cases is_dict _ _ _ _ _ _ Ex Ey), bind_lift_ok.
    destruct (is_dict x && is_dict y) eqn:D.
    + apply stdout_bind_silent; [apply call_dict_diff_silent | intros; apply IH].
    + rewrite (both_have_type_cases is_list _ _ _ _ _ _ Ex Ey), bind_lift_ok.
      simpl in Hp. rewrite Hp.
      apply stdout_bind_silent; [apply call_list_diff_silent | intros; apply IH].
Qed.

Lemma recurse_dict_keys_silent (d1 d2 : dict) (ks : list scalar) (acc : list path) :
  stdout (recurse_dict_keys dict_diff_rec d1 d2 ks acc) = [].
Proof.
  revert acc. induction ks as [|k ks IH]; intros acc; [reflexivity|].
  cbn [recurse_dict_keys].
  apply stdout_bind_silent; [apply call_dict_diff_silent | intros; apply IH].
Qed.

Lemma recurse_list_keys_silent (d1 d2 : dict) (ks : list scalar) (acc : list path) :
  stdout (recurse_list_keys list_diff_rec d1 d2 ks acc) = [].
Proof.
  revert acc. induction ks as [|k ks IH]; intros acc; [reflexivity|].
  cbn [recurse_list_keys].
  apply stdout_bind_silent; [apply call_list_diff_silent | intros; apply IH].
Qed.
End Silence.

Section Unreachable.
Context {key_order : IterOrder scalar} {pair_order : IterOrder index_pair}.

Lemma differs_silent (fuel : nat) :
  (forall l1 l2, stdout (list_diff fuel l1 l2) = [])
  /\ (forall d1 d2, stdout (dict_diff fuel d1 d2) = []).
Proof.
  induction fuel as [|fuel [IHl IHd]]; [split; reflexivity|].
  split.
  - intros l1 l2. rewrite list_diff_S.
    destruct (match_elements l1 l2) as [st| |] eqn:E; try reflexivity.
    rewrite bind_lift_ok. apply run_recursions_silent; auto.
    apply match_elements_queue. exact E.
  - intros d1 d2. rewrite dict_diff_S. unfold dict_diff_body.
    apply stdout_bind_silent.
    + apply recurse_dict_keys_silent; auto.
    + intros acc. apply recurse_list_keys_silent; auto.
Qed.
End Unreachable.

(** C10: whatever part of a similarity list has been consumed, every
    pair in the recursion queue names two mappings or two sequences;
    so no call of [list_diff] or [dict_diff], however deep, prints the
    line of the fallback branch. *)
Theorem fallback_branch_unreachable
        (key_order : IterOrder scalar) (pair_order : IterOrder index_pair)
        (fuel : nat) (l1 l2 : list value) :
  (forall (sl : list entry) (st : labels),
      label_all l1 l2 sl no_labels = Ok st ->
      Forall (fun p => same_container l1 l2 p = true) (to_recurse st))
  /\ stdout (list_diff fuel l1 l2) = []
  /\ (forall d1 d2, stdout (dict_diff fuel d1 d2) = []).
Proof.
  split.
  - intros sl st H. eapply label_all_queue; [exact H | constructor].
  - split; [apply differs_silent | apply differs_silent].
Qed.

(** ** An empty list against any list *)

Lemma index_pair_eqb_eq (p q : index_pair) : index_pair_eqb p q = true <-> p = q.
Proof.
  destruct p as [[a|] [b|]], q as [[c|] [d|]]; unfold index_pair_eqb; simpl;
    rewrite ?andb_true_iff, ?Nat.eqb_eq;
    split; intros H; try (destruct H; subst; reflexivity);
    try (inversion H; subst; auto); try discriminate; try (destruct H; discriminate).
Qed.

Lemma set_add_fresh {A} (eqb : A -> A -> bool) (s : list A) (x : A) :
  (forall y, In y s -> eqb x y = false) -> set_add eqb s x = s ++ [x].
Proof.
  intros H. unfold set_add, set_mem.
  replace (existsb (eqb x) s) with false; [reflexivity|].
  symmetry. apply not_true_is_false. intros E.
  apply existsb_exists in E. destruct E as (y & Hy & E).
  rewrite (H y Hy) in E. discriminate.
Qed.

Lemma stragglers_none_labelled (mk : nat -> index_pair) (n a : nat)
      (ms : list index_pair) :
  (forall i i', mk i = mk i' -> i = i') ->
  (forall i, (a <= i)%nat -> ~ In (mk i) ms) ->
  fold_left
    (fun ms i => if set_mem Nat.eqb i [] then ms else set_add index_pair_eqb ms (mk i))
    (seq a n) ms
  = ms ++ map mk (seq a n).
Proof.
  intros Hinj. revert a ms. induction n as [|n IH]; intros a ms Hfresh; simpl.
  - rewrite app_nil_r. reflexivity.
  - rewrite set_add_fresh.
    + rewrite IH.
      * rewrite <- app_assoc. reflexivity.
      * intros i Hi Hin. apply in_app_or in Hin. destruct Hin as [Hin | [Heq | []]].
        -- apply (Hfresh i); [lia | exact Hin].
        -- apply Hinj in Heq. lia.
    + intros y Hy. apply not_true_is_false. intros E.
      apply index_pair_eqb_eq in E. subst. apply (Hfresh a); [lia | exact Hy].
Qed.

Lemma stragglers_unlabelled (mk : nat -> index_pair) (n : nat) :
  (forall i i', mk i = mk i' -> i = i') ->
  stragglers mk n [] [] = map mk (seq 0 n).
Proof.
  intros Hinj. unfold stragglers.
  rewrite stragglers_none_labelled; [reflexivity | exact Hinj | intros i _ []].
Qed.

Lemma label_stragglers_no_labels (l1 l2 : list value) :
  (l1 = [] \/ l2 = []) ->
  label_stragglers l1 l2 no_labels
  = mk_labels [] [] [] []
      (map (fun i => (Some i, None)) (seq 0 (length l1))
       ++ map (fun j => (None, Some j)) (seq 0 (length l2))) [].
Proof.
  intros H. unfold label_stragglers, no_labels.
  cbn [seen_l1_indices seen_l2_indices mismatch_l1_indices mismatch_l2_indices
       mismatch_set to_recurse set_add_all fold_left].
  f_equal. destruct H as [-> | ->].
  - cbn [length seq map app]. unfold stragglers at 2. cbn [seq fold_left].
    apply stragglers_unlabelled. congruence.
  - cbn [length seq map]. rewrite app_nil_r. unfold stragglers at 1. cbn [seq fold_left].
    apply stragglers_unlabelled. congruence.
Qed.

Lemma flatten_empty_rows (r n : nat) : flatten_from r (repeat [] n) = [].
Proof.
  revert r. induction n as [|n IH]; intros r; simpl; [reflexivity | apply IH].
Qed.

Lemma votes_empty_tables (x : value) : votes empty_tables x = [].
Proof.
  destruct x as [a|items|xs]; simpl; try reflexivity.
  induction items as [|[k v] items IH]; simpl; [reflexivity|].
  rewrite IH. unfold item_votes. simpl. destruct v; reflexivity.
Qed.

Lemma ballots_empty_tables (i : nat) (l1 : list value) : ballots empty_tables i l1 = [].
Proof.
  revert i. induction l1 as [|x l1 IH]; intros i; simpl; [reflexivity|].
  rewrite votes_empty_tables, IH. reflexivity.
Qed.

Lemma match_elements_left_empty (l2 : list value) :
  match_elements [] l2
  = Ok (mk_labels [] [] [] []
                  (map (fun j => (None, Some j)) (seq 0 (length l2))) []).
Proof.
  unfold match_elements, _create_similarity_matrix, _sort_similarity_matrix, flatten, zeros.
  cbn [score_from obind length]. rewrite flatten_empty_rows.
  replace (_sort_similarity_list []) with (@nil entry) by reflexivity.
  cbn [label_all obind]. rewrite label_stragglers_no_labels by (left; reflexivity).
  reflexivity.
Qed.

Lemma match_elements_right_empty (l1 : list value) :
  match_elements l1 []
  = Ok (mk_labels [] [] [] []
                  (map (fun i => (Some i, None)) (seq 0 (length l1))) []).
Proof.
  unfold match_elements, _create_similarity_matrix.
  rewrite score_from_pairs. cbn [parse_from]. rewrite ballots_empty_tables.
  cbn [incr_pairs obind length zeros repeat].
  replace (_sort_similarity_matrix []) with (@nil entry) by reflexivity.
  cbn [label_all obind]. rewrite label_stragglers_no_labels by (right; reflexivity).
  cbn [length seq map]. rewrite app_nil_r. reflexivity.
Qed.

(** C9: against the empty sequence, a non-empty sequence is reported
    element by element: the matching phase claims no index and queues
    nothing, and the diff consists of one one-sided path per element,
    on the right when the empty sequence is the left argument and on
    the left when it is the right argument. *)
Theorem empty_against_nonempty
        (key_order : IterOrder scalar) (pair_order : IterOrder index_pair)
        (fuel : nat) (x : value) (rest : list value) :
  (exists st paths,
      match_elements [] (x :: rest) = Ok st
      /\ seen_l1_indices st = [] /\ seen_l2_indices st = [] /\ to_recurse st = []
      /\ list_diff (S fuel) [] (x :: rest) = ([], Ok paths)
      /\ Permutation paths
           (map (fun j => [IndexPair (None, Some j)]) (seq 0 (length (x :: rest)))))
  /\
  (exists st paths,
      match_elements (x :: rest) [] = Ok st
      /\ seen_l1_indices st = [] /\ seen_l2_indices st = [] /\ to_recurse st = []
      /\ list_diff (S fuel) (x :: rest) [] = ([], Ok paths)
      /\ Permutation paths
           (map (fun i => [IndexPair (Some i, None)]) (seq 0 (length (x :: rest))))).
Proof.
  split.
  - eexists. eexists. split; [apply match_elements_left_empty|].
    repeat (split; [reflexivity|]). split.
    + erewrite list_diff_no_recursion;
        [reflexivity | apply match_elements_left_empty | reflexivity].
    + cbn [mismatch_set].
      rewrite <- (map_map (fun j => (None, Some j)) (fun e => [IndexPair e])).
      apply Permutation_map. apply iter_set_perm.
  - eexists. eexists. split; [apply match_elements_right_empty|].
    repeat (split; [reflexivity|]). split.
    + erewrite list_diff_no_recursion;
        [reflexivity | apply match_elements_right_empty | reflexivity].
    + cbn [mismatch_set].
      rewrite <- (map_map (fun i => (Some i, None)) (fun e => [IndexPair e])).
      apply Permutation_map. apply iter_set_perm.
Qed.

(** ** Absent keys in [dict_diff] *)

Lemma dict_lookup_congr (d : dict) (k k' : scalar) :
  scalar_eqb k' k = true -> dict_lookup d k' = dict_lookup d k.
Proof.
  intros H. induction d as [|[k0 v] d IH]; simpl; [reflexivity|].
  rewrite (eqb_congr scalar_eqb scalar_eqb_sym scalar_eqb_trans k' k k0 H), IH.
  reflexivity.
Qed.

Lemma dict_get_congr (d : dict) (k k' : scalar) :
  scalar_eqb k' k = true -> dict_get d k' = dict_get d k.
Proof. intros H. unfold dict_get. rewrite (dict_lookup_congr d k k' H). reflexivity. Qed.

(** A mapping without [k] reads at every key like the same mapping with
    [k] set to [None]. *)
Lemma dict_get_absent (d : dict) (k k' : scalar) :
  dict_lookup d k = None ->
  dict_get (d ++ [(k, VScalar SNone)]) k' = dict_get d k'.
Proof.
  intros H. unfold dict_get.
  assert (E : dict_lookup (d ++ [(k, VScalar SNone)]) k'
              = match dict_lookup d k' with
                | Some v => Some v
                | None => if scalar_eqb k k' then Some (VScalar SNone) else None
                end).
  { clear H. induction d as [|[k0 v] d IH]; simpl; [reflexivity|].
    destruct (scalar_eqb k0 k'); [reflexivity | exact IH]. }
  rewrite E. destruct (dict_lookup d k') as [v|]; [reflexivity|].
  destruct (scalar_eqb k k'); reflexivity.
Qed.

Lemma classify_key_cases (d1 d2 : dict) (cl : key_classes) (k : scalar) :
  let cl' := classify_key d1 d2 cl k in
  (forall k0, In k0 (dict_keys_to_recurse cl') ->
              In k0 (dict_keys_to_recurse cl)
              \/ (k0 = k /\ is_dict (dict_get d1 k) && is_dict (dict_get d2 k) = true))
  /\ (forall k0, In k0 (list_keys_to_recurse cl') ->
                 In k0 (list_keys_to_recurse cl)
                 \/ (k0 = k /\ is_list (dict_get d1 k) && is_list (dict_get d2 k) = true))
  /\ (forall p, In p (return_values cl') ->
                In p (return_values cl)
                \/ (p = [Key k]
                    /\ is_dict (dict_get d1 k) && is_dict (dict_get d2 k) = false
                    /\ is_list (dict_get d1 k) && is_list (dict_get d2 k) = false
                    /\ value_eqb (dict_get d1 k) (dict_get d2 k) = false)).
Proof.
  unfold classify_key.
  destruct (is_dict (dict_get d1 k) && is_dict (dict_get d2 k)) eqn:D; simpl.
  { repeat split; auto. intros k0 H. apply in_app_or in H.
    destruct H as [H | [H | []]]; auto. }
  destruct (is_list (dict_get d1 k) && is_list (dict_get d2 k)) eqn:L; simpl.
  { repeat split; auto. intros k0 H. apply in_app_or in H.
    destruct H as [H | [H | []]]; auto. }
  destruct (value_eqb (dict_get d1 k) (dict_get d2 k)) eqn:V; simpl.
  { repeat split; auto. }
  repeat split; auto. intros p H. apply in_app_or in H.
  destruct H as [H | [H | []]]; auto.
Qed.

Lemma classify_fold_cases (d1 d2 : dict) (ks : list scalar) (cl : key_classes) :
  let cl' := fold_left (classify_key d1 d2) ks cl in
  (forall k0, In k0 (dict_keys_to_recurse cl') ->
              In k0 (dict_keys_to_recurse cl)
              \/ is_dict (dict_get d1 k0) && is_dict (dict_get d2 k0) = true)
  /\ (forall k0, In k0 (list_keys_to_recurse cl') ->
                 In k0 (list_keys_to_recurse cl)
                 \/ is_list (dict_get d1 k0) && is_list (dict_get d2 k0) = true)
  /\ (forall p, In p (return_values cl') ->
                In p (return_values cl)
                \/ exists k0, p = [Key k0]
                   /\ value_eqb (dict_get d1 k0) (dict_get d2 k0) = false).
Proof.
  revert cl. induction ks as [|k ks IH]; intros cl; simpl.
  - repeat split; auto.
  - destruct (IH (classify_key d1 d2 cl k)) as (A & B & C).
    destruct (classify_key_cases d1 d2 cl k) as (A' & B' & C').
    repeat split.
    + intros k0 H. destruct (A k0 H) as [H1 | H1]; auto.
      destruct (A' k0 H1) as [H2 | [-> H2]]; auto.
    + intros k0 H. destruct (B k0 H) as [H1 | H1]; auto.
      destruct (B' k0 H1) as [H2 | [-> H2]]; auto.
    + intros p H. destruct (C p H) as [H1 | H1]; auto.
      destruct (C' p H1) as [H2 | (-> & _ & _ & H2)]; eauto.
Qed.

Lemma result_bind_ok {A B} (m : io A) (f : A -> io B) (b : B) :
  result (bind m f) = Ok b -> exists a, result m = Ok a /\ result (f a) = Ok b.
Proof.
  rewrite result_bind. destruct (result m) as [a| |]; try discriminate. eauto.
Qed.

Section KeyLoops.
Variable dict_diff_rec : dict -> dict -> io (list path).
Variable list_diff_rec : list value -> list value -> io (list path).

Lemma recurse_dict_keys_paths (d1 d2 : dict) (ks : list scalar) (acc paths : list path) :
  result (recurse_dict_keys dict_diff_rec d1 d2 ks acc) = Ok paths ->
  forall p, In p paths ->
            In p acc \/ exists k q, In k ks /\ p = Key k :: q.
Proof.
  revert acc. induction ks as [|k ks IH]; intros acc H p Hp.
  - inversion H; subst. auto.
  - cbn [recurse_dict_keys] in H. apply result_bind_ok in H.
    destruct H as (tmp & _ & H).
    destruct (IH _ H p Hp) as [Hin | (k0 & q & Hk & ->)].
    + unfold append_under in Hin. apply in_app_or in Hin.
      destruct Hin as [Hin | Hin]; auto.
      apply in_map_iff in Hin. destruct Hin as (q & <- & _).
      right. exists k, q. split; [left; reflexivity | reflexivity].
    + right. exists k0, q. split; [right; assumption | reflexivity].
Qed.

Lemma recurse_list_keys_paths (d1 d2 : dict) (ks : list scalar) (acc paths : list path) :
  result (recurse_list_keys list_diff_rec d1 d2 ks acc) = Ok paths ->
  forall p, In p paths ->
            In p acc \/ exists k q, In k ks /\ p = Key k :: q.
Proof.
  revert acc. induction ks as [|k ks IH]; intros acc H p Hp.
  - inversion H; subst. auto.
  - cbn [recurse_list_keys] in H. apply result_bind_ok in H.
    destruct H as (tmp & _ & H).
    destruct (IH _ H p Hp) as [Hin | (k0 & q & Hk & ->)].
    + unfold append_under in Hin. apply in_app_or in Hin.
      destruct Hin as [Hin | Hin]; auto.
      apply in_map_iff in Hin. destruct Hin as (q & <- & _).
      right. exists k, q. split; [left; reflexivity | reflexivity].
    + right. exists k0, q. split; [right; assumption | reflexivity].
Qed.
End KeyLoops.

Section AbsentKeys.
Context {key_order : IterOrder scalar} {pair_order : IterOrder index_pair}.

(** Every path that [dict_diff] returns starts with a key on which the
    two mappings differ: both hold a mapping, both hold a sequence, or
    the two values are unequal. *)
Lemma dict_diff_heads (fuel : nat) (d1 d2 : dict) (paths : list path) (p : path) :
  result (dict_diff fuel d1 d2) = Ok paths -> In p paths ->
  exists k q,
    p = Key k :: q
    /\ (is_dict (dict_get d1 k) && is_dict (dict_get d2 k) = true
        \/ is_list (dict_get d1 k) && is_list (dict_get d2 k) = true
        \/ value_eqb (dict_get d1 k) (dict_get d2 k) = false).
Proof.
  destruct fuel as [|fuel]; [discriminate|].
  rewrite dict_diff_S. unfold dict_diff_body. intros H Hp.
  apply result_bind_ok in H. destruct H as (acc & H1 & H2).
  destruct (classify_fold_cases d1 d2 (iter_set (key_union d1 d2)) (mk_classes [] [] []))
    as (A & B & C).
  fold (classify_keys d1 d2) in A, B, C. simpl in A, B, C.
  assert (Hacc : forall p', In p' acc ->
            exists k q, p' = Key k :: q
              /\ (is_dict (dict_get d1 k) && is_dict (dict_get d2 k) = true
                  \/ is_list (dict_get d1 k) && is_list (dict_get d2 k) = true
                  \/ value_eqb (dict_get d1 k) (dict_get d2 k) = false)).
  { intros p' Hp'.
    destruct (recurse_dict_keys_paths _ _ _ _ _ _ H1 p' Hp') as [Hin | (k & q & Hk & ->)].
    - destruct (C p' Hin) as [[] | (k & -> & Hv)]. exists k, []. auto.
    - destruct (A k Hk) as [[] | Hd]. exists k, q. auto. }
  destruct (recurse_list_keys_paths _ _ _ _ _ _ H2 p Hp) as [Hin | (k & q & Hk & ->)].
  - apply Hacc. exact Hin.
  - destruct (B k Hk) as [[] | Hl]. exists k, q. auto.
Qed.

Lemma dict_diff_empty_against_none (fuel : nat) (k : scalar) :
  dict_diff (S fuel) [] [(k, VScalar SNone)] = ([], Ok [])
  /\ dict_diff (S fuel) [(k, VScalar SNone)] [] = ([], Ok []).
Proof.
  assert (K1 : key_union [] [(k, VScalar SNone)] = [k]).
  { unfold key_union. cbv [set_add_all set_add set_mem fold_left existsb app map fst].
    rewrite iter_set_nil, iter_set_singleton. reflexivity. }
  assert (K2 : key_union [(k, VScalar SNone)] [] = [k]).
  { unfold key_union. cbv [set_add_all set_add set_mem fold_left existsb app map fst].
    rewrite iter_set_nil, iter_set_singleton. reflexivity. }
  split; rewrite dict_diff_S; unfold dict_diff_body, classify_keys;
    rewrite ?K1, ?K2, iter_set_singleton; cbn [fold_left]; unfold classify_key, dict_get;
    cbn [dict_lookup]; rewrite ?scalar_eqb_refl; reflexivity.
Qed.
End AbsentKeys.

(** ** Bounds on the similarity of two elements *)

Lemma diffable_dict (items : dict) :
  diffable (VDict items) = true <->
  distinct_keys items = true /\ Forall (fun kv => diffable (snd kv) = true) items.
Proof.
  cbn [diffable]. rewrite andb_true_iff.
  assert (E : forall l : dict,
             (fix all_items (items : list (scalar * value)) : bool :=
                match items with
                | [] => true
                | kv :: rest => diffable (snd kv) && all_items rest
                end) l = true
             <-> Forall (fun kv => diffable (snd kv) = true) l).
  { induction l as [|kv l IH]; [split; auto|].
    rewrite andb_true_iff, IH. split.
    - intros [H1 H2]. constructor; assumption.
    - intros H. inversion H; subst. split; assumption. }
  rewrite E. reflexivity.
Qed.

Lemma diffable_list (xs : list value) :
  diffable (VList xs) = true <->
  Forall (fun x => is_empty_dict x = false /\ diffable x = true) xs.
Proof.
  cbn [diffable]. induction xs as [|x xs IH]; [split; auto|].
  rewrite !andb_true_iff, negb_true_iff, IH. split.
  - intros [[H1 H2] H3]. constructor; auto.
  - intros H. inversion H as [|? ? [H1 H2] H3]; subst. auto.
Qed.

Lemma depth_list_elem (xs : list value) (x : value) :
  In x xs -> (depth x < depth (VList xs))%nat.
Proof.
  cbn [depth]. induction xs as [|y xs IH]; [intros []|].
  intros [-> | H]; [lia|]. specialize (IH H). lia.
Qed.

Lemma depth_dict_item (items : dict) (k : scalar) (v : value) :
  In (k, v) items -> (depth v < depth (VDict items))%nat.
Proof.
  cbn [depth]. induction items as [|kv items IH]; [intros []|].
  intros [-> | H]; [simpl; lia|]. specialize (IH H). lia.
Qed.

Lemma item_mult_dict (kv : scalar * value) (ys : dict) :
  item_mult kv (VDict ys) = length (filter (items_match kv) ys).
Proof. unfold item_mult, items_match. destruct (snd kv); reflexivity. Qed.

Lemma similarity_dicts (xs ys : dict) :
  similarity (VDict xs) (VDict ys)
  = list_sum (map (fun kv => length (filter (items_match kv) ys)) xs).
Proof.
  simpl. f_equal. apply map_ext. intros kv. apply item_mult_dict.
Qed.

Lemma pair_eqb_refl (a : scalar * scalar) : pair_eqb a a = true.
Proof. unfold pair_eqb. rewrite !scalar_eqb_refl. reflexivity. Qed.

Lemma items_match_refl (kv : scalar * value) : items_match kv kv = true.
Proof.
  destruct kv as [k v]. unfold items_match, complex_item_matches, simple_item_matches.
  destruct v; simpl; rewrite ?scalar_eqb_refl; try reflexivity.
  apply pair_eqb_refl.
Qed.

Lemma items_match_keys (kv kv' : scalar * value) :
  items_match kv kv' = true -> scalar_eqb (fst kv') (fst kv) = true.
Proof.
  destruct kv as [k v], kv' as [k' v'].
  unfold items_match, complex_item_matches, simple_item_matches, pair_eqb.
  destruct v; simpl; rewrite ?andb_true_iff; try tauto.
  destruct v'; simpl; rewrite ?andb_true_iff; try tauto; discriminate.
Qed.

Lemma filter_at_most_one (f : scalar * value -> bool) (k : scalar) (ys : dict) :
  distinct_keys ys = true ->
  (forall kv, f kv = true -> scalar_eqb (fst kv) k = true) ->
  (length (filter f ys) <= 1)%nat.
Proof.
  intros D Hf. induction ys as [|kv ys IH]; simpl; [lia|].
  simpl in D. apply andb_true_iff in D. destruct D as [D1 D2].
  specialize (IH D2). destruct (f kv) eqn:E; [|assumption].
  simpl. enough (filter f ys = []) as -> by (simpl; lia).
  apply negb_true_iff in D1.
  destruct (filter f ys) as [|kv' rest] eqn:F; [reflexivity|].
  assert (Hin : In kv' (filter f ys)) by (rewrite F; left; reflexivity).
  apply filter_In in Hin. destruct Hin as [Hin Hkv'].
  assert (X : existsb (fun kv'0 => scalar_eqb (fst kv'0) (fst kv)) ys = true).
  { apply existsb_exists. exists kv'. split; [assumption|].
    apply scalar_eqb_trans with k; [apply Hf; assumption|].
    rewrite scalar_eqb_sym. apply Hf. assumption. }
  congruence.
Qed.

Lemma filter_at_least_one {A} (f : A -> bool) (l : list A) (a : A) :
  In a l -> f a = true -> (1 <= length (filter f l))%nat.
Proof.
  intros Hin Hf. assert (H : In a (filter f l)) by (apply filter_In; auto).
  destruct (filter f l); [destruct H | simpl; lia].
Qed.

Lemma list_sum_le {A} (f g : A -> nat) (l : list A) :
  (forall a, In a l -> (f a <= g a)%nat) ->
  (list_sum (map f l) <= list_sum (map g l))%nat.
Proof.
  induction l as [|a l IH]; intros H; simpl; [lia|].
  pose proof (H a (or_introl eq_refl)).
  assert (list_sum (map f l) <= list_sum (map g l))%nat
    by (apply IH; intros b Hb; apply H; right; assumption).
  lia.
Qed.

Lemma list_sum_const {A} (l : list A) : list_sum (map (fun _ => 1%nat) l) = length l.
Proof. induction l; simpl; auto. Qed.

(** Counting the matching pairs by rows or by columns. *)
Lemma double_count {A B} (R : A -> B -> bool) (xs : list A) (ys : list B) :
  list_sum (map (fun a => length (filter (R a) ys)) xs)
  = list_sum (map (fun b => length (filter (fun a => R a b) xs)) ys).
Proof.
  induction xs as [|a xs IH]; simpl.
  - induction ys as [|b ys IHy]; simpl; auto.
  - rewrite IH. clear IH. induction ys as [|b ys IHy]; simpl; [reflexivity|].
    destruct (R a b); simpl; lia.
Qed.

Lemma similarity_self_dict (xs : dict) :
  (length xs <= similarity (VDict xs) (VDict xs))%nat.
Proof.
  rewrite similarity_dicts, <- list_sum_const.
  apply list_sum_le. intros kv Hin.
  eapply filter_at_least_one; [exact Hin | apply items_match_refl].
Qed.

Lemma similarity_self_positive (x : value) :
  is_empty_dict x = false -> (0 < similarity x x)%nat.
Proof.
  destruct x as [a|items|xs]; intros H.
  - simpl. rewrite scalar_eqb_refl. lia.
  - pose proof (similarity_self_dict items). destruct items; [discriminate|].
    simpl length in *. lia.
  - simpl. rewrite Nat.eqb_refl. lia.
Qed.

Lemma similarity_le_left (x y : value) :
  diffable y = true -> (similarity x y <= similarity x x)%nat.
Proof.
  intros Dy. destruct x as [a|xs|xs], y as [b|ys|ys];
    try (simpl; lia);
    try (rewrite similarity_cross_shape by (simpl; congruence); lia).
  - simpl. rewrite scalar_eqb_refl. destruct (scalar_eqb b a); lia.
  - apply diffable_dict in Dy. destruct Dy as [Dy _].
    rewrite !similarity_dicts. apply list_sum_le. intros kv Hin.
    transitivity 1%nat.
    + apply (filter_at_most_one _ (fst kv)); [assumption|].
      intros kv'. apply items_match_keys.
    + eapply filter_at_least_one; [exact Hin | apply items_match_refl].
  - simpl. rewrite Nat.eqb_refl. destruct (Nat.eqb _ _); lia.
Qed.

Lemma similarity_le_right (x y : value) :
  diffable x = true -> (similarity x y <= similarity y y)%nat.
Proof.
  intros Dx. destruct x as [a|xs|xs], y as [b|ys|ys];
    try (rewrite similarity_cross_shape by (simpl; congruence); lia).
  - simpl. rewrite scalar_eqb_refl. destruct (scalar_eqb b a); lia.
  - apply diffable_dict in Dx. destruct Dx as [Dx _].
    transitivity (length ys); [|apply similarity_self_dict].
    rewrite similarity_dicts, double_count, <- list_sum_const.
    apply list_sum_le. intros kv' _.
    apply (filter_at_most_one _ (fst kv')); [assumption|].
    intros kv H. apply items_match_keys in H. rewrite scalar_eqb_sym. exact H.
  - simpl. rewrite Nat.eqb_refl. destruct (Nat.eqb _ _); lia.
Qed.

(** ** A list against itself: the matrix and the ranking *)

Lemma ballots_in (T : tables) (l1 : list value) (i0 i j : nat) :
  In (i, j) (ballots T i0 l1) ->
  (i0 <= i < i0 + length l1)%nat
  /\ exists x, nth_error l1 (i - i0) = Some x /\ In j (votes T x).
Proof.
  revert i0. induction l1 as [|x l1 IH]; intros i0; simpl; [intros []|].
  rewrite in_app_iff, in_map_iff. intros [(j' & E & Hj) | H].
  - inversion E; subst. split; [lia|]. rewrite Nat.sub_diag. simpl. eauto.
  - apply IH in H. destruct H as (Hr & x' & Hx & Hj). split; [lia|].
    exists x'. split; [|assumption].
    replace (i - i0)%nat with (S (i - S i0)) by lia. exact Hx.
Qed.

(** Two lists of the same length always get a matrix. *)
Lemma square_matrix_defined (l1 l2 : list value) :
  length l1 = length l2 -> exists m, _create_similarity_matrix l1 l2 = Ok m.
Proof.
  intros Hlen. unfold _create_similarity_matrix. rewrite score_from_pairs.
  apply incr_pairs_defined. apply Forall_forall. intros [i j] Hin. simpl.
  apply ballots_in in Hin. destruct Hin as (Hi & x & _ & Hj).
  apply votes_in_range in Hj. rewrite cell_zeros.
  replace (Nat.ltb i (length l2)) with true by (symmetry; apply Nat.ltb_lt; lia).
  replace (Nat.ltb j (length l1)) with true by (symmetry; apply Nat.ltb_lt; lia).
  discriminate.
Qed.

Lemma rank_entries (m : matrix) (s : Z) (r c : nat) :
  In (s, r, c) (_sort_similarity_matrix m) <-> cell m r c = Some s.
Proof.
  unfold _sort_similarity_matrix. rewrite <- flatten_spec.
  pose proof (sort_perm (flatten m)) as P. split; intros H.
  - eapply Permutation_in; [exact P | exact H].
  - eapply Permutation_in; [symmetry; exact P | exact H].
Qed.

Lemma rank_sorted (m : matrix) : sorted_by ranks_before (_sort_similarity_matrix m).
Proof. apply sort_sorted. apply flatten_from_sorted. Qed.

Lemma set_mem_nat (x : nat) (s : list nat) : set_mem Nat.eqb x s = true <-> In x s.
Proof.
  unfold set_mem. rewrite existsb_exists. split.
  - intros (y & Hy & E). apply Nat.eqb_eq in E. subst. assumption.
  - intros H. exists x. split; [assumption | apply Nat.eqb_refl].
Qed.

Lemma set_add_nat (s : list nat) (x y : nat) :
  In y (set_add Nat.eqb s x) <-> In y s \/ y = x.
Proof.
  unfold set_add. destruct (set_mem Nat.eqb x s) eqn:E.
  - apply set_mem_nat in E. split; [auto|]. intros [H | ->]; assumption.
  - rewrite in_app_iff. simpl. intuition congruence.
Qed.

Lemma stragglers_all_labelled (mk : nat -> index_pair) (n : nat)
      (labelled : list nat) (ms : list index_pair) :
  (forall i, (i < n)%nat -> In i labelled) ->
  stragglers mk n labelled ms = ms.
Proof.
  intros H. unfold stragglers.
  assert (G : forall a k ms',
             (a + k <= n)%nat ->
             fold_left
               (fun ms0 i => if set_mem Nat.eqb i labelled then ms0
                             else set_add index_pair_eqb ms0 (mk i))
               (seq a k) ms' = ms').
  { intros a k. revert a. induction k as [|k IH]; intros a ms' Hle; simpl; [reflexivity|].
    replace (set_mem Nat.eqb a labelled) with true
      by (symmetry; apply set_mem_nat; apply H; lia).
    apply IH. lia. }
  apply G. lia.
Qed.

Section SelfMatch.
Variable l : list value.
Variable m : matrix.
Hypothesis matrix_of_l : _create_similarity_matrix l l = Ok m.
Hypothesis elements_ok :
  Forall (fun x => is_empty_dict x = false /\ diffable x = true) l.

Lemma self_cell (i j : nat) (x y : value) :
  nth_error l i = Some x -> nth_error l j = Some y ->
  cell m i j = Some (Z.of_nat (similarity x y)).
Proof.
  intros Hx Hy.
  destruct (cell m i j) as [s|] eqn:E.
  - f_equal. eapply matrix_cell_similarity; eauto.
  - exfalso. revert E. apply (matrix_shape l l m i j matrix_of_l).
    split; apply nth_error_Some; congruence.
Qed.

Lemma self_entry (e : entry) :
  In e (_sort_similarity_matrix m) ->
  exists x y,
    nth_error l (row_of e) = Some x /\ nth_error l (col_of e) = Some y
    /\ score e = Z.of_nat (similarity x y).
Proof.
  destruct e as [[s r] c]. unfold row_of, col_of, score. simpl. intros H.
  apply rank_entries in H.
  assert (Hn : cell m r c <> None) by congruence.
  apply (matrix_shape l l m r c matrix_of_l) in Hn. destruct Hn as [Hr Hc].
  destruct (nth_error l r) as [x|] eqn:Ex; [|apply nth_error_None in Ex; lia].
  destruct (nth_error l c) as [y|] eqn:Ey; [|apply nth_error_None in Ey; lia].
  exists x, y. repeat split.
  rewrite (self_cell r c x y Ex Ey) in H. congruence.
Qed.

Lemma self_diagonal (i : nat) (x : value) :
  nth_error l i = Some x ->
  In (Z.of_nat (similarity x x), i, i) (_sort_similarity_matrix m)
  /\ 0 < Z.of_nat (similarity x x)
  /\ diffable x = true.
Proof.
  intros Hx. split; [apply rank_entries, self_cell; assumption|].
  rewrite Forall_forall in elements_ok.
  destruct (elements_ok x (nth_error_In _ _ Hx)) as [He Hd].
  split; [|assumption].
  pose proof (similarity_self_positive x He). lia.
Qed.

Lemma entry_unique (s s' : Z) (r c : nat) :
  In (s, r, c) (_sort_similarity_matrix m) ->
  In (s', r, c) (_sort_similarity_matrix m) -> s = s'.
Proof. rewrite !rank_entries. congruence. Qed.

(** One entry of the ranked list, processed in a diagonal state. *)
Lemma label_step_diagonal (pre post : list entry) (e : entry) (st : labels) :
  _sort_similarity_matrix m = pre ++ e :: post ->
  diagonal_state pre st ->
  exists st', label_step l l st e = Ok st' /\ diagonal_state (pre ++ [e]) st'.
Proof.
  intros Hsl (I1 & I2 & I3 & I4 & I5 & I6).
  pose proof (rank_sorted m) as S. rewrite Hsl in S.
  apply sorted_by_app in S. destruct S as (_ & Spost & Spre).
  inversion Spost as [|? ? Fpost _]; subst.
  assert (Hin_sl : forall d, In d (pre ++ e :: post) <-> In d pre \/ d = e \/ In d post).
  { intros d. rewrite in_app_iff. simpl. intuition congruence. }
  assert (Hpre : forall d, In d pre -> ranks_before d e).
  { intros d Hd. rewrite Forall_forall in Spre. specialize (Spre d Hd).
    inversion Spre; assumption. }
  assert (Hbefore : forall d, In d (_sort_similarity_matrix m) ->
                              ranks_before d e -> In d pre).
  { intros d Hd Hr. rewrite Hsl in Hd. apply Hin_sl in Hd.
    destruct Hd as [Hd | [-> | Hd]]; [assumption | |].
    - exfalso. eapply ranks_before_irrefl; eauto.
    - exfalso. rewrite Forall_forall in Fpost. specialize (Fpost d Hd).
      eapply ranks_before_irrefl. eapply ranks_before_trans; eauto. }
  assert (He : In e (_sort_similarity_matrix m))
    by (rewrite Hsl; apply Hin_sl; auto).
  destruct (self_entry e He) as (x & y & Hx & Hy & Hs).
  assert (Hseen : forall i z, nth_error l i = Some z ->
                    ranks_before (Z.of_nat (similarity z z), i, i) e ->
                    In i (seen_l1_indices st)).
  { intros i z Hz Hr. destruct (self_diagonal i z Hz) as (Hd & Hpos & _).
    apply I2. exists (Z.of_nat (similarity z z)). split; [assumption|].
    apply Hbefore; assumption. }
  destruct e as [[s r] c]. unfold row_of, col_of, score in *. simpl in *.
  unfold label_step, row_of, col_of, score. simpl.
  assert (Hstay : forall s0 i, (exists s1, 0 < s1 /\ In (s1, i, i) pre)
                   -> exists s1, 0 < s1 /\ In (s1, i, i) (pre ++ [(s0, r, c)])).
  { intros s0 i (s1 & Hp & Hi). exists s1. split; [assumption|].
    apply in_or_app. left. assumption. }
  destruct (Z.gtb_spec s 0) as [Hpos | Hnonpos].
  - (* a positive score *)
    destruct (Nat.eq_dec r c) as [<- | Hrc].
    + (* on the diagonal: claimed *)
      assert (Hfresh : set_mem Nat.eqb r (seen_l1_indices st) = false).
      { apply not_true_is_false. intros E. apply set_mem_nat in E.
        apply I2 in E. destruct E as (s' & Hs' & Hin').
        assert (In (s', r, r) (_sort_similarity_matrix m))
          by (rewrite Hsl; apply Hin_sl; auto).
        assert (s' = s) by (eapply entry_unique; eauto). subst s'.
        apply (ranks_before_irrefl (s, r, r)). apply Hpre. assumption. }
      rewrite I1, Hfresh. simpl.
      assert (y = x) by congruence. subst y.
      rewrite (both_have_type_cases is_dict _ _ _ _ _ _ Hx Hx),
              (both_have_type_cases is_list _ _ _ _ _ _ Hx Hx).
      simpl.
      exists (queue_pair st (set_add Nat.eqb (seen_l1_indices st) r)
                         (set_add Nat.eqb (seen_l1_indices st) r) r r
                         (is_dict x && is_dict x || is_list x && is_list x)).
      split.
      * destruct (is_dict x && is_dict x); reflexivity.
      * unfold diagonal_state, queue_pair. simpl.
        split; [reflexivity|]. split.
        { intros i. rewrite set_add_nat, I2. split.
          - intros [H | ->]; [apply Hstay; assumption|].
            exists s. split; [lia|]. apply in_or_app. right. left. reflexivity.
          - intros (s1 & Hs1 & Hin1). apply in_app_or in Hin1.
            destruct Hin1 as [Hin1 | [E | []]]; [left; eauto|].
            inversion E; subst. right. reflexivity. }
        repeat (split; [assumption|]).
        destruct (_ || _); [|assumption].
        apply Forall_app. split; [assumption|]. constructor; auto.
    + (* off the diagonal: one of its indices is claimed already *)
      assert (Hclaimed : set_mem Nat.eqb r (seen_l1_indices st)
                         || set_mem Nat.eqb c (seen_l2_indices st) = true).
      { destruct (self_diagonal r x Hx) as (_ & _ & Dx).
        destruct (self_diagonal c y Hy) as (_ & _ & Dy).
        pose proof (similarity_le_left x y Dy) as Hl.
        pose proof (similarity_le_right x y Dx) as Hr.
        apply orb_true_iff. rewrite I1.
        destruct (Nat.lt_ge_cases r c) as [Hlt | Hge].
        - right. apply set_mem_nat. apply (Hseen c y Hy).
          unfold ranks_before, row_major_lt, score, row_of, col_of. simpl. lia.
        - left. apply set_mem_nat. apply (Hseen r x Hx).
          unfold ranks_before, row_major_lt, score, row_of, col_of. simpl. lia. }
      rewrite Hclaimed. simpl.
      replace (s =? 0) with false by (symmetry; apply Z.eqb_neq; lia).
      exists st. split; [reflexivity|].
      unfold diagonal_state. repeat (split; [assumption|]). split.
      * intros i. rewrite I2. split; [apply Hstay|].
        intros (s1 & Hs1 & Hin1). apply in_app_or in Hin1.
        destruct Hin1 as [Hin1 | [E | []]]; [eauto|].
        inversion E; subst. congruence.
      * repeat (split; [assumption|]). assumption.
  - (* score zero: both indices are claimed already *)
    replace (s =? 0) with true by (symmetry; apply Z.eqb_eq; lia). simpl.
    assert (Hr : set_mem Nat.eqb r (seen_l1_indices st) = true).
    { apply set_mem_nat. apply (Hseen r x Hx).
      destruct (self_diagonal r x Hx) as (_ & Hp & _).
      unfold ranks_before, score. simpl. lia. }
    assert (Hc : set_mem Nat.eqb c (seen_l2_indices st) = true).
    { rewrite I1. apply set_mem_nat. apply (Hseen c y Hy).
      destruct (self_diagonal c y Hy) as (_ & Hp & _).
      unfold ranks_before, score. simpl. lia. }
    unfold mark_right, mark_left. rewrite Hr. simpl. rewrite Hc. simpl.
    exists st. split; [reflexivity|].
    unfold diagonal_state. repeat (split; [assumption|]). split.
    + intros i. rewrite I2. split; [apply Hstay|].
      intros (s1 & Hs1 & Hin1). apply in_app_or in Hin1.
      destruct Hin1 as [Hin1 | [E | []]]; [eauto|].
      inversion E; subst. lia.
    + repeat (split; [assumption|]). assumption.
Qed.

Lemma label_all_diagonal (post pre : list entry) (st : labels) :
  _sort_similarity_matrix m = pre ++ post ->
  diagonal_state pre st ->
  exists st', label_all l l post st = Ok st'
              /\ diagonal_state (_sort_similarity_matrix m) st'.
Proof.
  revert pre st. induction post as [|e post IH]; intros pre st Hsl Inv.
  - rewrite app_nil_r in Hsl. rewrite Hsl. exists st. split; [reflexivity | assumption].
  - destruct (label_step_diagonal pre post e st Hsl Inv) as (st1 & E1 & Inv1).
    simpl. rewrite E1. simpl. apply (IH (pre ++ [e])); [|assumption].
    rewrite <- app_assoc. exact Hsl.
Qed.

(** Matching a list against itself claims every index with itself and
    reports nothing. *)
Lemma match_elements_self :
  exists st,
    match_elements l l = Ok st
    /\ mismatch_set st = []
    /\ Forall (fun p => fst p = snd p /\ same_container l l p = true) (to_recurse st).
Proof.
  assert (Inv0 : diagonal_state [] no_labels).
  { unfold diagonal_state, no_labels. simpl. repeat split; auto.
    - intros [].
    - intros (s & _ & []). }
  destruct (label_all_diagonal (_sort_similarity_matrix m) [] no_labels eq_refl Inv0)
    as (st & E & (I1 & I2 & I3 & I4 & I5 & I6)).
  assert (Hall : forall i, (i < length l)%nat -> In i (seen_l1_indices st)).
  { intros i Hi. destruct (nth_error l i) as [x|] eqn:Ex;
      [|apply nth_error_None in Ex; lia].
    destruct (self_diagonal i x Ex) as (Hd & Hp & _). apply I2. eauto. }
  exists (label_stragglers l l st). split.
  - unfold match_elements. rewrite matrix_of_l. simpl. rewrite E. reflexivity.
  - assert (Hq : Forall (fun p => same_container l l p = true) (to_recurse st))
      by (eapply label_all_queue; [exact E | constructor]).
    unfold label_stragglers. simpl. rewrite I3, I4, I5. simpl.
    rewrite !stragglers_all_labelled by (rewrite ?I1; assumption).
    split; [reflexivity|].
    apply Forall_forall. intros p Hp. rewrite Forall_forall in I6, Hq. auto.
Qed.
End SelfMatch.

(** ** A tree against itself *)

Lemma dict_lookup_in (d : dict) (k : scalar) (v : value) :
  dict_lookup d k = Some v -> exists k0, In (k0, v) d.
Proof.
  induction d as [|[k0 v0] d IH]; simpl; [discriminate|].
  destruct (scalar_eqb k0 k).
  - intros E. inversion E; subst. eauto.
  - intros E. destruct (IH E) as (k1 & H). eauto.
Qed.

Lemma classify_key_self (d : dict) (cl : key_classes) (k : scalar) :
  let cl' := classify_key d d cl k in
  return_values cl' = return_values cl
  /\ (forall k0, In k0 (dict_keys_to_recurse cl') ->
                 In k0 (dict_keys_to_recurse cl) \/ is_dict (dict_get d k0) = true)
  /\ (forall k0, In k0 (list_keys_to_recurse cl') ->
                 In k0 (list_keys_to_recurse cl) \/ is_list (dict_get d k0) = true).
Proof.
  unfold classify_key.
  destruct (dict_get d k) as [s|items|xs] eqn:E; simpl.
  - rewrite scalar_eqb_refl. simpl. auto.
  - repeat split; auto. intros k0 H. apply in_app_or in H.
    destruct H as [H | [<- | []]]; [auto|]. right. rewrite E. reflexivity.
  - repeat split; auto. intros k0 H. apply in_app_or in H.
    destruct H as [H | [<- | []]]; [auto|]. right. rewrite E. reflexivity.
Qed.

Lemma classify_fold_self (d : dict) (ks : list scalar) (cl : key_classes) :
  let cl' := fold_left (classify_key d d) ks cl in
  return_values cl' = return_values cl
  /\ (forall k0, In k0 (dict_keys_to_recurse cl') ->
                 In k0 (dict_keys_to_recurse cl) \/ is_dict (dict_get d k0) = true)
  /\ (forall k0, In k0 (list_keys_to_recurse cl') ->
                 In k0 (list_keys_to_recurse cl) \/ is_list (dict_get d k0) = true).
Proof.
  revert cl. induction ks as [|k ks IH]; intros cl; simpl; [auto|].
  destruct (IH (classify_key d d cl k)) as (A & B & C).
  destruct (classify_key_self d cl k) as (A' & B' & C').
  split; [congruence|]. split.
  - intros k0 H. destruct (B k0 H) as [H1 | H1]; auto.
  - intros k0 H. destruct (C k0 H) as [H1 | H1]; auto.
Qed.

Lemma append_under_nil (seg : segment) (acc : list path) :
  append_under seg acc [] = acc.
Proof. unfold append_under. simpl. apply app_nil_r. Qed.

Section SelfLoops.
Variable dict_diff_rec : dict -> dict -> io (list path).
Variable list_diff_rec : list value -> list value -> io (list path).

Lemma call_dict_diff_self (d : dict) :
  dict_diff_rec d d = ([], Ok []) ->
  call_dict_diff dict_diff_rec (Ok (VDict d)) (Ok (VDict d)) = ([], Ok []).
Proof.
  intros H. unfold call_dict_diff. rewrite !bind_lift_ok. cbn [as_dict].
  rewrite !bind_lift_ok. exact H.
Qed.

Lemma call_list_diff_self (xs : list value) :
  list_diff_rec xs xs = ([], Ok []) ->
  call_list_diff list_diff_rec (Ok (VList xs)) (Ok (VList xs)) = ([], Ok []).
Proof.
  intros H. unfold call_list_diff. rewrite !bind_lift_ok. cbn [as_list].
  rewrite !bind_lift_ok. exact H.
Qed.

Lemma run_recursions_self (l : list value) (queue : list (nat * nat))
      (acc : list path) :
  (forall d, In (VDict d) l -> dict_diff_rec d d = ([], Ok [])) ->
  (forall xs, In (VList xs) l -> list_diff_rec xs xs = ([], Ok [])) ->
  Forall (fun p => fst p = snd p /\ same_container l l p = true) queue ->
  run_recursions dict_diff_rec list_diff_rec l l queue acc = ([], Ok acc).
Proof.
  intros Hd Hl F. revert acc.
  induction F as [|[i j] queue [Hij Hp] F IH]; intros acc; [reflexivity|].
  simpl in Hij. subst j. unfold same_container in Hp. simpl in Hp.
  destruct (nth_error l i) as [x|] eqn:Ex; [|discriminate].
  cbn [run_recursions].
  rewrite (both_have_type_cases is_dict _ _ _ _ _ _ Ex Ex), bind_lift_ok.
  pose proof (nth_error_In _ _ Ex) as Hin.
  unfold index. rewrite Ex.
  destruct x as [s|d|xs]; simpl in Hp; try discriminate; cbn [is_dict is_list andb].
  - rewrite (call_dict_diff_self d (Hd d Hin)), bind_ok, append_under_nil. apply IH.
  - rewrite (both_have_type_cases is_list _ _ _ _ _ _ Ex Ex), bind_lift_ok.
    cbn [is_list andb].
    rewrite (call_list_diff_self xs (Hl xs Hin)), bind_ok, append_under_nil. apply IH.
Qed.

Lemma recurse_dict_keys_self (d : dict) (ks : list scalar) (acc : list path) :
  (forall k0 d', In (k0, VDict d') d -> dict_diff_rec d' d' = ([], Ok [])) ->
  Forall (fun k => is_dict (dict_get d k) = true) ks ->
  recurse_dict_keys dict_diff_rec d d ks acc = ([], Ok acc).
Proof.
  intros Hd F. revert acc. induction F as [|k ks Hk F IH]; intros acc; [reflexivity|].
  cbn [recurse_dict_keys]. unfold dict_get in Hk. unfold dict_item.
  destruct (dict_lookup d k) as [v|] eqn:E; [|discriminate].
  destruct v as [s|d'|xs]; try discriminate.
  destruct (dict_lookup_in _ _ _ E) as (k0 & Hin).
  rewrite (call_dict_diff_self d' (Hd k0 d' Hin)), bind_ok, append_under_nil. apply IH.
Qed.

Lemma recurse_list_keys_self (d : dict) (ks : list scalar) (acc : list path) :
  (forall k0 xs, In (k0, VList xs) d -> list_diff_rec xs xs = ([], Ok [])) ->
  Forall (fun k => is_list (dict_get d k) = true) ks ->
  recurse_list_keys list_diff_rec d d ks acc = ([], Ok acc).
Proof.
  intros Hl F. revert acc. induction F as [|k ks Hk F IH]; intros acc; [reflexivity|].
  cbn [recurse_list_keys]. unfold dict_get in Hk. unfold dict_item.
  destruct (dict_lookup d k) as [v|] eqn:E; [|discriminate].
  destruct v as [s|d'|xs]; try discriminate.
  destruct (dict_lookup_in _ _ _ E) as (k0 & Hin).
  rewrite (call_list_diff_self xs (Hl k0 xs Hin)), bind_ok, append_under_nil. apply IH.
Qed.
End SelfLoops.

Section Reflexivity.
Context {key_order : IterOrder scalar} {pair_order : IterOrder index_pair}.

Lemma self_diff (fuel : nat) :
  (forall l, diffable (VList l) = true -> (depth (VList l) <= fuel)%nat ->
             list_diff fuel l l = ([], Ok []))
  /\ (forall d, diffable (VDict d) = true -> (depth (VDict d) <= fuel)%nat ->
                dict_diff fuel d d = ([], Ok [])).
Proof.
  induction fuel as [|fuel [IHl IHd]].
  - split; intros x _ H; cbn [depth] in H; lia.
  - split.
    + intros l Dl Hdepth. apply diffable_list in Dl.
      destruct (square_matrix_defined l l eq_refl) as [m Hm].
      destruct (match_elements_self l m Hm Dl) as (st & E & Hms & Hq).
      rewrite list_diff_S, E, bind_lift_ok, Hms, iter_set_nil. cbn [map].
      apply run_recursions_self; [| |exact Hq].
      * intros d Hin. rewrite Forall_forall in Dl. apply IHd.
        -- apply (Dl _ Hin).
        -- pose proof (depth_list_elem l _ Hin). lia.
      * intros xs Hin. rewrite Forall_forall in Dl. apply IHl.
        -- apply (Dl _ Hin).
        -- pose proof (depth_list_elem l _ Hin). lia.
    + intros d Dd Hdepth. apply diffable_dict in Dd. destruct Dd as [_ Dd].
      rewrite Forall_forall in Dd.
      rewrite dict_diff_S. unfold dict_diff_body.
      destruct (classify_fold_self d (iter_set (key_union d d)) (mk_classes [] [] []))
        as (A & B & C).
      fold (classify_keys d d) in A, B, C. simpl in A, B, C.
      rewrite A, recurse_dict_keys_self, bind_ok.
      * apply recurse_list_keys_self.
        -- intros k0 xs Hin. apply IHl.
           ++ apply (Dd _ Hin).
           ++ pose proof (depth_dict_item d k0 _ Hin). lia.
        -- apply Forall_forall. intros k Hk. destruct (C k Hk) as [[] | H]. exact H.
      * intros k0 d' Hin. apply IHd.
        -- apply (Dd _ Hin).
        -- pose proof (depth_dict_item d k0 _ Hin). lia.
      * apply Forall_forall. intros k Hk. destruct (B k Hk) as [[] | H]. exact H.
Qed.
End Reflexivity.

Example self_diff_with_empty_sequences :
  by_insertion (fun _ _ => list_diff 2 [VList []; int 1; VList []]
                                     [VList []; int 1; VList []])
  = ([], Ok []).
Proof. reflexivity. Qed.

(** C2, as the design document states it, fails for a sequence that
    holds an empty mapping: two empty mappings share no key, score 0
    and are reported on both sides.  No iteration order and no
    recursion depth makes the diff of [[{}]] with itself empty. *)
Lemma empty_mapping_differs_from_itself :
  ~ (exists (key_order : IterOrder scalar) (pair_order : IterOrder index_pair)
            (fuel : nat),
        result (list_diff fuel [VDict []] [VDict []]) = Ok []).
Proof.
  intros (ko & po & fuel & H).
  destruct fuel as [|fuel]; [discriminate H|].
  rewrite (list_diff_no_recursion fuel [VDict []] [VDict []]
             (mk_labels [] [0%nat] [] [0%nat]
                        [(Some 0%nat, None); (None, Some 0%nat)] []))
    in H by reflexivity.
  cbn [mismatch_set] in H. unfold result, ret in H. cbn [snd] in H.
  inversion H as [Hm]. apply map_eq_nil in Hm. revert Hm. apply iter_set_not_nil.
Qed.

(** C2 (amended): a tree of mappings, sequences and leaves that are
    [None], booleans, integers or strings (the scalars of this
    development; floats are not among them), whose mappings have
    distinct keys and whose sequences hold no empty mapping (they may
    hold empty sequences), differs nowhere from itself: with fuel for
    its nesting depth, the differ of its root prints nothing and
    returns the empty list. *)
Theorem self_diff_is_empty
        (key_order : IterOrder scalar) (pair_order : IterOrder index_pair)
        (t : value) (fuel : nat) :
  diffable t = true -> (depth t <= fuel)%nat ->
  match t with
  | VList l => list_diff fuel l l = ([], Ok [])
  | VDict d => dict_diff fuel d d = ([], Ok [])
  | VScalar _ => True
  end.
Proof.
  intros D H. destruct t as [s|d|l]; [exact I | |].
  - apply self_diff; assumption.
  - apply self_diff; assumption.
Qed.

Lemma self_diff_is_empty_witness :
  by_insertion (fun _ _ =>
    dict_diff 4 [(str "a", int 1);
                 (str "b", VList [VList []; VDict [(str "c", VDict [])]; int 2; int 2])]
                [(str "a", int 1);
                 (str "b", VList [VList []; VDict [(str "c", VDict [])]; int 2; int 2])])
  = ([], Ok []).
Proof.
  apply (self_diff_is_empty (insertion_order scalar) (insertion_order index_pair)
           (VDict [(str "a", int 1);
                   (str "b", VList [VList []; VDict [(str "c", VDict [])]; int 2; int 2])])
           4).
  - reflexivity.
  - simpl. lia.
Defined.

(** * Further properties *)

(** ** The merge sort on any list *)

Lemma descending_cons_inv (a : entry) (sl : list entry) :
  descending (a :: sl) -> Forall (fun b => score a >= score b) sl /\ descending sl.
Proof. intros H. inversion H; subst. split; assumption. Qed.

Lemma join_descending (h1 h2 : list entry) :
  descending h1 -> descending h2 -> descending (join h1 h2).
Proof.
  unfold descending. revert h2. induction h1 as [|a h1 IH1]; intros h2 S1 S2.
  - rewrite join_nil_l. assumption.
  - induction h2 as [|b h2 IH2].
    + rewrite join_nil_r. assumption.
    + rewrite join_cons.
      inversion S1 as [|? ? Fa S1']; subst. inversion S2 as [|? ? Fb S2']; subst.
      destruct (score a >? score b) eqn:E.
      * apply Z.gtb_lt in E. constructor; [|apply IH1; assumption].
        eapply Permutation_Forall; [symmetry; apply join_perm|].
        apply Forall_app. split; [assumption|].
        constructor; [lia|]. eapply Forall_impl; [|exact Fb].
        intros c Hc. simpl in *. lia.
      * assert (Hle : score a <= score b)
          by (destruct (Z.gtb_spec (score a) (score b)); [discriminate | lia]).
        constructor; [|apply IH2; assumption].
        eapply Permutation_Forall; [symmetry; apply join_perm|].
        apply Forall_app. split; [|assumption].
        constructor; [lia|]. eapply Forall_impl; [|exact Fa].
        intros c Hc. simpl in *. lia.
Qed.

Lemma sort_descending (sl : list entry) : descending (_sort_similarity_list sl).
Proof.
  funelim (_sort_similarity_list sl).
  - unfold descending. destruct sl as [|a [|b sl]]; simpl in *; try lia.
    + constructor.
    + constructor; constructor.
  - apply join_descending; assumption.
Qed.

Lemma with_score_none (s : Z) (sl : list entry) :
  Forall (fun b => score b < s) sl -> with_score s sl = [].
Proof.
  unfold with_score. induction 1 as [|b sl Hb F IH]; simpl; [reflexivity|].
  replace (score b =? s) with false by (symmetry; apply Z.eqb_neq; lia). exact IH.
Qed.

Lemma with_score_cons (s : Z) (a : entry) (sl : list entry) :
  with_score s (a :: sl)
  = if score a =? s then a :: with_score s sl else with_score s sl.
Proof. reflexivity. Qed.

(** Joining two sorted halves puts the entries of the second half
    before those of the first half that have the same score. *)
Lemma join_with_score (s : Z) (h1 h2 : list entry) :
  descending h1 -> descending h2 ->
  with_score s (join h1 h2) = with_score s h2 ++ with_score s h1.
Proof.
  revert h2. induction h1 as [|a h1 IH1]; intros h2 S1 S2.
  - rewrite join_nil_l. simpl. rewrite app_nil_r. reflexivity.
  - induction h2 as [|b h2 IH2].
    + rewrite join_nil_r. reflexivity.
    + rewrite join_cons.
      destruct (descending_cons_inv _ _ S1) as [Fa S1'].
      destruct (descending_cons_inv _ _ S2) as [Fb S2'].
      destruct (score a >? score b) eqn:E.
      * apply Z.gtb_lt in E.
        rewrite (with_score_cons s a (join h1 (b :: h2))), (IH1 _ S1' S2).
        rewrite (with_score_cons s a h1).
        destruct (score a =? s) eqn:Ea; [|reflexivity].
        apply Z.eqb_eq in Ea.
        rewrite (with_score_none s (b :: h2)); [reflexivity|].
        constructor; [lia|]. eapply Forall_impl; [|exact Fb].
        intros c Hc. simpl in Hc. lia.
      * rewrite (with_score_cons s b (join (a :: h1) h2)), (IH2 S2').
        rewrite (with_score_cons s b h2).
        destruct (score b =? s); reflexivity.
Qed.

Lemma with_score_app (s : Z) (l1 l2 : list entry) :
  with_score s (l1 ++ l2) = with_score s l1 ++ with_score s l2.
Proof. apply filter_app. Qed.

Lemma sort_with_score (s : Z) (sl : list entry) :
  with_score s (_sort_similarity_list sl) = rev (with_score s sl).
Proof.
  funelim (_sort_similarity_list sl).
  - destruct sl as [|a [|b sl]]; simpl in *; try lia; [reflexivity|].
    unfold with_score. simpl. destruct (score a =? s); reflexivity.
  - rewrite join_with_score by apply sort_descending.
    match goal with
    | IH1 : forall s0, with_score s0 (_sort_similarity_list (firstn _ _)) = _,
      IH2 : forall s0, with_score s0 (_sort_similarity_list (skipn _ _)) = _ |- _ =>
        rewrite IH1, IH2
    end.
    rewrite <- rev_app_distr, <- with_score_app, firstn_skipn. reflexivity.
Qed.

(** X1: on any list of entries, whatever its order, the merge sort
    returns a permutation of the list, sorted by score descending, in
    which the entries of each score appear in the reverse of their
    order in the input. *)
Theorem merge_sort_reverses_ties (sl : list entry) :
  Permutation (_sort_similarity_list sl) sl
  /\ length (_sort_similarity_list sl) = length sl
  /\ descending (_sort_similarity_list sl)
  /\ (forall s, with_score s (_sort_similarity_list sl) = rev (with_score s sl)).
Proof.
  split; [apply sort_perm|]. split; [apply Permutation_length, sort_perm|].
  split; [apply sort_descending | intros s; apply sort_with_score].
Qed.

(** X2: the sort is not idempotent; sorting a sorted list brings the
    entries of each score back into the order they had before the first
    sort, so that two sorts amount to a stable sort. *)
Theorem sorting_twice_is_stable (sl : list entry) :
  Permutation (_sort_similarity_list (_sort_similarity_list sl)) sl
  /\ descending (_sort_similarity_list (_sort_similarity_list sl))
  /\ (forall s,
         with_score s (_sort_similarity_list (_sort_similarity_list sl))
         = with_score s sl).
Proof.
  split; [rewrite sort_perm; apply sort_perm|].
  split; [apply sort_descending|].
  intros s. rewrite !sort_with_score. apply rev_involutive.
Qed.

(** ** The similarity matrix: shape, errors and container scores *)

Lemma set_nth_length {A} (l : list A) (i : nat) (x : A) :
  length (set_nth l i x) = length l.
Proof.
  revert i. induction l as [|y l IH]; intros i; [destruct i; reflexivity|].
  destruct i; simpl; auto.
Qed.

Lemma set_nth_row_lengths (m : matrix) (i : nat) (row row' : list Z) :
  nth_error m i = Some row -> length row' = length row ->
  map (@length Z) (set_nth m i row') = map (@length Z) m.
Proof.
  revert i. induction m as [|r m IH]; intros i H Hl; [destruct i; discriminate|].
  destruct i as [|i]; simpl in *.
  - inversion H; subst. congruence.
  - f_equal. eapply IH; eauto.
Qed.

Lemma incr_row_lengths (m m' : matrix) (i j : nat) :
  incr m i j = Ok m' -> map (@length Z) m' = map (@length Z) m.
Proof.
  unfold incr, index.
  destruct (nth_error m i) as [row|] eqn:Er; simpl; [|discriminate].
  destruct (nth_error row j) as [x|]; simpl; [|discriminate].
  intros H. inversion H; subst.
  eapply set_nth_row_lengths; [exact Er | apply set_nth_length].
Qed.

Lemma incr_pairs_row_lengths (ps : list (nat * nat)) (m m' : matrix) :
  incr_pairs m ps = Ok m' -> map (@length Z) m' = map (@length Z) m.
Proof.
  revert m. induction ps as [|p ps IH]; intros m H; simpl in H.
  - inversion H; reflexivity.
  - destruct (incr m (fst p) (snd p)) as [m1| |] eqn:E; simpl in H; try discriminate.
    rewrite (IH _ H). eapply incr_row_lengths; eauto.
Qed.

Lemma zeros_row_lengths (rows cols : nat) :
  map (@length Z) (zeros rows cols) = repeat cols rows.
Proof.
  unfold zeros. induction rows as [|rows IH]; simpl; [reflexivity|].
  rewrite repeat_length, IH. reflexivity.
Qed.

(** X3: a matrix that is returned has one row per element of [l2], and
    every row has one column per element of [l1]. *)
Theorem matrix_dimensions (l1 l2 : list value) (m : matrix) :
  _create_similarity_matrix l1 l2 = Ok m ->
  length m = length l2
  /\ Forall (fun row => length row = length l1) m
  /\ length (_sort_similarity_matrix m) = (length l1 * length l2)%nat.
Proof.
  unfold _create_similarity_matrix. rewrite score_from_pairs. intros H.
  apply incr_pairs_row_lengths in H. rewrite zeros_row_lengths in H.
  assert (Hlen : length m = length l2).
  { rewrite <- (length_map (@length Z) m), H. apply repeat_length. }
  assert (Hrows : Forall (fun row => length row = length l1) m).
  { apply Forall_forall. intros row Hin.
    apply (in_map (@length Z)) in Hin. rewrite H in Hin.
    apply repeat_spec in Hin. exact Hin. }
  split; [exact Hlen|]. split; [exact Hrows|].
  unfold _sort_similarity_matrix.
  rewrite (Permutation_length (sort_perm (flatten m))).
  unfold flatten. rewrite flatten_from_length, H.
  clear. induction (length l2) as [|n IH]; simpl; [lia|]. rewrite IH. lia.
Qed.

Lemma matrix_dimensions_witness :
  length [[0; 0; 0]] = length (ints [4])
  /\ Forall (fun row => length row = length (ints [1; 2; 3])) [[0; 0; 0]]
  /\ length (_sort_similarity_matrix [[0; 0; 0]])
     = Nat.mul (length (ints [1; 2; 3])) (length (ints [4])).
Proof.
  apply (matrix_dimensions (ints [1; 2; 3]) (ints [4]) [[0; 0; 0]]). reflexivity.
Defined.

Lemma incr_pairs_outcome (ps : list (nat * nat)) (m : matrix) :
  (Forall (fun p => cell m (fst p) (snd p) <> None) ps
   /\ exists m', incr_pairs m ps = Ok m')
  \/ (~ Forall (fun p => cell m (fst p) (snd p) <> None) ps
      /\ incr_pairs m ps = Raise IndexError).
Proof.
  revert m. induction ps as [|[i j] ps IH]; intros m; simpl.
  - left. split; [constructor | eauto].
  - destruct (cell m i j) as [z|] eqn:Ec.
    + destruct (incr_defined m i j ltac:(congruence)) as [m1 E]. rewrite E. simpl.
      assert (Hsame : forall p, cell m1 (fst p) (snd p) <> None
                                <-> cell m (fst p) (snd p) <> None).
      { intros p. rewrite (incr_cells _ _ _ _ E).
        destruct (cell m (fst p) (snd p)); simpl; split; congruence. }
      destruct (IH m1) as [[F Hok] | [F Hraise]].
      * left. split; [|exact Hok]. constructor; [simpl; congruence|].
        eapply Forall_impl; [|exact F]. intros p. apply Hsame.
      * right. split; [|exact Hraise]. intros F'. apply F.
        inversion F'; subst. eapply Forall_impl; [|eassumption].
        intros p. apply Hsame.
    + right. rewrite (incr_undefined m i j Ec). split; [|reflexivity].
      intros F. inversion F; subst. simpl in *. congruence.
Qed.

Lemma count_nat_positive (j : nat) (js : list nat) :
  In j js <-> (0 < count_nat j js)%nat.
Proof.
  unfold count_nat. induction js as [|k js IH]; simpl; [split; [tauto | lia]|].
  destruct (Nat.eqb_spec j k) as [->|Hne]; simpl.
  - split; [lia | auto].
  - rewrite <- IH. split; [intros [H | H]; [congruence | assumption] | auto].
Qed.

Lemma ballot_iff (l1 l2 : list value) (i j : nat) :
  In (i, j) (ballots (parse_from 0 l2 empty_tables) 0 l1)
  <-> exists x y, nth_error l1 i = Some x /\ nth_error l2 j = Some y
                  /\ (0 < similarity x y)%nat.
Proof.
  split.
  - intros H. apply ballots_in in H. destruct H as (_ & x & Hx & Hj).
    rewrite Nat.sub_0_r in Hx.
    pose proof (votes_in_range _ _ _ Hj) as Hr.
    destruct (nth_error l2 j) as [y|] eqn:Ey; [|apply nth_error_None in Ey; lia].
    exists x, y. repeat split; [assumption|].
    rewrite <- (count_votes l2 x y j Ey). apply count_nat_positive. exact Hj.
  - intros (x & y & Hx & Hy & Hpos).
    rewrite <- (count_votes l2 x y j Hy) in Hpos.
    assert (Hc : (0 < count_pos (i, j) (ballots (parse_from 0 l2 empty_tables) 0 l1))%nat).
    { rewrite count_pos_ballots. simpl. rewrite Nat.sub_0_r, Hx. exact Hpos. }
    unfold count_pos in Hc.
    destruct (filter (pos_eqb (i, j)) _) as [|p rest] eqn:F; [simpl in Hc; lia|].
    assert (Hin : In p (filter (pos_eqb (i, j))
                          (ballots (parse_from 0 l2 empty_tables) 0 l1)))
      by (rewrite F; left; reflexivity).
    apply filter_In in Hin. destruct Hin as [Hin Hp].
    unfold pos_eqb in Hp. apply andb_true_iff in Hp. simpl in Hp.
    destruct Hp as [H1 H2]. apply Nat.eqb_eq in H1, H2.
    destruct p as [a b]. simpl in *. subst. exact Hin.
Qed.

(** X4: building the matrix either succeeds or raises [IndexError]; it
    succeeds exactly when every pair of a positive score has its left
    index below [len(l2)] and its right index below [len(l1)], which is
    the case for two lists of the same length. *)
Theorem matrix_index_error_condition (l1 l2 : list value) :
  ((exists m, _create_similarity_matrix l1 l2 = Ok m)
   \/ _create_similarity_matrix l1 l2 = Raise IndexError)
  /\ ((exists m, _create_similarity_matrix l1 l2 = Ok m)
      <-> (forall i j x y,
              nth_error l1 i = Some x -> nth_error l2 j = Some y ->
              (0 < similarity x y)%nat ->
              (i < length l2)%nat /\ (j < length l1)%nat))
  /\ (length l1 = length l2 -> exists m, _create_similarity_matrix l1 l2 = Ok m).
Proof.
  assert (Hrange : forall p : nat * nat,
             cell (zeros (length l2) (length l1)) (fst p) (snd p) <> None
             <-> (fst p < length l2)%nat /\ (snd p < length l1)%nat).
  { intros p. rewrite cell_zeros.
    destruct (Nat.ltb_spec (fst p) (length l2)), (Nat.ltb_spec (snd p) (length l1));
      simpl; split; try congruence; try lia; intros _; discriminate. }
  unfold _create_similarity_matrix. rewrite score_from_pairs.
  destruct (incr_pairs_outcome (ballots (parse_from 0 l2 empty_tables) 0 l1)
                               (zeros (length l2) (length l1)))
    as [[F Hok] | [F Hraise]].
  - split; [left; exact Hok|]. split.
    + split; [|intros _; exact Hok]. intros _ i j x y Hx Hy Hpos.
      rewrite Forall_forall in F.
      apply (Hrange (i, j)). apply F. apply ballot_iff. eauto.
    + intros _. exact Hok.
  - split; [right; exact Hraise|]. split.
    + split.
      * intros [m Hm]. congruence.
      * intros Hall. exfalso. apply F. apply Forall_forall. intros [i j] Hin.
        apply Hrange. simpl. apply ballot_iff in Hin.
        destruct Hin as (x & y & Hx & Hy & Hpos). eauto.
    + intros Hlen. exfalso. apply F. apply Forall_forall. intros [i j] Hin.
      apply Hrange. simpl. apply ballot_iff in Hin.
      destruct Hin as (x & y & Hx & Hy & _).
      assert (i < length l1)%nat by (apply nth_error_Some; congruence).
      assert (j < length l2)%nat by (apply nth_error_Some; congruence).
      lia.
Qed.

Lemma items_match_distinct (ys : dict) (kv : scalar * value) :
  distinct_keys ys = true ->
  length (filter (items_match kv) ys) = if shares_item ys kv then 1%nat else 0%nat.
Proof.
  destruct kv as [k v]. unfold shares_item. simpl fst. simpl snd.
  induction ys as [|[k0 v0] ys IH]; intros D; [reflexivity|].
  simpl in D. apply andb_true_iff in D. destruct D as [D1 D2].
  apply negb_true_iff in D1. cbn [filter dict_lookup].
  destruct (scalar_eqb k0 k) eqn:E.
  - assert (Hrest : filter (items_match (k, v)) ys = []).
    { destruct (filter (items_match (k, v)) ys) as [|kv' rest] eqn:F; [reflexivity|].
      assert (Hin : In kv' (filter (items_match (k, v)) ys))
        by (rewrite F; left; reflexivity).
      apply filter_In in Hin. destruct Hin as [Hin Hm].
      apply items_match_keys in Hm. simpl in Hm.
      assert (X : existsb (fun kv'0 => scalar_eqb (fst kv'0) k0) ys = true).
      { apply existsb_exists. exists kv'. split; [assumption|].
        apply scalar_eqb_trans with k; [assumption|].
        rewrite scalar_eqb_sym. assumption. }
      congruence. }
    rewrite Hrest.
    unfold items_match, complex_item_matches, simple_item_matches, pair_eqb, is_complex.
    simpl. rewrite E.
    destruct v as [a|d|xs], v0 as [b|d'|ys']; simpl; try reflexivity.
    rewrite (scalar_eqb_sym b a). destruct (scalar_eqb a b); reflexivity.
  - rewrite <- (IH D2).
    replace (items_match (k, v) (k0, v0)) with false; [reflexivity|].
    symmetry. apply not_true_is_false. intros Hm.
    apply items_match_keys in Hm. simpl in Hm. congruence.
Qed.

(** X5: in a matrix that is returned, the cell of two nested lists
    holds 1 when they have the same length and 0 otherwise, whatever
    they contain; the cell of two mappings holds the number of items of
    the left mapping whose key the right mapping maps to an equal scalar
    or, for a nested container, to any container. *)
Theorem container_pair_scores
        (l1 l2 : list value) (m : matrix) (i j : nat) (x y : value) (s : Z) :
  _create_similarity_matrix l1 l2 = Ok m ->
  nth_error l1 i = Some x -> nth_error l2 j = Some y ->
  cell m i j = Some s ->
  (forall xs ys, x = VList xs -> y = VList ys ->
                 s = if Nat.eqb (length xs) (length ys) then 1 else 0)
  /\ (forall xs ys, x = VDict xs -> y = VDict ys -> distinct_keys ys = true ->
                    s = Z.of_nat (length (filter (shares_item ys) xs))).
Proof.
  intros H Hx Hy Hc.
  pose proof (matrix_cell_similarity _ _ _ _ _ _ _ _ H Hx Hy Hc) as Hs.
  split.
  - intros xs ys -> ->. simpl in Hs. rewrite Nat.eqb_sym in Hs.
    destruct (Nat.eqb (length xs) (length ys)); exact Hs.
  - intros xs ys -> -> D. rewrite similarity_dicts in Hs. rewrite Hs. f_equal.
    clear - D. induction xs as [|kv xs IH]; simpl; [reflexivity|].
    rewrite IH, (items_match_distinct ys kv D).
    destruct (shares_item ys kv); reflexivity.
Qed.

Lemma container_pair_scores_witness :
  (forall xs ys, VDict [(str "a", int 1); (str "b", VDict []); (str "c", int 3)] = VList xs ->
                 VDict [(str "b", VList []); (str "a", int 1); (str "c", int 4)] = VList ys ->
                 2 = if Nat.eqb (length xs) (length ys) then 1 else 0)
  /\ (forall xs ys,
         VDict [(str "a", int 1); (str "b", VDict []); (str "c", int 3)] = VDict xs ->
         VDict [(str "b", VList []); (str "a", int 1); (str "c", int 4)] = VDict ys ->
         distinct_keys ys = true ->
         2 = Z.of_nat (length (filter (shares_item ys) xs))).
Proof.
  apply (container_pair_scores
           [VDict [(str "a", int 1); (str "b", VDict []); (str "c", int 3)]]
           [VDict [(str "b", VList []); (str "a", int 1); (str "c", int 4)]]
           [[2]] 0 0); reflexivity.
Defined.

(** ** The matching loop *)

Section SetLemmas.
Context {A : Type} (eqb : A -> A -> bool).
Hypothesis eqb_eq : forall x y, eqb x y = true <-> x = y.

Lemma set_mem_in (x : A) (s : list A) : set_mem eqb x s = true <-> In x s.
Proof.
  unfold set_mem. rewrite existsb_exists. split.
  - intros (y & Hy & E). apply eqb_eq in E. subst. assumption.
  - intros H. exists x. split; [assumption | apply eqb_eq; reflexivity].
Qed.

Lemma set_mem_not_in (x : A) (s : list A) : set_mem eqb x s = false <-> ~ In x s.
Proof.
  rewrite <- set_mem_in. destruct (set_mem eqb x s); split; congruence.
Qed.

Lemma set_add_in (s : list A) (x y : A) :
  In y (set_add eqb s x) <-> In y s \/ y = x.
Proof.
  unfold set_add. destruct (set_mem eqb x s) eqn:E.
  - apply set_mem_in in E. split; [auto|]. intros [H | ->]; assumption.
  - rewrite in_app_iff. simpl. intuition congruence.
Qed.

Lemma set_add_new (s : list A) (x : A) : ~ In x s -> set_add eqb s x = s ++ [x].
Proof.
  intros H. unfold set_add. apply set_mem_not_in in H. rewrite H. reflexivity.
Qed.

Lemma set_add_all_in (xs s : list A) (y : A) :
  In y (set_add_all eqb s xs) <-> In y s \/ In y xs.
Proof.
  unfold set_add_all. revert s. induction xs as [|x xs IH]; intros s; simpl.
  - tauto.
  - rewrite IH, set_add_in. intuition congruence.
Qed.
End SetLemmas.

Lemma nat_eqb_eq (x y : nat) : Nat.eqb x y = true <-> x = y.
Proof. apply Nat.eqb_eq. Qed.

Lemma stragglers_in (mk : nat -> index_pair) (n : nat) (labelled : list nat)
      (ms : list index_pair) (p : index_pair) :
  In p (stragglers mk n labelled ms)
  <-> In p ms \/ exists i, (i < n)%nat /\ ~ In i labelled /\ p = mk i.
Proof.
  unfold stragglers.
  assert (G : forall k a ms',
             In p (fold_left
                     (fun ms0 i => if set_mem Nat.eqb i labelled then ms0
                                   else set_add index_pair_eqb ms0 (mk i))
                     (seq a k) ms')
             <-> In p ms' \/ exists i, (a <= i < a + k)%nat /\ ~ In i labelled /\ p = mk i).
  { induction k as [|k IH]; intros a ms'; simpl.
    - split; [auto|]. intros [H | (i & Hi & _)]; [assumption | lia].
    - rewrite IH. destruct (set_mem Nat.eqb a labelled) eqn:E.
      + apply (set_mem_in Nat.eqb nat_eqb_eq) in E. split.
        * intros [H | (i & Hi & Hn & Hp)]; [auto|]. right. exists i. split; [lia | auto].
        * intros [H | (i & Hi & Hn & Hp)]; [auto|]. right. exists i.
          split; [|auto]. destruct (Nat.eq_dec i a); [subst; contradiction | lia].
      + apply (set_mem_not_in Nat.eqb nat_eqb_eq) in E.
        rewrite (set_add_in index_pair_eqb index_pair_eqb_eq). split.
        * intros [[H | ->] | (i & Hi & Hn & Hp)]; [auto | |].
          -- right. exists a. split; [lia | auto].
          -- right. exists i. split; [lia | auto].
        * intros [H | (i & Hi & Hn & Hp)]; [auto|].
          destruct (Nat.eq_dec i a) as [->|Hne]; [left; right; exact Hp|].
          right. exists i. split; [lia | auto]. }
  rewrite G. split; intros [H | (i & Hi & Hn & Hp)]; auto;
    right; exists i; (split; [lia | auto]).
Qed.

(** What one step of the loop can do. *)
Lemma label_step_cases (l1 l2 : list value) (st st' : labels) (e : entry) :
  label_step l1 l2 st e = Ok st' ->
  (score e > 0
   /\ ~ In (row_of e) (seen_l1_indices st) /\ ~ In (col_of e) (seen_l2_indices st)
   /\ st' = queue_pair st (seen_l1_indices st ++ [row_of e])
                       (seen_l2_indices st ++ [col_of e])
                       (row_of e) (col_of e) (same_container l1 l2 (position e)))
  \/ (score e = 0 /\ st' = mark_right (mark_left st (row_of e)) (col_of e))
  \/ (st' = st /\ score e <> 0
      /\ (score e > 0 ->
          In (row_of e) (seen_l1_indices st) \/ In (col_of e) (seen_l2_indices st))).
Proof.
  unfold label_step. intros H.
  destruct (Z.gtb_spec (score e) 0) as [Hpos | Hnonpos]; simpl in H.
  - destruct (set_mem Nat.eqb (row_of e) (seen_l1_indices st)) eqn:M1; simpl in H.
    { right. right. replace (score e =? 0) with false in H
        by (symmetry; apply Z.eqb_neq; lia).
      inversion H; subst. split; [reflexivity|]. split; [lia|]. intros _. left.
      apply (set_mem_in Nat.eqb nat_eqb_eq). exact M1. }
    destruct (set_mem Nat.eqb (col_of e) (seen_l2_indices st)) eqn:M2; simpl in H.
    { right. right. replace (score e =? 0) with false in H
        by (symmetry; apply Z.eqb_neq; lia).
      inversion H; subst. split; [reflexivity|]. split; [lia|]. intros _. right.
      apply (set_mem_in Nat.eqb nat_eqb_eq). exact M2. }
    left.
    apply (set_mem_not_in Nat.eqb nat_eqb_eq) in M1.
    apply (set_mem_not_in Nat.eqb nat_eqb_eq) in M2.
    rewrite (set_add_new Nat.eqb nat_eqb_eq _ _ M1) in H.
    rewrite (set_add_new Nat.eqb nat_eqb_eq _ _ M2) in H.
    split; [lia|]. split; [exact M1|]. split; [exact M2|].
    unfold both_have_type, index, same_container, position in *. simpl.
    destruct (nth_error l1 (row_of e)) as [x|]; simpl in H; [|discriminate].
    destruct x as [a|d|xs]; simpl in H.
    + inversion H; subst. destruct (nth_error l2 (col_of e)); reflexivity.
    + destruct (nth_error l2 (col_of e)) as [y|]; simpl in H; [|discriminate].
      destruct (is_dict y) eqn:Dy; simpl in H; inversion H; subst; simpl;
        rewrite ?andb_false_r; reflexivity.
    + destruct (nth_error l2 (col_of e)) as [y|]; simpl in H; [|discriminate].
      inversion H; subst. reflexivity.
  - destruct (Z.eqb_spec (score e) 0) as [Hz | Hnz].
    + right. left. inversion H; subst. split; [assumption | reflexivity].
    + right. right. inversion H; subst. split; [reflexivity|]. split; [assumption|]. lia.
Qed.

Lemma mark_left_fields (st : labels) (r : nat) :
  seen_l1_indices (mark_left st r) = seen_l1_indices st
  /\ seen_l2_indices (mark_left st r) = seen_l2_indices st
  /\ to_recurse (mark_left st r) = to_recurse st
  /\ mismatch_l2_indices (mark_left st r) = mismatch_l2_indices st
  /\ (forall i, In i (mismatch_l1_indices (mark_left st r))
                <-> In i (mismatch_l1_indices st) \/ (i = r /\ ~ In r (seen_l1_indices st)))
  /\ (forall p, In p (mismatch_set (mark_left st r))
                <-> In p (mismatch_set st)
                    \/ (p = (Some r, None) /\ ~ In r (seen_l1_indices st))).
Proof.
  unfold mark_left.
  destruct (set_mem Nat.eqb r (seen_l1_indices st)) eqn:M; simpl.
  - apply (set_mem_in Nat.eqb nat_eqb_eq) in M. repeat split; auto; tauto.
  - apply (set_mem_not_in Nat.eqb nat_eqb_eq) in M. repeat split; auto.
    + rewrite (set_add_in Nat.eqb nat_eqb_eq). tauto.
    + rewrite (set_add_in Nat.eqb nat_eqb_eq). tauto.
    + rewrite (set_add_in index_pair_eqb index_pair_eqb_eq). tauto.
    + rewrite (set_add_in index_pair_eqb index_pair_eqb_eq). tauto.
Qed.

Lemma mark_right_fields (st : labels) (c : nat) :
  seen_l1_indices (mark_right st c) = seen_l1_indices st
  /\ seen_l2_indices (mark_right st c) = seen_l2_indices st
  /\ to_recurse (mark_right st c) = to_recurse st
  /\ mismatch_l1_indices (mark_right st c) = mismatch_l1_indices st
  /\ (forall i, In i (mismatch_l2_indices (mark_right st c))
                <-> In i (mismatch_l2_indices st) \/ (i = c /\ ~ In c (seen_l2_indices st)))
  /\ (forall p, In p (mismatch_set (mark_right st c))
                <-> In p (mismatch_set st)
                    \/ (p = (None, Some c) /\ ~ In c (seen_l2_indices st))).
Proof.
  unfold mark_right.
  destruct (set_mem Nat.eqb c (seen_l2_indices st)) eqn:M; simpl.
  - apply (set_mem_in Nat.eqb nat_eqb_eq) in M. repeat split; auto; tauto.
  - apply (set_mem_not_in Nat.eqb nat_eqb_eq) in M. repeat split; auto.
    + rewrite (set_add_in Nat.eqb nat_eqb_eq). tauto.
    + rewrite (set_add_in Nat.eqb nat_eqb_eq). tauto.
    + rewrite (set_add_in index_pair_eqb index_pair_eqb_eq). tauto.
    + rewrite (set_add_in index_pair_eqb index_pair_eqb_eq). tauto.
Qed.

Lemma NoDup_snoc {A} (l : list A) (x : A) : NoDup l -> ~ In x l -> NoDup (l ++ [x]).
Proof.
  intros N H. induction l as [|y l IH]; simpl.
  - constructor; [intros [] | constructor].
  - inversion N; subst. constructor.
    + rewrite in_app_iff. simpl. intros [Hy | [E | []]]; [contradiction|].
      subst. apply H. left. reflexivity.
    + apply IH; [assumption|]. intros Hx. apply H. right. exact Hx.
Qed.

Lemma descending_tail (e : entry) (post : list entry) :
  descending (e :: post) -> score e <= 0 -> Forall (fun b => score b <= 0) post.
Proof.
  intros D H. apply descending_cons_inv in D. destruct D as [F _].
  eapply Forall_impl; [|exact F]. intros b Hb. simpl in Hb. lia.
Qed.

(** One step of the loop keeps the matching state. *)
Lemma label_step_matching (l1 l2 : list value) (pre post claimed : list entry)
      (e : entry) (st st' : labels) :
  descending (e :: post) ->
  matching_state l1 l2 pre (e :: post) claimed st ->
  label_step l1 l2 st e = Ok st' ->
  exists claimed', matching_state l1 l2 (pre ++ [e]) post claimed' st'.
Proof.
  intros D (A1 & A2 & A3 & A4 & A5 & A6 & A7 & A8 & A9 & A10 & A11 & A12
            & B1 & B2 & A13) H.
  assert (B1' : forall r, In r (mismatch_l1_indices st) ->
                          exists x, In x (pre ++ [e]) /\ row_of x = r).
  { intros r Hin. destruct (B1 r Hin) as (x & Hx & Hr). exists x. split; [|exact Hr].
    apply in_or_app. left. exact Hx. }
  assert (B2' : forall c, In c (mismatch_l2_indices st) ->
                          exists x, In x (pre ++ [e]) /\ col_of x = c).
  { intros c Hin. destruct (B2 c Hin) as (x & Hx & Hc). exists x. split; [|exact Hc].
    apply in_or_app. left. exact Hx. }
  assert (Hlast : In e (pre ++ [e])) by (apply in_or_app; right; left; reflexivity).
  assert (Hpre : forall x, In x pre -> In x (pre ++ [e]))
    by (intros x Hx; apply in_or_app; left; exact Hx).
  assert (A5' : Forall (fun x => score x > 0 /\ In x (pre ++ [e])) claimed).
  { eapply Forall_impl; [|exact A5]. intros x [Hs Hx]. auto. }
  destruct (label_step_cases l1 l2 st st' e H)
    as [(Hpos & Hr & Hc & ->) | [(Hz & ->) | (-> & Hnz & Hskip)]].
  - (* the entry is claimed *)
    assert (Hms : mismatch_set st = []).
    { destruct A13 as [E | F]; [exact E|]. inversion F; subst. lia. }
    assert (Hm1 : forall r, ~ In r (mismatch_l1_indices st)).
    { intros r Hin. apply A8 in Hin. rewrite Hms in Hin. destruct Hin. }
    assert (Hm2 : forall c, ~ In c (mismatch_l2_indices st)).
    { intros c Hin. apply A9 in Hin. rewrite Hms in Hin. destruct Hin. }
    exists (claimed ++ [e]). unfold matching_state, queue_pair. simpl.
    rewrite !map_app, filter_app. simpl.
    split; [rewrite A1; reflexivity|]. split; [rewrite A2; reflexivity|].
    split; [apply NoDup_snoc; [assumption | rewrite <- A1; assumption]|].
    split; [apply NoDup_snoc; [assumption | rewrite <- A2; assumption]|].
    split.
    { apply Forall_app. split; [exact A5'|]. constructor; [|constructor].
      split; [assumption|]. apply in_or_app. right. left. reflexivity. }
    split.
    { rewrite A6. destruct (same_container l1 l2 (position e)); simpl.
      - rewrite map_app. reflexivity.
      - rewrite app_nil_r. reflexivity. }
    split.
    { intros x Hx Hsx. apply in_app_or in Hx. destruct Hx as [Hx | [<- | []]].
      - destruct (A7 x Hx Hsx) as [Hin | Hin]; [left | right];
          apply in_or_app; left; exact Hin.
      - left. apply in_or_app. right. left. reflexivity. }
    repeat (split; [assumption|]).
    split; [intros r Hin; exfalso; exact (Hm1 r Hin)|].
    split; [intros c Hin; exfalso; exact (Hm2 c Hin)|].
    split; [exact B1'|]. split; [exact B2'|].
    left. exact Hms.
  - (* a zero score *)
    destruct (mark_left_fields st (row_of e)) as (L1 & L2 & L3 & L4 & L5 & L6).
    destruct (mark_right_fields (mark_left st (row_of e)) (col_of e))
      as (R1 & R2 & R3 & R4 & R5 & R6).
    exists claimed. unfold matching_state.
    rewrite R1, R2, R3, R4, L1, L2, L3.
    split; [assumption|]. split; [assumption|]. split; [assumption|].
    split; [assumption|]. split; [assumption|]. split; [assumption|].
    split.
    { intros x Hx Hsx. apply in_app_or in Hx. destruct Hx as [Hx | [<- | []]].
      - apply A7; assumption.
      - lia. }
    split.
    { intros r. rewrite R6, L5, L6, A8. split.
      - intros [Hin | [-> Hn]]; [auto|]. left. right. auto.
      - intros [[Hin | [E Hn]] | [E _]]; [auto | | discriminate].
        inversion E; subst. right. auto. }
    split.
    { intros c. rewrite R5, R6, L4, L6, A9, L2. split.
      - intros [Hin | [-> Hn]]; [auto|]. right. auto.
      - intros [[Hin | [E _]] | [E Hn]]; [auto | discriminate |].
        inversion E; subst. right. auto. }
    split.
    { intros p. rewrite R6, L6. intros [[Hin | [-> _]] | [-> _]]; eauto. }
    split.
    { intros r. rewrite L5. intros [Hin | [-> Hn]]; [apply A11; exact Hin | exact Hn]. }
    split.
    { intros c. rewrite R5, L4, L2.
      intros [Hin | [-> Hn]]; [apply A12; exact Hin | exact Hn]. }
    split.
    { intros r. rewrite L5. intros [Hin | [-> _]]; [apply B1'; exact Hin | eauto]. }
    split.
    { intros c. rewrite R5, L4. intros [Hin | [-> _]]; [apply B2'; exact Hin | eauto]. }
    right. apply (descending_tail e post D). lia.
  - (* skipped *)
    exists claimed. unfold matching_state.
    split; [assumption|]. split; [assumption|]. split; [assumption|].
    split; [assumption|]. split; [assumption|]. split; [assumption|].
    split.
    { intros x Hx Hsx. apply in_app_or in Hx. destruct Hx as [Hx | [<- | []]].
      - apply A7; assumption.
      - apply Hskip. assumption. }
    repeat (split; [assumption|]).
    destruct A13 as [E | F]; [left; exact E | right; inversion F; assumption].
Qed.

Lemma label_all_matching (l1 l2 : list value) (post pre claimed : list entry)
      (st st' : labels) :
  descending post ->
  matching_state l1 l2 pre post claimed st ->
  label_all l1 l2 post st = Ok st' ->
  exists claimed', matching_state l1 l2 (pre ++ post) [] claimed' st'.
Proof.
  revert pre claimed st. induction post as [|e post IH]; intros pre claimed st D Inv H.
  - simpl in H. inversion H; subst. rewrite app_nil_r. eauto.
  - simpl in H. destruct (label_step l1 l2 st e) as [st1| |] eqn:E; simpl in H;
      try discriminate.
    destruct (label_step_matching l1 l2 pre post claimed e st st1 D Inv E)
      as (claimed1 & Inv1).
    apply descending_cons_inv in D. destruct D as [_ D].
    destruct (IH (pre ++ [e]) claimed1 st1 D Inv1 H) as (claimed' & Inv').
    rewrite <- app_assoc in Inv'. eauto.
Qed.

Lemma matching_state_start (l1 l2 : list value) (sl : list entry) :
  matching_state l1 l2 [] sl [] no_labels.
Proof.
  unfold matching_state, no_labels. simpl.
  repeat split; try constructor; try tauto; try (intros ? []); auto.
Qed.

(** The rows and columns of a returned matrix. *)
Lemma entry_in_matrix (l1 l2 : list value) (m : matrix) (e : entry) :
  _create_similarity_matrix l1 l2 = Ok m ->
  In e (_sort_similarity_matrix m) ->
  (row_of e < length l2)%nat /\ (col_of e < length l1)%nat.
Proof.
  destruct e as [[s r] c]. unfold row_of, col_of. simpl. intros H Hin.
  apply rank_entries in Hin. apply (matrix_shape l1 l2 m r c H). congruence.
Qed.

(** A positive pair of a returned matrix has its cell. *)
Lemma positive_pair_cell (l1 l2 : list value) (m : matrix) (i j : nat) (x y : value) :
  _create_similarity_matrix l1 l2 = Ok m ->
  nth_error l1 i = Some x -> nth_error l2 j = Some y ->
  (0 < similarity x y)%nat ->
  cell m i j = Some (Z.of_nat (similarity x y)).
Proof.
  intros H Hx Hy Hpos.
  destruct (cell m i j) as [s|] eqn:Ec.
  - f_equal. eapply matrix_cell_similarity; eauto.
  - exfalso. pose proof H as H'.
    unfold _create_similarity_matrix in H'. rewrite score_from_pairs in H'.
    destruct (incr_pairs_outcome (ballots (parse_from 0 l2 empty_tables) 0 l1)
                                 (zeros (length l2) (length l1)))
      as [[F _] | [_ Hraise]]; [|congruence].
    rewrite Forall_forall in F.
    assert (Hin : In (i, j) (ballots (parse_from 0 l2 empty_tables) 0 l1))
      by (apply ballot_iff; eauto).
    specialize (F _ Hin). simpl in F.
    rewrite (incr_pairs_cells _ _ _ H') in Ec.
    destruct (cell (zeros (length l2) (length l1)) i j); [discriminate | congruence].
Qed.

(** A positive entry of the ranked list names a pair of elements. *)
Lemma positive_entry_pair (l1 l2 : list value) (m : matrix) (e : entry) :
  _create_similarity_matrix l1 l2 = Ok m ->
  In e (_sort_similarity_matrix m) -> score e > 0 ->
  exists x y,
    nth_error l1 (row_of e) = Some x /\ nth_error l2 (col_of e) = Some y
    /\ (0 < similarity x y)%nat /\ score e = Z.of_nat (similarity x y).
Proof.
  destruct e as [[s r] c]. unfold score, row_of, col_of. simpl. intros H Hin Hpos.
  apply rank_entries in Hin. pose proof H as H'.
  unfold _create_similarity_matrix in H'. rewrite score_from_pairs in H'.
  pose proof Hin as Hc. rewrite (incr_pairs_cells _ _ _ H') in Hc.
  destruct (cell (zeros (length l2) (length l1)) r c) as [z|] eqn:Ez;
    simpl in Hc; [|discriminate].
  rewrite cell_zeros in Ez. destruct (_ && _); [|discriminate].
  inversion Ez; subst z. inversion Hc as [Hs]. simpl in Hs.
  assert (Hb : In (r, c) (ballots (parse_from 0 l2 empty_tables) 0 l1)).
  { unfold count_pos in Hs.
    destruct (filter (pos_eqb (r, c)) _) as [|p rest] eqn:F; [simpl in Hs; lia|].
    assert (Hp : In p (filter (pos_eqb (r, c))
                         (ballots (parse_from 0 l2 empty_tables) 0 l1)))
      by (rewrite F; left; reflexivity).
    apply filter_In in Hp. destruct Hp as [Hp Hq].
    unfold pos_eqb in Hq. apply andb_true_iff in Hq. simpl in Hq.
    destruct Hq as [Q1 Q2]. apply Nat.eqb_eq in Q1, Q2.
    destruct p as [a b]. simpl in *. subst. exact Hp. }
  apply ballot_iff in Hb. destruct Hb as (x & y & Hx & Hy & Hsim).
  exists x, y. repeat split; try assumption.
  rewrite Hs. exact (matrix_cell_similarity l1 l2 m r c x y s H Hx Hy Hin).
Qed.

(** The state in which the matching loop ends. *)
Lemma match_elements_state (l1 l2 : list value) (st : labels) :
  match_elements l1 l2 = Ok st ->
  exists m st0 claimed,
    _create_similarity_matrix l1 l2 = Ok m
    /\ matching_state l1 l2 (_sort_similarity_matrix m) [] claimed st0
    /\ st = label_stragglers l1 l2 st0.
Proof.
  unfold match_elements. intros H.
  destruct (_create_similarity_matrix l1 l2) as [m| |] eqn:Em; simpl in H; try discriminate.
  destruct (label_all l1 l2 (_sort_similarity_matrix m) no_labels) as [st0| |] eqn:E;
    simpl in H; try discriminate.
  inversion H; subst.
  destruct (label_all_matching l1 l2 (_sort_similarity_matrix m) [] [] no_labels st0)
    as (claimed & Inv).
  - unfold _sort_similarity_matrix. apply sort_descending.
  - apply matching_state_start.
  - exact E.
  - exists m, st0, claimed. simpl in Inv. auto.
Qed.

Lemma label_stragglers_fields (l1 l2 : list value) (st : labels) :
  seen_l1_indices (label_stragglers l1 l2 st) = seen_l1_indices st
  /\ seen_l2_indices (label_stragglers l1 l2 st) = seen_l2_indices st
  /\ to_recurse (label_stragglers l1 l2 st) = to_recurse st.
Proof. repeat split. Qed.

Lemma label_stragglers_set (l1 l2 : list value) (st : labels) (p : index_pair) :
  In p (mismatch_set (label_stragglers l1 l2 st))
  <-> In p (mismatch_set st)
      \/ (exists i, (i < length l1)%nat /\ ~ In i (seen_l1_indices st)
                    /\ ~ In i (mismatch_l1_indices st) /\ p = (Some i, None))
      \/ (exists j, (j < length l2)%nat /\ ~ In j (seen_l2_indices st)
                    /\ ~ In j (mismatch_l2_indices st) /\ p = (None, Some j)).
Proof.
  unfold label_stragglers. cbn [mismatch_set]. rewrite !stragglers_in. split.
  - intros [[H | (i & Hi & Hn & ->)] | (j & Hj & Hn & ->)]; [auto | |].
    + right. left. exists i. rewrite (set_add_all_in Nat.eqb nat_eqb_eq) in Hn.
      repeat split; auto.
    + right. right. exists j. rewrite (set_add_all_in Nat.eqb nat_eqb_eq) in Hn.
      repeat split; auto.
  - intros [H | [(i & Hi & H1 & H2 & ->) | (j & Hj & H1 & H2 & ->)]]; [auto | |].
    + left. right. exists i. rewrite (set_add_all_in Nat.eqb nat_eqb_eq).
      repeat split; tauto.
    + right. exists j. rewrite (set_add_all_in Nat.eqb nat_eqb_eq).
      repeat split; tauto.
Qed.

(** No index is both claimed and reported. *)
Lemma every_index_covered (l1 l2 : list value) (st : labels) :
  match_elements l1 l2 = Ok st ->
  (forall i, (i < length l1)%nat ->
             ~ (In i (seen_l1_indices st) /\ In (Some i, None) (mismatch_set st)))
  /\ (forall j, (j < length l2)%nat ->
                ~ (In j (seen_l2_indices st) /\ In (None, Some j) (mismatch_set st))).
Proof.
  intros H. destruct (match_elements_state l1 l2 st H) as (m & st0 & claimed & Hm & Inv & ->).
  destruct Inv as (_ & _ & _ & _ & _ & _ & _ & A8 & A9 & A10 & A11 & A12 & _ & _ & _).
  cbn [label_stragglers seen_l1_indices seen_l2_indices].
  fold (mismatch_set (label_stragglers l1 l2 st0)).
  split.
  - intros i Hi. rewrite label_stragglers_set.
    intros [Hs [Hin | [(i' & _ & Hn & _ & E) | (j & _ & _ & _ & E)]]].
    + apply A8 in Hin. exact (A11 i Hin Hs).
    + inversion E; subst. contradiction.
    + discriminate.
  - intros j Hj. rewrite label_stragglers_set.
    intros [Hs [Hin | [(i & _ & _ & _ & E) | (j' & _ & Hn & _ & E)]]].
    + apply A9 in Hin. exact (A12 j Hin Hs).
    + discriminate.
    + inversion E; subst. contradiction.
Qed.

(** X6: the matching phase claims pairs one after the other, each of a
    positive score, and no index twice: the claimed left indices are
    pairwise different, so are the claimed right indices, and the
    recursion queue holds, in the order of the claims, exactly the
    claimed pairs of two mappings or two sequences. *)
Theorem matching_is_injective (l1 l2 : list value) (st : labels) :
  match_elements l1 l2 = Ok st ->
  exists claimed : list entry,
    seen_l1_indices st = map row_of claimed
    /\ seen_l2_indices st = map col_of claimed
    /\ NoDup (seen_l1_indices st)
    /\ NoDup (seen_l2_indices st)
    /\ Forall (fun e => exists x y,
                   nth_error l1 (row_of e) = Some x
                   /\ nth_error l2 (col_of e) = Some y
                   /\ (0 < similarity x y)%nat
                   /\ score e = Z.of_nat (similarity x y)) claimed
    /\ to_recurse st
       = map position (filter (fun e => same_container l1 l2 (position e)) claimed).
Proof.
  intros H. destruct (match_elements_state l1 l2 st H) as (m & st0 & claimed & Hm & Inv & ->).
  destruct Inv as (A1 & A2 & A3 & A4 & A5 & A6 & _).
  exists claimed. cbn [label_stragglers seen_l1_indices seen_l2_indices to_recurse].
  split; [exact A1|]. split; [exact A2|].
  split; [rewrite A1; exact A3|]. split; [rewrite A2; exact A4|].
  split; [|exact A6].
  eapply Forall_impl; [|exact A5]. intros e [Hs Hin].
  apply (positive_entry_pair l1 l2 m e Hm Hin Hs).
Qed.

Lemma matching_is_injective_witness :
  exists claimed : list entry,
    [3%nat; 1%nat; 0%nat] = map row_of claimed
    /\ [3%nat; 1%nat; 0%nat] = map col_of claimed
    /\ NoDup [3%nat; 1%nat; 0%nat]
    /\ NoDup [3%nat; 1%nat; 0%nat]
    /\ Forall (fun e => exists x y,
                   nth_error (ints [1; 2; 3; 5]) (row_of e) = Some x
                   /\ nth_error (ints [1; 2; 4; 5]) (col_of e) = Some y
                   /\ (0 < similarity x y)%nat
                   /\ score e = Z.of_nat (similarity x y)) claimed
    /\ [] = map position
              (filter (fun e => same_container (ints [1; 2; 3; 5]) (ints [1; 2; 4; 5])
                                               (position e)) claimed).
Proof.
  apply (matching_is_injective (ints [1; 2; 3; 5]) (ints [1; 2; 4; 5])
           (mk_labels [3%nat; 1%nat; 0%nat] [2%nat] [3%nat; 1%nat; 0%nat] [2%nat]
                      [(None, Some 2%nat); (Some 2%nat, None)] [])).
  vm_compute. reflexivity.
Defined.

(** X7: when the matching phase ends, every index of [l1] is either
    claimed as a match or reported as a left-only mismatch, never both,
    and likewise every index of [l2] on the right; the mismatch set
    holds one-sided pairs only. *)
Theorem every_index_matched_or_reported (l1 l2 : list value) (st : labels) :
  match_elements l1 l2 = Ok st ->
  (forall i, (i < length l1)%nat ->
             (In i (seen_l1_indices st) \/ In (Some i, None) (mismatch_set st))
             /\ ~ (In i (seen_l1_indices st) /\ In (Some i, None) (mismatch_set st)))
  /\ (forall j, (j < length l2)%nat ->
                (In j (seen_l2_indices st) \/ In (None, Some j) (mismatch_set st))
                /\ ~ (In j (seen_l2_indices st) /\ In (None, Some j) (mismatch_set st)))
  /\ (forall p, In p (mismatch_set st) ->
                (exists i, p = (Some i, None)) \/ (exists j, p = (None, Some j))).
Proof.
  intros H. destruct (match_elements_state l1 l2 st H) as (m & st0 & claimed & Hm & Inv & ->).
  destruct Inv as (_ & _ & _ & _ & _ & _ & _ & A8 & A9 & A10 & A11 & A12 & _ & _ & _).
  cbn [label_stragglers seen_l1_indices seen_l2_indices].
  fold (mismatch_set (label_stragglers l1 l2 st0)).
  split; [|split].
  - intros i Hi. rewrite label_stragglers_set. split.
    + destruct (in_dec Nat.eq_dec i (seen_l1_indices st0)) as [Hs | Hs]; [auto|].
      right. destruct (in_dec Nat.eq_dec i (mismatch_l1_indices st0)) as [Hmm | Hmm].
      * left. apply A8. exact Hmm.
      * right. left. exists i. auto.
    + intros [Hs [Hin | [(i' & _ & Hn & _ & E) | (j & _ & _ & _ & E)]]].
      * apply A8 in Hin. exact (A11 i Hin Hs).
      * inversion E; subst. contradiction.
      * discriminate.
  - intros j Hj. rewrite label_stragglers_set. split.
    + destruct (in_dec Nat.eq_dec j (seen_l2_indices st0)) as [Hs | Hs]; [auto|].
      right. destruct (in_dec Nat.eq_dec j (mismatch_l2_indices st0)) as [Hmm | Hmm].
      * left. apply A9. exact Hmm.
      * right. right. exists j. auto.
    + intros [Hs [Hin | [(i & _ & _ & _ & E) | (j' & _ & Hn & _ & E)]]].
      * apply A9 in Hin. exact (A12 j Hin Hs).
      * discriminate.
      * inversion E; subst. contradiction.
  - intros p. rewrite label_stragglers_set.
    intros [Hin | [(i & _ & _ & _ & ->) | (j & _ & _ & _ & ->)]]; eauto.
Qed.

Lemma every_index_matched_or_reported_witness :
  (forall i, lt i (length (ints [1; 2; 3; 5])) ->
             (In i [3%nat; 1%nat; 0%nat]
              \/ In (Some i, None) [(None, Some 2%nat); (Some 2%nat, None)])
             /\ ~ (In i [3%nat; 1%nat; 0%nat]
                   /\ In (Some i, None) [(None, Some 2%nat); (Some 2%nat, None)]))
  /\ (forall j, lt j (length (ints [1; 2; 4; 5])) ->
                (In j [3%nat; 1%nat; 0%nat]
                 \/ In (None, Some j) [(None, Some 2%nat); (Some 2%nat, None)])
                /\ ~ (In j [3%nat; 1%nat; 0%nat]
                      /\ In (None, Some j) [(None, Some 2%nat); (Some 2%nat, None)]))
  /\ (forall p, In p [(None, Some 2%nat); (Some 2%nat, None)] ->
                (exists i, p = (Some i, None)) \/ (exists j, p = (None, Some j))).
Proof.
  apply (every_index_matched_or_reported (ints [1; 2; 3; 5]) (ints [1; 2; 4; 5])
           (mk_labels [3%nat; 1%nat; 0%nat] [2%nat] [3%nat; 1%nat; 0%nat] [2%nat]
                      [(None, Some 2%nat); (Some 2%nat, None)] [])).
  vm_compute. reflexivity.
Defined.

(** X8: the greedy matching is maximal: when the matching phase ends,
    of two elements with a positive similarity at least one is claimed;
    so two elements that are both reported as one-sided mismatches have
    similarity 0. *)
Theorem matching_is_maximal
        (l1 l2 : list value) (st : labels) (i j : nat) (x y : value) :
  match_elements l1 l2 = Ok st ->
  nth_error l1 i = Some x -> nth_error l2 j = Some y ->
  ((0 < similarity x y)%nat ->
   In i (seen_l1_indices st) \/ In j (seen_l2_indices st))
  /\ (In (Some i, None) (mismatch_set st) -> In (None, Some j) (mismatch_set st) ->
      similarity x y = 0%nat).
Proof.
  intros H Hx Hy.
  destruct (match_elements_state l1 l2 st H) as (m & st0 & claimed & Hm & Inv & E).
  assert (Hmax : (0 < similarity x y)%nat ->
                 In i (seen_l1_indices st) \/ In j (seen_l2_indices st)).
  { intros Hpos. subst st. cbn [label_stragglers seen_l1_indices seen_l2_indices].
    destruct Inv as (_ & _ & _ & _ & _ & _ & A7 & _).
    apply (A7 (Z.of_nat (similarity x y), i, j)).
    - apply rank_entries. apply (positive_pair_cell l1 l2 m i j x y Hm Hx Hy Hpos).
    - unfold score. simpl. lia. }
  split; [exact Hmax|].
  intros Hl Hr. destruct (similarity x y) as [|n] eqn:Es; [reflexivity|]. exfalso.
  destruct (every_index_covered l1 l2 st H) as (P1 & P2).
  assert (Hi : (i < length l1)%nat) by (apply nth_error_Some; congruence).
  assert (Hj : (j < length l2)%nat) by (apply nth_error_Some; congruence).
  destruct (Hmax ltac:(lia)) as [Hs | Hs].
  - apply (P1 i Hi). auto.
  - apply (P2 j Hj). auto.
Qed.

Lemma matching_is_maximal_witness :
  ((0 < similarity (int 3) (int 4))%nat ->
   In 2%nat [3%nat; 1%nat; 0%nat] \/ In 2%nat [3%nat; 1%nat; 0%nat])
  /\ (In (Some 2%nat, None) [(None, Some 2%nat); (Some 2%nat, None)] ->
      In (None, Some 2%nat) [(None, Some 2%nat); (Some 2%nat, None)] ->
      similarity (int 3) (int 4) = 0%nat).
Proof.
  apply (matching_is_maximal (ints [1; 2; 3; 5]) (ints [1; 2; 4; 5])
           (mk_labels [3%nat; 1%nat; 0%nat] [2%nat] [3%nat; 1%nat; 0%nat] [2%nat]
                      [(None, Some 2%nat); (Some 2%nat, None)] [])
           2 2 (int 3) (int 4)); [vm_compute; reflexivity | reflexivity | reflexivity].
Defined.

(** With three elements on the left and one on the right, nothing in
    common: the right-only mismatches name the indices 1 and 2, which
    the right list does not have. *)
Example reported_indices_beyond_the_list :
  match_elements (ints [1; 2; 3]) (ints [4])
  = Ok (mk_labels [] [0%nat] [] [2%nat; 1%nat; 0%nat]
                  [(Some 0%nat, None); (None, Some 2%nat); (None, Some 1%nat);
                   (None, Some 0%nat); (Some 1%nat, None); (Some 2%nat, None)] []).
Proof. vm_compute. reflexivity. Qed.

(** X9: every index that the matching phase reports as a one-sided
    mismatch lies below the length of the longer list; when the two
    lists have the same length, every reported left index is an index
    of [l1] and every reported right index an index of [l2]. *)
Theorem reported_indices_in_range (l1 l2 : list value) (st : labels) :
  match_elements l1 l2 = Ok st ->
  (forall i, In (Some i, None) (mismatch_set st) ->
             (i < Nat.max (length l1) (length l2))%nat)
  /\ (forall j, In (None, Some j) (mismatch_set st) ->
                (j < Nat.max (length l1) (length l2))%nat)
  /\ (length l1 = length l2 ->
      (forall i, In (Some i, None) (mismatch_set st) -> (i < length l1)%nat)
      /\ (forall j, In (None, Some j) (mismatch_set st) -> (j < length l2)%nat)).
Proof.
  intros H. destruct (match_elements_state l1 l2 st H) as (m & st0 & claimed & Hm & Inv & ->).
  destruct Inv as (_ & _ & _ & _ & _ & _ & _ & A8 & A9 & _ & _ & _ & B1 & B2 & _).
  assert (L : forall i, In (Some i, None) (mismatch_set (label_stragglers l1 l2 st0)) ->
                        (i < length l1)%nat \/ (i < length l2)%nat).
  { intros i. rewrite label_stragglers_set.
    intros [Hin | [(i' & Hi & _ & _ & E) | (j & _ & _ & _ & E)]].
    - apply A8 in Hin. destruct (B1 i Hin) as (e & He & <-).
      right. apply (entry_in_matrix l1 l2 m e Hm He).
    - inversion E; subst. auto.
    - discriminate. }
  assert (R : forall j, In (None, Some j) (mismatch_set (label_stragglers l1 l2 st0)) ->
                        (j < length l2)%nat \/ (j < length l1)%nat).
  { intros j. rewrite label_stragglers_set.
    intros [Hin | [(i & _ & _ & _ & E) | (j' & Hj & _ & _ & E)]].
    - apply A9 in Hin. destruct (B2 j Hin) as (e & He & <-).
      right. apply (entry_in_matrix l1 l2 m e Hm He).
    - discriminate.
    - inversion E; subst. auto. }
  split; [intros i Hi; destruct (L i Hi); lia|].
  split; [intros j Hj; destruct (R j Hj); lia|].
  intros Hlen. split; [intros i Hi; destruct (L i Hi); lia|].
  intros j Hj; destruct (R j Hj); lia.
Qed.

Lemma reported_indices_in_range_witness :
  (forall i, In (Some i, None) [(None, Some 2%nat); (Some 2%nat, None)] ->
             lt i (Nat.max (length (ints [1; 2; 3; 5])) (length (ints [1; 2; 4; 5]))))
  /\ (forall j, In (None, Some j) [(None, Some 2%nat); (Some 2%nat, None)] ->
                lt j (Nat.max (length (ints [1; 2; 3; 5])) (length (ints [1; 2; 4; 5]))))
  /\ (length (ints [1; 2; 3; 5]) = length (ints [1; 2; 4; 5]) ->
      (forall i, In (Some i, None) [(None, Some 2%nat); (Some 2%nat, None)] ->
                 lt i (length (ints [1; 2; 3; 5])))
      /\ (forall j, In (None, Some j) [(None, Some 2%nat); (Some 2%nat, None)] ->
                    lt j (length (ints [1; 2; 4; 5])))).
Proof.
  apply (reported_indices_in_range (ints [1; 2; 3; 5]) (ints [1; 2; 4; 5])
           (mk_labels [3%nat; 1%nat; 0%nat] [2%nat] [3%nat; 1%nat; 0%nat] [2%nat]
                      [(None, Some 2%nat); (Some 2%nat, None)] [])).
  vm_compute. reflexivity.
Defined.

(** ** The paths that the differs return *)

Lemma leads_under_pair (i j : nat) (q : path) :
  leads_to_difference q = true ->
  leads_to_difference (IndexPair (Some i, Some j) :: q) = true.
Proof. destruct q; [discriminate|]. intros H. simpl in *. exact H. Qed.

Lemma leads_under_key (k : scalar) (q : path) :
  leads_to_difference q = true -> leads_to_difference (Key k :: q) = true.
Proof. destruct q; [discriminate|]. intros H. simpl in *. exact H. Qed.

Lemma result_lift {A} (m : outcome A) : result (lift m) = m.
Proof. reflexivity. Qed.

Lemma mismatch_set_one_sided (l1 l2 : list value) (st : labels) (p : index_pair) :
  match_elements l1 l2 = Ok st -> In p (mismatch_set st) -> one_sided p = true.
Proof.
  intros H. destruct (match_elements_state l1 l2 st H) as (m & st0 & claimed & Hm & Inv & ->).
  destruct Inv as (_ & _ & _ & _ & _ & _ & _ & _ & _ & A10 & _).
  rewrite label_stragglers_set.
  intros [Hin | [(i & _ & _ & _ & ->) | (j & _ & _ & _ & ->)]]; try reflexivity.
  destruct (A10 p Hin) as [(r & ->) | (c & ->)]; reflexivity.
Qed.

Section PathLoops.
Variable dict_diff_rec : dict -> dict -> io (list path).
Variable list_diff_rec : list value -> list value -> io (list path).
Hypothesis dict_paths :
  forall d1 d2 paths, result (dict_diff_rec d1 d2) = Ok paths ->
                      Forall (fun p => leads_to_difference p = true) paths.
Hypothesis list_paths :
  forall l1 l2 paths, result (list_diff_rec l1 l2) = Ok paths ->
                      Forall (fun p => leads_to_difference p = true) paths.

Lemma call_dict_diff_paths (a b : outcome value) (paths : list path) :
  result (call_dict_diff dict_diff_rec a b) = Ok paths ->
  Forall (fun p => leads_to_difference p = true) paths.
Proof.
  unfold call_dict_diff. intros H.
  apply result_bind_ok in H. destruct H as (x & _ & H).
  apply result_bind_ok in H. destruct H as (y & _ & H).
  apply result_bind_ok in H. destruct H as (d1 & _ & H).
  apply result_bind_ok in H. destruct H as (d2 & _ & H).
  eapply dict_paths; eauto.
Qed.

Lemma call_list_diff_paths (a b : outcome value) (paths : list path) :
  result (call_list_diff list_diff_rec a b) = Ok paths ->
  Forall (fun p => leads_to_difference p = true) paths.
Proof.
  unfold call_list_diff. intros H.
  apply result_bind_ok in H. destruct H as (x & _ & H).
  apply result_bind_ok in H. destruct H as (y & _ & H).
  apply result_bind_ok in H. destruct H as (d1 & _ & H).
  apply result_bind_ok in H. destruct H as (d2 & _ & H).
  eapply list_paths; eauto.
Qed.

Lemma append_under_pair_paths (i j : nat) (acc tmp : list path) :
  Forall (fun p => leads_to_difference p = true /\ starts_with_pair p = true) acc ->
  Forall (fun p => leads_to_difference p = true) tmp ->
  Forall (fun p => leads_to_difference p = true /\ starts_with_pair p = true)
         (append_under (IndexPair (Some i, Some j)) acc tmp).
Proof.
  intros Ha Ht. unfold append_under. apply Forall_app. split; [assumption|].
  apply Forall_forall. intros p Hp. apply in_map_iff in Hp.
  destruct Hp as (q & <- & Hq). rewrite Forall_forall in Ht.
  split; [apply leads_under_pair; auto | reflexivity].
Qed.

Lemma append_under_key_paths (k : scalar) (acc tmp : list path) :
  Forall (fun p => leads_to_difference p = true /\ starts_with_key p = true) acc ->
  Forall (fun p => leads_to_difference p = true) tmp ->
  Forall (fun p => leads_to_difference p = true /\ starts_with_key p = true)
         (append_under (Key k) acc tmp).
Proof.
  intros Ha Ht. unfold append_under. apply Forall_app. split; [assumption|].
  apply Forall_forall. intros p Hp. apply in_map_iff in Hp.
  destruct Hp as (q & <- & Hq). rewrite Forall_forall in Ht.
  split; [apply leads_under_key; auto | reflexivity].
Qed.

Lemma run_recursions_paths (l1 l2 : list value) (queue : list (nat * nat))
      (acc paths : list path) :
  result (run_recursions dict_diff_rec list_diff_rec l1 l2 queue acc) = Ok paths ->
  Forall (fun p => leads_to_difference p = true /\ starts_with_pair p = true) acc ->
  Forall (fun p => leads_to_difference p = true /\ starts_with_pair p = true) paths.
Proof.
  revert acc. induction queue as [|[i j] queue IH]; intros acc H Hacc.
  - inversion H; subst. assumption.
  - cbn [run_recursions] in H.
    apply result_bind_ok in H. destruct H as (dicts & _ & H). destruct dicts.
    + apply result_bind_ok in H. destruct H as (tmp & Ht & H).
      apply (IH _ H). apply append_under_pair_paths; [assumption|].
      eapply call_dict_diff_paths; eauto.
    + apply result_bind_ok in H. destruct H as (lists & _ & H). destruct lists.
      * apply result_bind_ok in H. destruct H as (tmp & Ht & H).
        apply (IH _ H). apply append_under_pair_paths; [assumption|].
        eapply call_list_diff_paths; eauto.
      * apply result_bind_ok in H. destruct H as (u & _ & H). apply (IH _ H Hacc).
Qed.

Lemma recurse_dict_keys_wf (d1 d2 : dict) (ks : list scalar) (acc paths : list path) :
  result (recurse_dict_keys dict_diff_rec d1 d2 ks acc) = Ok paths ->
  Forall (fun p => leads_to_difference p = true /\ starts_with_key p = true) acc ->
  Forall (fun p => leads_to_difference p = true /\ starts_with_key p = true) paths.
Proof.
  revert acc. induction ks as [|k ks IH]; intros acc H Hacc.
  - inversion H; subst. assumption.
  - cbn [recurse_dict_keys] in H.
    apply result_bind_ok in H. destruct H as (tmp & Ht & H).
    apply (IH _ H). apply append_under_key_paths; [assumption|].
    eapply call_dict_diff_paths; eauto.
Qed.

Lemma recurse_list_keys_wf (d1 d2 : dict) (ks : list scalar) (acc paths : list path) :
  result (recurse_list_keys list_diff_rec d1 d2 ks acc) = Ok paths ->
  Forall (fun p => leads_to_difference p = true /\ starts_with_key p = true) acc ->
  Forall (fun p => leads_to_difference p = true /\ starts_with_key p = true) paths.
Proof.
  revert acc. induction ks as [|k ks IH]; intros acc H Hacc.
  - inversion H; subst. assumption.
  - cbn [recurse_list_keys] in H.
    apply result_bind_ok in H. destruct H as (tmp & Ht & H).
    apply (IH _ H). apply append_under_key_paths; [assumption|].
    eapply call_list_diff_paths; eauto.
Qed.
End PathLoops.

Section Paths.
Context {key_order : IterOrder scalar} {pair_order : IterOrder index_pair}.

Lemma differ_paths (fuel : nat) :
  (forall l1 l2 paths,
      result (list_diff fuel l1 l2) = Ok paths ->
      Forall (fun p => leads_to_difference p = true /\ starts_with_pair p = true) paths)
  /\ (forall d1 d2 paths,
         result (dict_diff fuel d1 d2) = Ok paths ->
         Forall (fun p => leads_to_difference p = true /\ starts_with_key p = true) paths).
Proof.
  induction fuel as [|fuel [IHl IHd]]; [split; intros; discriminate|].
  assert (Hl : forall l1 l2 paths, result (list_diff fuel l1 l2) = Ok paths ->
                                   Forall (fun p => leads_to_difference p = true) paths).
  { intros l1 l2 paths H. eapply Forall_impl; [|apply (IHl l1 l2 paths H)].
    intros p [Hp _]. exact Hp. }
  assert (Hd : forall d1 d2 paths, result (dict_diff fuel d1 d2) = Ok paths ->
                                   Forall (fun p => leads_to_difference p = true) paths).
  { intros d1 d2 paths H. eapply Forall_impl; [|apply (IHd d1 d2 paths H)].
    intros p [Hp _]. exact Hp. }
  split.
  - intros l1 l2 paths H. rewrite list_diff_S in H.
    apply result_bind_ok in H. destruct H as (st & Hst & H).
    rewrite result_lift in Hst.
    apply (run_recursions_paths _ _ Hd Hl _ _ _ _ _ H).
    apply Forall_forall. intros p Hp. apply in_map_iff in Hp.
    destruct Hp as (e & <- & He).
    assert (Hin : In e (mismatch_set st))
      by (eapply Permutation_in; [apply iter_set_perm | exact He]).
    pose proof (mismatch_set_one_sided l1 l2 st e Hst Hin) as Ho.
    split; [simpl; exact Ho | reflexivity].
  - intros d1 d2 paths H. rewrite dict_diff_S in H. unfold dict_diff_body in H.
    apply result_bind_ok in H. destruct H as (acc & H1 & H2).
    apply (recurse_list_keys_wf _ Hl _ _ _ _ _ H2).
    apply (recurse_dict_keys_wf _ Hd _ _ _ _ _ H1).
    destruct (classify_fold_cases d1 d2 (iter_set (key_union d1 d2)) (mk_classes [] [] []))
      as (_ & _ & C).
    apply Forall_forall. intros p Hp. destruct (C p Hp) as [[] | (k & -> & _)].
    split; reflexivity.
Qed.
End Paths.

(** X10: every path that [list_diff] returns starts with an index pair
    and every path that [dict_diff] returns starts with a key; each path
    is non-empty, each index pair before its end is a matched pair
    [(i, j)], and its last segment is a key or a one-sided pair
    [(i, None)] or [(None, j)]. *)
Theorem paths_lead_to_a_difference
        (key_order : IterOrder scalar) (pair_order : IterOrder index_pair)
        (fuel : nat) :
  (forall l1 l2 paths,
      result (list_diff fuel l1 l2) = Ok paths ->
      Forall (fun p => leads_to_difference p = true /\ starts_with_pair p = true) paths)
  /\ (forall d1 d2 paths,
         result (dict_diff fuel d1 d2) = Ok paths ->
         Forall (fun p => leads_to_difference p = true /\ starts_with_key p = true) paths).
Proof. apply differ_paths. Qed.

(** ** Errors and termination *)

Lemma both_have_type_outcome (is_t : value -> bool) (l1 l2 : list value) (i j : nat) :
  (both_have_type is_t l1 i l2 j = Raise IndexError)
  \/ (exists x, nth_error l1 i = Some x /\ is_t x = false
                /\ both_have_type is_t l1 i l2 j = Ok false)
  \/ (exists x y, nth_error l1 i = Some x /\ nth_error l2 j = Some y
                  /\ is_t x = true /\ both_have_type is_t l1 i l2 j = Ok (is_t y)).
Proof.
  unfold both_have_type, index.
  destruct (nth_error l1 i) as [x|]; simpl; [|auto].
  destruct (is_t x) eqn:E; [|right; left; eauto].
  destruct (nth_error l2 j) as [y|]; simpl; [|auto].
  right. right. exists x, y. auto.
Qed.

Lemma label_step_outcome (l1 l2 : list value) (st : labels) (e : entry) :
  (exists st', label_step l1 l2 st e = Ok st')
  \/ label_step l1 l2 st e = Raise IndexError.
Proof.
  unfold label_step. destruct (_ && _).
  - destruct (both_have_type_outcome is_dict l1 l2 (row_of e) (col_of e))
      as [-> | [(x & _ & _ & ->) | (x & y & _ & _ & _ & ->)]]; simpl; auto.
    + destruct (both_have_type_outcome is_list l1 l2 (row_of e) (col_of e))
        as [-> | [(x' & _ & _ & ->) | (x' & y' & _ & _ & _ & ->)]]; simpl; eauto.
    + destruct (is_dict y); [eauto|].
      destruct (both_have_type_outcome is_list l1 l2 (row_of e) (col_of e))
        as [-> | [(x' & _ & _ & ->) | (x' & y' & _ & _ & _ & ->)]]; simpl; eauto.
  - destruct (score e =? 0); eauto.
Qed.

Lemma label_all_outcome (l1 l2 : list value) (sl : list entry) (st : labels) :
  (exists st', label_all l1 l2 sl st = Ok st')
  \/ label_all l1 l2 sl st = Raise IndexError.
Proof.
  revert st. induction sl as [|e sl IH]; intros st; simpl; [eauto|].
  destruct (label_step_outcome l1 l2 st e) as [[st1 ->] | ->]; simpl; auto.
Qed.

(** The matching phase either ends or raises [IndexError]. *)
Lemma match_elements_outcome (l1 l2 : list value) :
  (exists st, match_elements l1 l2 = Ok st)
  \/ match_elements l1 l2 = Raise IndexError.
Proof.
  unfold match_elements, _create_similarity_matrix. rewrite score_from_pairs.
  destruct (incr_pairs_outcome (ballots (parse_from 0 l2 empty_tables) 0 l1)
                               (zeros (length l2) (length l1)))
    as [[_ [m ->]] | [_ ->]]; simpl; [|auto].
  destruct (label_all_outcome l1 l2 (_sort_similarity_matrix m) no_labels)
    as [[st ->] | ->]; simpl; eauto.
Qed.

Lemma result_bind_print {B} (line : string) (f : unit -> io B) :
  result (bind (print line) f) = result (f tt).
Proof. reflexivity. Qed.

Section OutcomeLoops.
Variable dict_diff_rec : dict -> dict -> io (list path).
Variable list_diff_rec : list value -> list value -> io (list path).
(** A property of outcomes that holds of results and of [IndexError]. *)
Variable Q : outcome (list path) -> Prop.
Hypothesis Q_ok : forall paths, Q (Ok paths).
Hypothesis Q_index : Q (Raise IndexError).

Lemma Q_bind (m : io (list path)) (f : list path -> io (list path)) :
  Q (result m) -> (forall a, result m = Ok a -> Q (result (f a))) ->
  Q (result (bind m f)).
Proof.
  intros Hm Hf. rewrite result_bind. destruct (result m) as [a|e|] eqn:E; auto.
Qed.

Lemma run_recursions_Q (l1 l2 : list value) (queue : list (nat * nat))
      (acc : list path) :
  (forall d1 d2, In (VDict d1) l1 -> In (VDict d2) l2 -> Q (result (dict_diff_rec d1 d2))) ->
  (forall x1 x2, In (VList x1) l1 -> In (VList x2) l2 -> Q (result (list_diff_rec x1 x2))) ->
  Q (result (run_recursions dict_diff_rec list_diff_rec l1 l2 queue acc)).
Proof.
  intros Hd Hl. revert acc. induction queue as [|[i j] queue IH]; intros acc.
  - apply Q_ok.
  - cbn [run_recursions].
    destruct (both_have_type_outcome is_dict l1 l2 i j)
      as [E | [(x & Ex & Dx & E) | (x & y & Ex & Ey & Dx & E)]]; rewrite E.
    + apply Q_index.
    + rewrite bind_lift_ok.
      destruct (both_have_type_outcome is_list l1 l2 i j)
        as [E' | [(x' & Ex' & Lx & E') | (x' & y' & Ex' & Ey' & Lx & E')]]; rewrite E'.
      * apply Q_index.
      * rewrite bind_lift_ok, result_bind_print. apply IH.
      * rewrite bind_lift_ok. destruct (is_list y') eqn:Ly.
        -- unfold index. rewrite Ex', Ey'.
           destruct x' as [|?|x1]; try discriminate.
           destruct y' as [|?|x2]; try discriminate.
           unfold call_list_diff. rewrite !bind_lift_ok. cbn [as_list].
           rewrite !bind_lift_ok. apply Q_bind; [|intros; apply IH].
           apply Hl; eapply nth_error_In; eauto.
        -- rewrite result_bind_print. apply IH.
    + rewrite bind_lift_ok. destruct (is_dict y) eqn:Dy.
      * unfold index. rewrite Ex, Ey.
        destruct x as [|d1|]; try discriminate.
        destruct y as [|d2|]; try discriminate.
        unfold call_dict_diff. rewrite !bind_lift_ok. cbn [as_dict].
        rewrite !bind_lift_ok. apply Q_bind; [|intros; apply IH].
        apply Hd; eapply nth_error_In; eauto.
      * destruct (both_have_type_outcome is_list l1 l2 i j)
          as [E' | [(x' & Ex' & Lx & E') | (x' & y' & Ex' & Ey' & Lx & E')]]; rewrite E'.
        -- apply Q_index.
        -- rewrite bind_lift_ok, result_bind_print. apply IH.
        -- assert (x' = x) by congruence. subst x'.
           destruct x; discriminate.
Qed.

Lemma recurse_dict_keys_Q (d1 d2 : dict) (ks : list scalar) (acc : list path) :
  Forall (fun k => is_dict (dict_get d1 k) && is_dict (dict_get d2 k) = true) ks ->
  (forall k1 k2 a b, In (k1, VDict a) d1 -> In (k2, VDict b) d2 ->
                     Q (result (dict_diff_rec a b))) ->
  Q (result (recurse_dict_keys dict_diff_rec d1 d2 ks acc)).
Proof.
  intros F Hd. revert acc. induction F as [|k ks Hk F IH]; intros acc; [apply Q_ok|].
  cbn [recurse_dict_keys]. apply andb_true_iff in Hk. destruct Hk as [H1 H2].
  unfold dict_get in H1, H2. unfold dict_item.
  destruct (dict_lookup d1 k) as [[|a|]|] eqn:E1; try discriminate.
  destruct (dict_lookup d2 k) as [[|b|]|] eqn:E2; try discriminate.
  destruct (dict_lookup_in _ _ _ E1) as (k1 & In1).
  destruct (dict_lookup_in _ _ _ E2) as (k2 & In2).
  unfold call_dict_diff. rewrite !bind_lift_ok. cbn [as_dict]. rewrite !bind_lift_ok.
  apply Q_bind; [eapply Hd; eauto | intros; apply IH].
Qed.

Lemma recurse_list_keys_Q (d1 d2 : dict) (ks : list scalar) (acc : list path) :
  Forall (fun k => is_list (dict_get d1 k) && is_list (dict_get d2 k) = true) ks ->
  (forall k1 k2 a b, In (k1, VList a) d1 -> In (k2, VList b) d2 ->
                     Q (result (list_diff_rec a b))) ->
  Q (result (recurse_list_keys list_diff_rec d1 d2 ks acc)).
Proof.
  intros F Hl. revert acc. induction F as [|k ks Hk F IH]; intros acc; [apply Q_ok|].
  cbn [recurse_list_keys]. apply andb_true_iff in Hk. destruct Hk as [H1 H2].
  unfold dict_get in H1, H2. unfold dict_item.
  destruct (dict_lookup d1 k) as [[| |a]|] eqn:E1; try discriminate.
  destruct (dict_lookup d2 k) as [[| |b]|] eqn:E2; try discriminate.
  destruct (dict_lookup_in _ _ _ E1) as (k1 & In1).
  destruct (dict_lookup_in _ _ _ E2) as (k2 & In2).
  unfold call_list_diff. rewrite !bind_lift_ok. cbn [as_list]. rewrite !bind_lift_ok.
  apply Q_bind; [eapply Hl; eauto | intros; apply IH].
Qed.
End OutcomeLoops.

Section Outcomes.
Context {key_order : IterOrder scalar} {pair_order : IterOrder index_pair}.

Lemma classified_keys (d1 d2 : dict) :
  Forall (fun k => is_dict (dict_get d1 k) && is_dict (dict_get d2 k) = true)
         (dict_keys_to_recurse (classify_keys d1 d2))
  /\ Forall (fun k => is_list (dict_get d1 k) && is_list (dict_get d2 k) = true)
            (list_keys_to_recurse (classify_keys d1 d2)).
Proof.
  destruct (classify_fold_cases d1 d2 (iter_set (key_union d1 d2)) (mk_classes [] [] []))
    as (A & B & _).
  fold (classify_keys d1 d2) in A, B. simpl in A, B.
  split; apply Forall_forall; intros k Hk.
  - destruct (A k Hk) as [[] | H]. exact H.
  - destruct (B k Hk) as [[] | H]. exact H.
Qed.

(** The step of the two inductions on the fuel. *)
Lemma differ_step (Q : outcome (list path) -> Prop) (fuel : nat) :
  (forall paths, Q (Ok paths)) -> Q (Raise IndexError) ->
  (forall l1 l2,
      (forall d1 d2, In (VDict d1) l1 -> In (VDict d2) l2 ->
                     Q (result (dict_diff fuel d1 d2))) ->
      (forall x1 x2, In (VList x1) l1 -> In (VList x2) l2 ->
                     Q (result (list_diff fuel x1 x2))) ->
      Q (result (list_diff (S fuel) l1 l2)))
  /\ (forall d1 d2,
         (forall k1 k2 a b, In (k1, VDict a) d1 -> In (k2, VDict b) d2 ->
                            Q (result (dict_diff fuel a b))) ->
         (forall k1 k2 a b, In (k1, VList a) d1 -> In (k2, VList b) d2 ->
                            Q (result (list_diff fuel a b))) ->
         Q (result (dict_diff (S fuel) d1 d2))).
Proof.
  intros Q_ok Q_index. split.
  - intros l1 l2 Hd Hl. rewrite list_diff_S.
    destruct (match_elements_outcome l1 l2) as [[st ->] | ->].
    + rewrite bind_lift_ok. unfold recursion_loop. apply run_recursions_Q; assumption.
    + exact Q_index.
  - intros d1 d2 Hd Hl. rewrite dict_diff_S. unfold dict_diff_body.
    destruct (classified_keys d1 d2) as [Fd Fl].
    apply Q_bind.
    + apply recurse_dict_keys_Q; assumption.
    + intros acc _. apply recurse_list_keys_Q; assumption.
Qed.

Lemma differs_raise_index_error_only (fuel : nat) :
  (forall l1 l2, no_other_error (result (list_diff fuel l1 l2)))
  /\ (forall d1 d2, no_other_error (result (dict_diff fuel d1 d2))).
Proof.
  induction fuel as [|fuel [IHl IHd]].
  - split; intros ? ? e H; discriminate H.
  - destruct (differ_step (@no_other_error (list path)) fuel) as [Sl Sd].
    + intros paths e H. discriminate H.
    + intros e H. congruence.
    + split.
      * intros l1 l2. apply Sl; intros; [apply IHd | apply IHl].
      * intros d1 d2. apply Sd; intros; [apply IHd | apply IHl].
Qed.

Lemma differs_terminate (fuel : nat) :
  (forall l1 l2,
      (Nat.min (depth_of_list l1) (depth_of_list l2) <= fuel)%nat ->
      result (list_diff fuel l1 l2) <> OutOfFuel)
  /\ (forall d1 d2,
         (Nat.min (depth_of_dict d1) (depth_of_dict d2) <= fuel)%nat ->
         result (dict_diff fuel d1 d2) <> OutOfFuel).
Proof.
  unfold depth_of_list, depth_of_dict.
  induction fuel as [|fuel [IHl IHd]].
  - split; intros x y H; cbn [depth] in H; lia.
  - destruct (differ_step (fun r => r <> OutOfFuel) fuel) as [Sl Sd];
      [discriminate | discriminate |].
    split.
    + intros l1 l2 H. apply Sl.
      * intros d1 d2 H1 H2. apply IHd.
        pose proof (depth_list_elem l1 _ H1). pose proof (depth_list_elem l2 _ H2). lia.
      * intros x1 x2 H1 H2. apply IHl.
        pose proof (depth_list_elem l1 _ H1). pose proof (depth_list_elem l2 _ H2). lia.
    + intros d1 d2 H. apply Sd.
      * intros k1 k2 a b H1 H2. apply IHd.
        pose proof (depth_dict_item d1 _ _ H1). pose proof (depth_dict_item d2 _ _ H2). lia.
      * intros k1 k2 a b H1 H2. apply IHl.
        pose proof (depth_dict_item d1 _ _ H1). pose proof (depth_dict_item d2 _ _ H2). lia.
Qed.
End Outcomes.

(** X11: the only exception that [list_diff] and [dict_diff] raise is
    the [IndexError] of the similarity matrix: [d1[k]] and [d2[k]] are
    only read for keys that both mappings hold, and the recursive calls
    only receive two mappings or two sequences. *)
Theorem differs_raise_only_index_error
        (key_order : IterOrder scalar) (pair_order : IterOrder index_pair)
        (fuel : nat) :
  (forall l1 l2 e, result (list_diff fuel l1 l2) = Raise e -> e = IndexError)
  /\ (forall d1 d2 e, result (dict_diff fuel d1 d2) = Raise e -> e = IndexError).
Proof.
  destruct (differs_raise_index_error_only fuel) as [Hl Hd].
  split; [intros l1 l2; apply Hl | intros d1 d2; apply Hd].
Qed.

(** X12: the recursion of the two differs ends: a call whose fuel is at
    least the nesting depth of the shallower argument returns a result
    or raises, it does not run out of fuel. *)
Theorem differs_end_within_depth
        (key_order : IterOrder scalar) (pair_order : IterOrder index_pair)
        (fuel : nat) :
  (forall l1 l2,
      (Nat.min (depth_of_list l1) (depth_of_list l2) <= fuel)%nat ->
      result (list_diff fuel l1 l2) <> OutOfFuel)
  /\ (forall d1 d2,
         (Nat.min (depth_of_dict d1) (depth_of_dict d2) <= fuel)%nat ->
         result (dict_diff fuel d1 d2) <> OutOfFuel).
Proof. apply differs_terminate. Qed.

(** ** The keys that [dict_diff] visits *)

Section SetOfKeys.
Context {A : Type} (eqb : A -> A -> bool).
Hypothesis eqb_refl : forall x, eqb x x = true.

Lemma set_add_sound (s : list A) (x y : A) :
  In y (set_add eqb s x) -> In y s \/ y = x.
Proof.
  unfold set_add. destruct (set_mem eqb x s); [auto|].
  rewrite in_app_iff. simpl. intuition congruence.
Qed.

Lemma set_add_keeps (s : list A) (x y : A) : In y s -> In y (set_add eqb s x).
Proof.
  unfold set_add. destruct (set_mem eqb x s); [auto|]. intros H. apply in_or_app. auto.
Qed.

Lemma set_add_represents (s : list A) (x : A) :
  exists y, In y (set_add eqb s x) /\ eqb x y = true.
Proof.
  unfold set_add, set_mem. destruct (existsb (eqb x) s) eqn:E.
  - apply existsb_exists in E. destruct E as (y & Hy & Hxy). eauto.
  - exists x. split; [apply in_or_app; right; left; reflexivity | apply eqb_refl].
Qed.

Lemma set_add_all_sound (xs s : list A) (y : A) :
  In y (set_add_all eqb s xs) -> In y s \/ In y xs.
Proof.
  unfold set_add_all. revert s. induction xs as [|x xs IH]; intros s; simpl; [auto|].
  intros H. destruct (IH _ H) as [H1 | H1]; [|auto].
  destruct (set_add_sound _ _ _ H1) as [H2 | ->]; auto.
Qed.

Lemma set_add_all_keeps (xs s : list A) (y : A) :
  In y s -> In y (set_add_all eqb s xs).
Proof.
  unfold set_add_all. revert s. induction xs as [|x xs IH]; intros s H; simpl; [auto|].
  apply IH. apply set_add_keeps. exact H.
Qed.

Lemma set_add_all_represents (xs s : list A) (x : A) :
  In x xs -> exists y, In y (set_add_all eqb s xs) /\ eqb x y = true.
Proof.
  unfold set_add_all. revert s. induction xs as [|x0 xs IH]; intros s; simpl; [intros []|].
  intros [-> | H]; [|apply IH; exact H].
  destruct (set_add_represents s x) as (y & Hy & Hxy).
  exists y. split; [|exact Hxy]. apply (set_add_all_keeps xs). exact Hy.
Qed.
End SetOfKeys.

Section KeyUnion.
Context {key_order : IterOrder scalar}.

Lemma iter_set_in (s : list scalar) (k : scalar) : In k (iter_set s) <-> In k s.
Proof.
  split; intros H.
  - eapply Permutation_in; [apply iter_set_perm | exact H].
  - eapply Permutation_in; [symmetry; apply iter_set_perm | exact H].
Qed.

(** Every key that is visited is a key of one of the mappings. *)
Lemma key_union_sound (d1 d2 : dict) (k : scalar) :
  In k (iter_set (key_union d1 d2)) -> In k (map fst d1) \/ In k (map fst d2).
Proof.
  rewrite iter_set_in. unfold key_union. intros H.
  apply set_add_all_sound in H. destruct H as [H | H].
  - apply set_add_all_sound in H. destruct H as [[] | H].
    rewrite iter_set_in in H. apply set_add_all_sound in H. destruct H as [[] | H]. auto.
  - rewrite iter_set_in in H. apply set_add_all_sound in H. destruct H as [[] | H]. auto.
Qed.

(** Every key of one of the mappings is visited, under the name of a
    key that is equal to it. *)
Lemma key_union_complete (d1 d2 : dict) (k : scalar) :
  In k (map fst d1) \/ In k (map fst d2) ->
  exists k', In k' (iter_set (key_union d1 d2)) /\ scalar_eqb k' k = true.
Proof.
  unfold key_union. intros [H | H].
  - destruct (set_add_all_represents scalar_eqb scalar_eqb_refl (map fst d1) [] k H)
      as (y & Hy & Hky).
    rewrite <- iter_set_in in Hy.
    destruct (set_add_all_represents scalar_eqb scalar_eqb_refl _ [] y Hy)
      as (z & Hz & Hyz).
    exists z. split.
    + apply iter_set_in. apply set_add_all_keeps. exact Hz.
    + rewrite scalar_eqb_sym. eapply scalar_eqb_trans; eauto.
  - destruct (set_add_all_represents scalar_eqb scalar_eqb_refl (map fst d2) [] k H)
      as (y & Hy & Hky).
    rewrite <- iter_set_in in Hy.
    destruct (set_add_all_represents scalar_eqb scalar_eqb_refl _
                (set_add_all scalar_eqb []
                   (iter_set (set_add_all scalar_eqb [] (map fst d1)))) y Hy)
      as (z & Hz & Hyz).
    exists z. split.
    + apply iter_set_in. exact Hz.
    + rewrite scalar_eqb_sym. eapply scalar_eqb_trans; eauto.
Qed.
End KeyUnion.

Lemma classify_key_grows (d1 d2 : dict) (cl : key_classes) (k : scalar) :
  (forall x, In x (dict_keys_to_recurse cl) ->
             In x (dict_keys_to_recurse (classify_key d1 d2 cl k)))
  /\ (forall x, In x (list_keys_to_recurse cl) ->
                In x (list_keys_to_recurse (classify_key d1 d2 cl k)))
  /\ (forall p, In p (return_values cl) ->
                In p (return_values (classify_key d1 d2 cl k))).
Proof.
  unfold classify_key.
  destruct (_ && _); simpl; [repeat split; auto; intros; apply in_or_app; auto|].
  destruct (_ && _); simpl; [repeat split; auto; intros; apply in_or_app; auto|].
  destruct (negb _); simpl; repeat split; auto; intros; apply in_or_app; auto.
Qed.

Lemma classify_fold_grows (d1 d2 : dict) (ks : list scalar) (cl : key_classes) :
  (forall x, In x (dict_keys_to_recurse cl) ->
             In x (dict_keys_to_recurse (fold_left (classify_key d1 d2) ks cl)))
  /\ (forall x, In x (list_keys_to_recurse cl) ->
                In x (list_keys_to_recurse (fold_left (classify_key d1 d2) ks cl)))
  /\ (forall p, In p (return_values cl) ->
                In p (return_values (fold_left (classify_key d1 d2) ks cl))).
Proof.
  revert cl. induction ks as [|k ks IH]; intros cl; simpl; [auto|].
  destruct (IH (classify_key d1 d2 cl k)) as (A & B & C).
  destruct (classify_key_grows d1 d2 cl k) as (A' & B' & C').
  repeat split; auto.
Qed.

(** Every visited key ends in the class that the shapes of its two
    values decide. *)
Lemma classify_fold_complete (d1 d2 : dict) (ks : list scalar) (cl : key_classes)
      (k : scalar) :
  In k ks ->
  (both_dicts d1 d2 k = true ->
   In k (dict_keys_to_recurse (fold_left (classify_key d1 d2) ks cl)))
  /\ (both_dicts d1 d2 k = false -> both_lists d1 d2 k = true ->
      In k (list_keys_to_recurse (fold_left (classify_key d1 d2) ks cl)))
  /\ (leaf_differs d1 d2 k = true ->
      In [Key k] (return_values (fold_left (classify_key d1 d2) ks cl))).
Proof.
  revert cl. induction ks as [|k0 ks IH]; intros cl; simpl; [intros []|].
  intros [-> | H]; [|apply IH; exact H].
  destruct (classify_fold_grows d1 d2 ks (classify_key d1 d2 cl k)) as (A & B & C).
  unfold both_dicts, both_lists, leaf_differs, classify_key in *.
  destruct (is_dict (dict_get d1 k) && is_dict (dict_get d2 k)); simpl.
  - repeat split; try discriminate. intros _. apply A. simpl.
    apply in_or_app. right. left. reflexivity.
  - destruct (is_list (dict_get d1 k) && is_list (dict_get d2 k)); simpl.
    + repeat split; try discriminate. intros _ _. apply B. simpl.
      apply in_or_app. right. left. reflexivity.
    + destruct (value_eqb (dict_get d1 k) (dict_get d2 k)); simpl;
        repeat split; try discriminate.
      intros _. apply C. simpl. apply in_or_app. right. left. reflexivity.
Qed.

Section ExactLoops.
Variable dict_diff_rec : dict -> dict -> io (list path).
Variable list_diff_rec : list value -> list value -> io (list path).

Lemma recurse_dict_keys_members (d1 d2 : dict) (ks : list scalar)
      (acc paths : list path) :
  result (recurse_dict_keys dict_diff_rec d1 d2 ks acc) = Ok paths ->
  forall p,
    In p paths <->
    In p acc
    \/ exists k tmp q,
        In k ks
        /\ result (call_dict_diff dict_diff_rec (dict_item d1 k) (dict_item d2 k)) = Ok tmp
        /\ In q tmp /\ p = Key k :: q.
Proof.
  revert acc. induction ks as [|k ks IH]; intros acc H p.
  - inversion H; subst. split; [auto|]. intros [Hp | (k & tmp & q & [] & _)]. exact Hp.
  - cbn [recurse_dict_keys] in H. apply result_bind_ok in H.
    destruct H as (tmp & Ht & H). rewrite (IH _ H p). unfold append_under.
    rewrite in_app_iff, in_map_iff. split.
    + intros [[Hp | (q & <- & Hq)] | (k' & tmp' & q & Hk & Ht' & Hq & ->)].
      * auto.
      * right. exists k, tmp, q. repeat split; auto. left. reflexivity.
      * right. exists k', tmp', q. repeat split; auto. right. exact Hk.
    + intros [Hp | (k' & tmp' & q & [<- | Hk] & Ht' & Hq & ->)].
      * auto.
      * left. right. exists q. split; [reflexivity|].
        assert (tmp' = tmp) by congruence. subst. exact Hq.
      * right. exists k', tmp', q. auto.
Qed.

Lemma recurse_list_keys_members (d1 d2 : dict) (ks : list scalar)
      (acc paths : list path) :
  result (recurse_list_keys list_diff_rec d1 d2 ks acc) = Ok paths ->
  forall p,
    In p paths <->
    In p acc
    \/ exists k tmp q,
        In k ks
        /\ result (call_list_diff list_diff_rec (dict_item d1 k) (dict_item d2 k)) = Ok tmp
        /\ In q tmp /\ p = Key k :: q.
Proof.
  revert acc. induction ks as [|k ks IH]; intros acc H p.
  - inversion H; subst. split; [auto|]. intros [Hp | (k & tmp & q & [] & _)]. exact Hp.
  - cbn [recurse_list_keys] in H. apply result_bind_ok in H.
    destruct H as (tmp & Ht & H). rewrite (IH _ H p). unfold append_under.
    rewrite in_app_iff, in_map_iff. split.
    + intros [[Hp | (q & <- & Hq)] | (k' & tmp' & q & Hk & Ht' & Hq & ->)].
      * auto.
      * right. exists k, tmp, q. repeat split; auto. left. reflexivity.
      * right. exists k', tmp', q. repeat split; auto. right. exact Hk.
    + intros [Hp | (k' & tmp' & q & [<- | Hk] & Ht' & Hq & ->)].
      * auto.
      * left. right. exists q. split; [reflexivity|].
        assert (tmp' = tmp) by congruence. subst. exact Hq.
      * right. exists k', tmp', q. auto.
Qed.

Lemma call_dict_diff_on_dicts (a b : dict) :
  call_dict_diff dict_diff_rec (Ok (VDict a)) (Ok (VDict b)) = dict_diff_rec a b.
Proof.
  unfold call_dict_diff. rewrite !bind_lift_ok. cbn [as_dict]. rewrite !bind_lift_ok.
  reflexivity.
Qed.

Lemma call_list_diff_on_lists (a b : list value) :
  call_list_diff list_diff_rec (Ok (VList a)) (Ok (VList b)) = list_diff_rec a b.
Proof.
  unfold call_list_diff. rewrite !bind_lift_ok. cbn [as_list]. rewrite !bind_lift_ok.
  reflexivity.
Qed.
End ExactLoops.

(** ** How the differs compose *)

Lemma dict_lookup_key (d : dict) (k : scalar) (v : value) :
  dict_lookup d k = Some v -> exists k0, In (k0, v) d /\ scalar_eqb k0 k = true.
Proof.
  induction d as [|[k0 v0] d IH]; simpl; [discriminate|].
  destruct (scalar_eqb k0 k) eqn:E.
  - intros H. inversion H; subst. eauto.
  - intros H. destruct (IH H) as (k1 & Hin & Hk). eauto.
Qed.

Lemma classify_fold_sound (d1 d2 : dict) (ks : list scalar) (cl : key_classes) :
  (forall k, In k (dict_keys_to_recurse (fold_left (classify_key d1 d2) ks cl)) ->
             In k (dict_keys_to_recurse cl) \/ (In k ks /\ both_dicts d1 d2 k = true))
  /\ (forall k, In k (list_keys_to_recurse (fold_left (classify_key d1 d2) ks cl)) ->
                In k (list_keys_to_recurse cl)
                \/ (In k ks /\ both_dicts d1 d2 k = false /\ both_lists d1 d2 k = true))
  /\ (forall p, In p (return_values (fold_left (classify_key d1 d2) ks cl)) ->
                In p (return_values cl)
                \/ exists k, In k ks /\ p = [Key k] /\ leaf_differs d1 d2 k = true).
Proof.
  revert cl. induction ks as [|k0 ks IH]; intros cl; simpl; [auto|].
  destruct (IH (classify_key d1 d2 cl k0)) as (A & B & C).
  unfold both_dicts, both_lists, leaf_differs in *.
  assert (Step :
    (forall k, In k (dict_keys_to_recurse (classify_key d1 d2 cl k0)) ->
               In k (dict_keys_to_recurse cl)
               \/ (k = k0 /\ is_dict (dict_get d1 k) && is_dict (dict_get d2 k) = true))
    /\ (forall k, In k (list_keys_to_recurse (classify_key d1 d2 cl k0)) ->
                  In k (list_keys_to_recurse cl)
                  \/ (k = k0
                      /\ is_dict (dict_get d1 k) && is_dict (dict_get d2 k) = false
                      /\ is_list (dict_get d1 k) && is_list (dict_get d2 k) = true))
    /\ (forall p, In p (return_values (classify_key d1 d2 cl k0)) ->
                  In p (return_values cl)
                  \/ (p = [Key k0]
                      /\ negb (is_dict (dict_get d1 k0) && is_dict (dict_get d2 k0))
                         && negb (is_list (dict_get d1 k0) && is_list (dict_get d2 k0))
                         && negb (value_eqb (dict_get d1 k0) (dict_get d2 k0)) = true))).
  { unfold classify_key.
    destruct (is_dict (dict_get d1 k0) && is_dict (dict_get d2 k0)) eqn:D; simpl.
    { repeat split; auto. intros k H. apply in_app_or in H.
      destruct H as [H | [<- | []]]; auto. }
    destruct (is_list (dict_get d1 k0) && is_list (dict_get d2 k0)) eqn:L; simpl.
    { repeat split; auto. intros k H. apply in_app_or in H.
      destruct H as [H | [<- | []]]; auto. }
    destruct (value_eqb (dict_get d1 k0) (dict_get d2 k0)) eqn:V; simpl.
    { repeat split; auto. }
    repeat split; auto. intros p H. apply in_app_or in H.
    destruct H as [H | [<- | []]]; auto. }
  destruct Step as (A' & B' & C'). repeat split.
  - intros k H. destruct (A k H) as [H1 | [H1 H2]]; [|auto].
    destruct (A' k H1) as [H3 | [-> H3]]; auto.
  - intros k H. destruct (B k H) as [H1 | (H1 & H2 & H3)]; [|auto].
    destruct (B' k H1) as [H4 | (-> & H4 & H5)]; auto.
  - intros p H. destruct (C p H) as [H1 | (k & H1 & -> & H2)].
    + destruct (C' p H1) as [H3 | (-> & H3)]; [auto|]. right. exists k0. auto.
    + right. exists k. auto.
Qed.

Lemma leaf_differs_congr (d1 d2 : dict) (k k' : scalar) :
  scalar_eqb k' k = true -> leaf_differs d1 d2 k' = leaf_differs d1 d2 k.
Proof.
  intros H. unfold leaf_differs.
  rewrite (dict_get_congr d1 k k' H), (dict_get_congr d2 k k' H). reflexivity.
Qed.

Section Composition.
Context {key_order : IterOrder scalar} {pair_order : IterOrder index_pair}.

Lemma nested_paths_not_empty_dict (fuel : nat) (a b : outcome value) (tmp : list path) :
  result (call_dict_diff (dict_diff fuel) a b) = Ok tmp -> ~ In [] tmp.
Proof.
  intros H Hin.
  assert (F : Forall (fun p => leads_to_difference p = true) tmp).
  { apply (call_dict_diff_paths (dict_diff fuel)) with (a := a) (b := b); [|exact H].
    intros d1 d2 paths Hp. destruct (differ_paths fuel) as [_ Dd].
    eapply Forall_impl; [|apply (Dd d1 d2 paths Hp)].
    intros p [Hl _]. exact Hl. }
  rewrite Forall_forall in F. specialize (F [] Hin). discriminate.
Qed.

Lemma nested_paths_not_empty_list (fuel : nat) (a b : outcome value) (tmp : list path) :
  result (call_list_diff (list_diff fuel) a b) = Ok tmp -> ~ In [] tmp.
Proof.
  intros H Hin.
  assert (F : Forall (fun p => leads_to_difference p = true) tmp).
  { apply (call_list_diff_paths (list_diff fuel)) with (a := a) (b := b); [|exact H].
    intros l1 l2 paths Hp. destruct (differ_paths fuel) as [Dl _].
    eapply Forall_impl; [|apply (Dl l1 l2 paths Hp)].
    intros p [Hl _]. exact Hl. }
  rewrite Forall_forall in F. specialize (F [] Hin). discriminate.
Qed.

(** The paths of [dict_diff]: the leaves, then what the nested calls
    return under their keys. *)
Lemma dict_diff_members (fuel : nat) (d1 d2 : dict) (paths : list path) :
  result (dict_diff (S fuel) d1 d2) = Ok paths ->
  forall p,
    In p paths <->
    In p (return_values (classify_keys d1 d2))
    \/ (exists k tmp q,
           In k (dict_keys_to_recurse (classify_keys d1 d2))
           /\ result (call_dict_diff (dict_diff fuel) (dict_item d1 k) (dict_item d2 k))
              = Ok tmp
           /\ In q tmp /\ p = Key k :: q)
    \/ (exists k tmp q,
           In k (list_keys_to_recurse (classify_keys d1 d2))
           /\ result (call_list_diff (list_diff fuel) (dict_item d1 k) (dict_item d2 k))
              = Ok tmp
           /\ In q tmp /\ p = Key k :: q).
Proof.
  rewrite dict_diff_S. unfold dict_diff_body. intros H p.
  apply result_bind_ok in H. destruct H as (acc & H1 & H2).
  rewrite (recurse_list_keys_members _ _ _ _ _ _ H2 p).
  rewrite (recurse_dict_keys_members _ _ _ _ _ _ H1 p). tauto.
Qed.
End Composition.

(** X13: [dict_diff] reports the leaves exactly: a returned path [[k]]
    names a key of one of the mappings whose two values (an absent one
    read as [None]) are not two mappings, not two sequences, and
    unequal; and every key of one of the mappings with such values is
    reported, under the name of a key equal to it. *)
Theorem dict_diff_reports_leaves
        (key_order : IterOrder scalar) (pair_order : IterOrder index_pair)
        (fuel : nat) (d1 d2 : dict) (paths : list path) :
  result (dict_diff fuel d1 d2) = Ok paths ->
  (forall k, In [Key k] paths ->
             (In k (map fst d1) \/ In k (map fst d2)) /\ leaf_differs d1 d2 k = true)
  /\ (forall k, In k (map fst d1) \/ In k (map fst d2) ->
                leaf_differs d1 d2 k = true ->
                exists k', scalar_eqb k' k = true /\ In [Key k'] paths).
Proof.
  destruct fuel as [|fuel]; [discriminate|]. intros H.
  pose proof (dict_diff_members fuel d1 d2 paths H) as M.
  destruct (classify_fold_sound d1 d2 (iter_set (key_union d1 d2)) (mk_classes [] [] []))
    as (_ & _ & C).
  fold (classify_keys d1 d2) in C. simpl in C.
  split.
  - intros k Hin. apply M in Hin.
    destruct Hin as [Hin | [(k0 & tmp & q & _ & Ht & Hq & E) | (k0 & tmp & q & _ & Ht & Hq & E)]].
    + destruct (C _ Hin) as [[] | (k0 & Hk0 & E & Hl)]. inversion E; subst k0.
      split; [apply key_union_sound; exact Hk0 | exact Hl].
    + inversion E; subst. exfalso. eapply nested_paths_not_empty_dict; eauto.
    + inversion E; subst. exfalso. eapply nested_paths_not_empty_list; eauto.
  - intros k Hk Hl.
    destruct (key_union_complete d1 d2 k Hk) as (k' & Hin & Hkk).
    exists k'. split; [exact Hkk|]. apply M. left.
    apply (classify_fold_complete d1 d2 _ (mk_classes [] [] []) k' Hin).
    rewrite (leaf_differs_congr d1 d2 k k' Hkk). exact Hl.
Qed.

Lemma dict_diff_reports_leaves_witness :
  (forall k, In [Key k] [[Key (str "b")]; [Key (str "c"); Key (str "d")]] ->
             (In k (map fst [(str "a", int 1); (str "b", int 2);
                             (str "c", VDict [(str "d", int 1)])])
              \/ In k (map fst [(str "a", int 1); (str "b", int 1);
                                (str "c", VDict [(str "d", int 2)])]))
             /\ leaf_differs [(str "a", int 1); (str "b", int 2);
                              (str "c", VDict [(str "d", int 1)])]
                             [(str "a", int 1); (str "b", int 1);
                              (str "c", VDict [(str "d", int 2)])] k = true)
  /\ (forall k, In k (map fst [(str "a", int 1); (str "b", int 2);
                               (str "c", VDict [(str "d", int 1)])])
                \/ In k (map fst [(str "a", int 1); (str "b", int 1);
                                  (str "c", VDict [(str "d", int 2)])]) ->
                leaf_differs [(str "a", int 1); (str "b", int 2);
                              (str "c", VDict [(str "d", int 1)])]
                             [(str "a", int 1); (str "b", int 1);
                              (str "c", VDict [(str "d", int 2)])] k = true ->
                exists k', scalar_eqb k' k = true
                           /\ In [Key k'] [[Key (str "b")]; [Key (str "c"); Key (str "d")]]).
Proof.
  apply (dict_diff_reports_leaves (insertion_order scalar) (insertion_order index_pair) 2
           [(str "a", int 1); (str "b", int 2); (str "c", VDict [(str "d", int 1)])]
           [(str "a", int 1); (str "b", int 1); (str "c", VDict [(str "d", int 2)])]).
  vm_compute. reflexivity.
Defined.

Section NestedDiffs.
Context {key_order : IterOrder scalar} {pair_order : IterOrder index_pair}.

Lemma nested_diff_not_empty (fuel : nat) (x y : value) (tmp : list path) :
  nested_diff (dict_diff fuel) (list_diff fuel) x y tmp -> ~ In [] tmp.
Proof.
  intros [(a & b & _ & _ & H) | (a & b & _ & _ & H)] Hin.
  - destruct (differ_paths fuel) as [_ Dd]. specialize (Dd a b tmp H).
    rewrite Forall_forall in Dd. destruct (Dd [] Hin). discriminate.
  - destruct (differ_paths fuel) as [Dl _]. specialize (Dl a b tmp H).
    rewrite Forall_forall in Dl. destruct (Dl [] Hin). discriminate.
Qed.

Lemma both_dicts_lookup (d1 d2 : dict) (k : scalar) :
  both_dicts d1 d2 k = true <->
  exists a b, dict_lookup d1 k = Some (VDict a) /\ dict_lookup d2 k = Some (VDict b).
Proof.
  unfold both_dicts, dict_get. split.
  - destruct (dict_lookup d1 k) as [[|a|]|]; try discriminate.
    destruct (dict_lookup d2 k) as [[|b|]|]; try discriminate. eauto.
  - intros (a & b & -> & ->). reflexivity.
Qed.

Lemma both_lists_lookup (d1 d2 : dict) (k : scalar) :
  both_lists d1 d2 k = true <->
  exists a b, dict_lookup d1 k = Some (VList a) /\ dict_lookup d2 k = Some (VList b).
Proof.
  unfold both_lists, dict_get. split.
  - destruct (dict_lookup d1 k) as [[| |a]|]; try discriminate.
    destruct (dict_lookup d2 k) as [[| |b]|]; try discriminate. eauto.
  - intros (a & b & -> & ->). reflexivity.
Qed.

Lemma dict_diff_nested (fuel : nat) (d1 d2 : dict) (paths : list path) :
  result (dict_diff (S fuel) d1 d2) = Ok paths ->
  (forall k q, q <> [] -> In (Key k :: q) paths ->
               exists x y tmp,
                 dict_lookup d1 k = Some x /\ dict_lookup d2 k = Some y
                 /\ nested_diff (dict_diff fuel) (list_diff fuel) x y tmp /\ In q tmp)
  /\ (forall k x y tmp q,
         dict_lookup d1 k = Some x -> dict_lookup d2 k = Some y ->
         nested_diff (dict_diff fuel) (list_diff fuel) x y tmp -> In q tmp ->
         exists k', scalar_eqb k' k = true /\ In (Key k' :: q) paths).
Proof.
  intros H. pose proof (dict_diff_members fuel d1 d2 paths H) as M.
  destruct (classify_fold_sound d1 d2 (iter_set (key_union d1 d2)) (mk_classes [] [] []))
    as (A & B & C).
  fold (classify_keys d1 d2) in A, B, C. simpl in A, B, C.
  split.
  - intros k q Hq Hin. apply M in Hin.
    destruct Hin as [Hin | [(k0 & tmp & q0 & Hk & Ht & Hq0 & E)
                           | (k0 & tmp & q0 & Hk & Ht & Hq0 & E)]].
    + destruct (C _ Hin) as [[] | (k0 & _ & E & _)]. inversion E. congruence.
    + inversion E; subst k0 q0. destruct (A k Hk) as [[] | [_ Hb]].
      apply both_dicts_lookup in Hb. destruct Hb as (a & b & E1 & E2).
      unfold dict_item in Ht. rewrite E1, E2, call_dict_diff_on_dicts in Ht.
      exists (VDict a), (VDict b), tmp. repeat split; auto.
      left. exists a, b. auto.
    + inversion E; subst k0 q0. destruct (B k Hk) as [[] | (_ & _ & Hb)].
      apply both_lists_lookup in Hb. destruct Hb as (a & b & E1 & E2).
      unfold dict_item in Ht. rewrite E1, E2, call_list_diff_on_lists in Ht.
      exists (VList a), (VList b), tmp. repeat split; auto.
      right. exists a, b. auto.
  - intros k x y tmp q E1 E2 Hn Hq.
    destruct (dict_lookup_key d1 k x E1) as (k0 & Hin0 & Hk0).
    destruct (key_union_complete d1 d2 k0) as (k' & Hin & Hkk).
    { left. apply in_map_iff. exists (k0, x). auto. }
    assert (Hk : scalar_eqb k' k = true) by (eapply scalar_eqb_trans; eauto).
    rewrite <- (dict_lookup_congr d1 k k' Hk) in E1.
    rewrite <- (dict_lookup_congr d2 k k' Hk) in E2.
    exists k'. split; [exact Hk|]. apply M.
    destruct Hn as [(a & b & -> & -> & Hr) | (a & b & -> & -> & Hr)].
    + right. left. exists k', tmp, q. repeat split; auto.
      * apply (classify_fold_complete d1 d2 _ (mk_classes [] [] []) k' Hin).
        apply both_dicts_lookup. eauto.
      * unfold dict_item. rewrite E1, E2, call_dict_diff_on_dicts. exact Hr.
    + right. right. exists k', tmp, q. repeat split; auto.
      * apply (classify_fold_complete d1 d2 _ (mk_classes [] [] []) k' Hin).
        -- unfold both_dicts, dict_get. rewrite E1. reflexivity.
        -- apply both_lists_lookup. eauto.
      * unfold dict_item. rewrite E1, E2, call_list_diff_on_lists. exact Hr.
Qed.
End NestedDiffs.

(** X14: [dict_diff] splices the nested diffs under their keys: a
    returned path of more than one segment is a key under which both
    mappings hold a mapping, or both a sequence, followed by a path of
    the diff of these two values; and every path of such a nested diff
    is returned under a key equal to the one looked up. *)
Theorem dict_diff_nests_under_keys
        (key_order : IterOrder scalar) (pair_order : IterOrder index_pair)
        (fuel : nat) (d1 d2 : dict) (paths : list path) :
  result (dict_diff (S fuel) d1 d2) = Ok paths ->
  (forall k q, q <> [] -> In (Key k :: q) paths ->
               exists x y tmp,
                 dict_lookup d1 k = Some x /\ dict_lookup d2 k = Some y
                 /\ nested_diff (dict_diff fuel) (list_diff fuel) x y tmp /\ In q tmp)
  /\ (forall k x y tmp q,
         dict_lookup d1 k = Some x -> dict_lookup d2 k = Some y ->
         nested_diff (dict_diff fuel) (list_diff fuel) x y tmp -> In q tmp ->
         exists k', scalar_eqb k' k = true /\ In (Key k' :: q) paths).
Proof. apply dict_diff_nested. Qed.

Lemma dict_diff_nests_under_keys_witness :
  (forall k q, q <> [] ->
               In (Key k :: q) [[Key (str "b")]; [Key (str "c"); Key (str "d")]] ->
               exists x y tmp,
                 dict_lookup [(str "a", int 1); (str "b", int 2);
                              (str "c", VDict [(str "d", int 1)])] k = Some x
                 /\ dict_lookup [(str "a", int 1); (str "b", int 1);
                                 (str "c", VDict [(str "d", int 2)])] k = Some y
                 /\ nested_diff (@dict_diff (insertion_order scalar)
                                            (insertion_order index_pair) 1)
                                (@list_diff (insertion_order scalar)
                                            (insertion_order index_pair) 1) x y tmp
                 /\ In q tmp)
  /\ (forall k x y tmp q,
         dict_lookup [(str "a", int 1); (str "b", int 2);
                      (str "c", VDict [(str "d", int 1)])] k = Some x ->
         dict_lookup [(str "a", int 1); (str "b", int 1);
                      (str "c", VDict [(str "d", int 2)])] k = Some y ->
         nested_diff (@dict_diff (insertion_order scalar)
                                 (insertion_order index_pair) 1)
                     (@list_diff (insertion_order scalar)
                                 (insertion_order index_pair) 1) x y tmp ->
         In q tmp ->
         exists k', scalar_eqb k' k = true
                    /\ In (Key k' :: q) [[Key (str "b")]; [Key (str "c"); Key (str "d")]]).
Proof.
  apply (dict_diff_nests_under_keys (insertion_order scalar) (insertion_order index_pair) 1
           [(str "a", int 1); (str "b", int 2); (str "c", VDict [(str "d", int 1)])]
           [(str "a", int 1); (str "b", int 1); (str "c", VDict [(str "d", int 2)])]).
  vm_compute. reflexivity.
Defined.

(** * What [list_diff] returns, in terms of the matching and the nested diffs *)

Section ListLoop.
Variable dict_diff_rec : dict -> dict -> io (list path).
Variable list_diff_rec : list value -> list value -> io (list path).

Lemma nested_diff_functional (x y : value) (tmp tmp' : list path) :
  nested_diff dict_diff_rec list_diff_rec x y tmp ->
  nested_diff dict_diff_rec list_diff_rec x y tmp' -> tmp = tmp'.
Proof.
  intros [(a & b & -> & -> & H) | (a & b & -> & -> & H)]
         [(a' & b' & Ea & Eb & H') | (a' & b' & Ea & Eb & H')];
    inversion Ea; inversion Eb; subst; congruence.
Qed.

Lemma index_nth_error {A} (l : list A) (i : nat) (x : A) :
  nth_error l i = Some x -> index l i = Ok x.
Proof. unfold index. intros ->. reflexivity. Qed.

Lemma run_recursions_head (l1 l2 : list value) (i j : nat) (rest : list (nat * nat))
      (acc paths : list path) :
  result (run_recursions dict_diff_rec list_diff_rec l1 l2 ((i, j) :: rest) acc) = Ok paths ->
  (exists x y tmp,
      nth_error l1 i = Some x /\ nth_error l2 j = Some y
      /\ nested_diff dict_diff_rec list_diff_rec x y tmp
      /\ result (run_recursions dict_diff_rec list_diff_rec l1 l2 rest
                   (append_under (IndexPair (Some i, Some j)) acc tmp)) = Ok paths)
  \/ ((forall x y tmp, nth_error l1 i = Some x -> nth_error l2 j = Some y ->
                       ~ nested_diff dict_diff_rec list_diff_rec x y tmp)
      /\ result (run_recursions dict_diff_rec list_diff_rec l1 l2 rest acc) = Ok paths).
Proof.
  intros H. cbn [run_recursions] in H.
  assert (Hlists :
            forall x, nth_error l1 i = Some x -> is_dict x = false ->
            result (bind (lift (both_have_type is_list l1 i l2 j)) (fun lists =>
              if lists then
                bind (call_list_diff list_diff_rec (index l1 i) (index l2 j)) (fun tmp =>
                run_recursions dict_diff_rec list_diff_rec l1 l2 rest
                  (append_under (IndexPair (Some i, Some j)) acc tmp))
              else
                bind (print unreachable_message) (fun _ =>
                run_recursions dict_diff_rec list_diff_rec l1 l2 rest acc))) = Ok paths ->
            (exists x y tmp,
                nth_error l1 i = Some x /\ nth_error l2 j = Some y
                /\ nested_diff dict_diff_rec list_diff_rec x y tmp
                /\ result (run_recursions dict_diff_rec list_diff_rec l1 l2 rest
                             (append_under (IndexPair (Some i, Some j)) acc tmp)) = Ok paths)
            \/ ((forall x y tmp, nth_error l1 i = Some x -> nth_error l2 j = Some y ->
                                 ~ nested_diff dict_diff_rec list_diff_rec x y tmp)
                /\ result (run_recursions dict_diff_rec list_diff_rec l1 l2 rest acc)
                   = Ok paths)).
  { intros x Hx Hd H'.
    destruct (both_have_type_outcome is_list l1 l2 i j)
      as [E | [(x' & Hx' & Hl & E) | (x' & y' & Hx' & Hy' & Hl & E)]];
      rewrite E in H'.
    - discriminate.
    - rewrite bind_lift_ok, result_bind_print in H'. right. split; [|exact H'].
      intros x0 y0 tmp0 Hx0 Hy0 [(a & b & -> & _) | (a & b & -> & _)].
      + assert (x = VDict a) by congruence. subst. discriminate.
      + assert (x' = VList a) by congruence. subst. discriminate.
    - rewrite bind_lift_ok in H'. destruct (is_list y') eqn:Ely.
      + destruct x' as [| |a]; try discriminate. destruct y' as [| |b]; try discriminate.
        apply result_bind_ok in H'. destruct H' as (tmp & Ht & H').
        rewrite (index_nth_error _ _ _ Hx'), (index_nth_error _ _ _ Hy'),
          call_list_diff_on_lists in Ht.
        left. exists (VList a), (VList b), tmp. repeat split; auto.
        right. exists a, b. auto.
      + rewrite result_bind_print in H'. right. split; [|exact H'].
        intros x0 y0 tmp0 Hx0 Hy0 [(a & b & -> & _) | (a & b & _ & -> & _)].
        * assert (x = VDict a) by congruence. subst. discriminate.
        * assert (y' = VList b) by congruence. subst. discriminate. }
  destruct (both_have_type_outcome is_dict l1 l2 i j)
    as [E | [(x & Hx & Hd & E) | (x & y & Hx & Hy & Hd & E)]];
    rewrite E in H.
  - discriminate.
  - rewrite bind_lift_ok in H. exact (Hlists x Hx Hd H).
  - rewrite bind_lift_ok in H. destruct (is_dict y) eqn:Edy.
    + destruct x as [|a|]; try discriminate. destruct y as [|b|]; try discriminate.
      apply result_bind_ok in H. destruct H as (tmp & Ht & H).
      rewrite (index_nth_error _ _ _ Hx), (index_nth_error _ _ _ Hy),
        call_dict_diff_on_dicts in Ht.
      left. exists (VDict a), (VDict b), tmp. repeat split; auto.
      left. exists a, b. auto.
    + destruct x as [|a|]; try discriminate.
      destruct (both_have_type_outcome is_list l1 l2 i j)
        as [E' | [(x' & Hx' & Hl & E') | (x' & y' & Hx' & Hy' & Hl & E')]];
        rewrite E' in H.
      * discriminate.
      * rewrite bind_lift_ok, result_bind_print in H. right. split; [|exact H].
        intros x0 y0 tmp0 Hx0 Hy0 [(a' & b & _ & -> & _) | (a' & b & -> & _)].
        -- assert (y = VDict b) by congruence. subst. discriminate.
        -- congruence.
      * assert (x' = VDict a) by congruence. subst. discriminate.
Qed.

Lemma run_recursions_members (l1 l2 : list value) (queue : list (nat * nat))
      (acc paths : list path) :
  result (run_recursions dict_diff_rec list_diff_rec l1 l2 queue acc) = Ok paths ->
  forall p,
    In p paths <->
    In p acc
    \/ exists i j x y tmp q,
        In (i, j) queue
        /\ nth_error l1 i = Some x /\ nth_error l2 j = Some y
        /\ nested_diff dict_diff_rec list_diff_rec x y tmp
        /\ In q tmp /\ p = IndexPair (Some i, Some j) :: q.
Proof.
  revert acc. induction queue as [|[i j] queue IH]; intros acc H p.
  - inversion H; subst. split; [auto|].
    intros [Hp | (i & j & x & y & tmp & q & [] & _)]. exact Hp.
  - apply run_recursions_head in H.
    destruct H as [(x & y & tmp & Hx & Hy & Hn & H) | [Hno H]].
    + rewrite (IH _ H p). unfold append_under. rewrite in_app_iff, in_map_iff. split.
      * intros [[Hp | (q & <- & Hq)]
               | (i' & j' & x' & y' & tmp' & q & Hin & Hx' & Hy' & Hn' & Hq & ->)].
        -- auto.
        -- right. exists i, j, x, y, tmp, q. repeat split; auto. left. reflexivity.
        -- right. exists i', j', x', y', tmp', q. repeat split; auto. right. exact Hin.
      * intros [Hp | (i' & j' & x' & y' & tmp' & q & [E | Hin] & Hx' & Hy' & Hn' & Hq & ->)].
        -- auto.
        -- inversion E; subst i' j'. left. right. exists q. split; [reflexivity|].
           assert (x' = x) by congruence. assert (y' = y) by congruence. subst.
           rewrite (nested_diff_functional _ _ _ _ Hn Hn'). exact Hq.
        -- right. exists i', j', x', y', tmp', q. repeat split; auto.
    + rewrite (IH _ H p). split.
      * intros [Hp | (i' & j' & x' & y' & tmp' & q & Hin & Hx' & Hy' & Hn' & Hq & ->)].
        -- auto.
        -- right. exists i', j', x', y', tmp', q. repeat split; auto. right. exact Hin.
      * intros [Hp | (i' & j' & x' & y' & tmp' & q & [E | Hin] & Hx' & Hy' & Hn' & Hq & ->)].
        -- auto.
        -- inversion E; subst i' j'. destruct (Hno x' y' tmp' Hx' Hy' Hn').
        -- right. exists i', j', x', y', tmp', q. repeat split; auto.
Qed.
End ListLoop.

Section ListComposition.
Context {key_order : IterOrder scalar} {pair_order : IterOrder index_pair}.

Lemma list_diff_members (fuel : nat) (l1 l2 : list value) (paths : list path) :
  result (list_diff (S fuel) l1 l2) = Ok paths ->
  exists st,
    match_elements l1 l2 = Ok st
    /\ forall p,
        In p paths <->
        (exists e, In e (mismatch_set st) /\ p = [IndexPair e])
        \/ exists i j x y tmp q,
            In (i, j) (to_recurse st)
            /\ nth_error l1 i = Some x /\ nth_error l2 j = Some y
            /\ nested_diff (dict_diff fuel) (list_diff fuel) x y tmp
            /\ In q tmp /\ p = IndexPair (Some i, Some j) :: q.
Proof.
  intros H. rewrite list_diff_S in H. unfold list_diff_body in H.
  apply result_bind_ok in H. destruct H as (st & Hst & H).
  rewrite result_lift in Hst. exists st. split; [exact Hst|].
  intros p. unfold recursion_loop in H.
  rewrite (run_recursions_members _ _ _ _ _ _ _ H p), in_map_iff.
  split.
  - intros [(e & <- & He) | Hn]; [left|right; exact Hn].
    exists e. split; [|reflexivity].
    eapply Permutation_in; [apply iter_set_perm | exact He].
  - intros [(e & He & ->) | Hn]; [left|right; exact Hn].
    exists e. split; [reflexivity|].
    eapply Permutation_in; [symmetry; apply iter_set_perm | exact He].
Qed.
End ListComposition.

(** X15: what [list_diff] returns is fixed by the matching of step 3
    and 4 and by the nested diffs.  Its one-segment paths are exactly
    the index pairs of [mismatch_set]; a longer path starts with a pair
    [(i, j)] queued in [to_recurse] and goes on with a path of the diff
    of [l1[i]] and [l2[j]], and every path of such a nested diff is
    returned under its pair. *)
Theorem list_diff_composes
        (key_order : IterOrder scalar) (pair_order : IterOrder index_pair)
        (fuel : nat) (l1 l2 : list value) (paths : list path) :
  result (list_diff (S fuel) l1 l2) = Ok paths ->
  exists st,
    match_elements l1 l2 = Ok st
    /\ (forall e, In [IndexPair e] paths <-> In e (mismatch_set st))
    /\ (forall i j q,
           q <> [] ->
           (In (IndexPair (Some i, Some j) :: q) paths <->
            In (i, j) (to_recurse st)
            /\ exists x y tmp,
                nth_error l1 i = Some x /\ nth_error l2 j = Some y
                /\ nested_diff (dict_diff fuel) (list_diff fuel) x y tmp /\ In q tmp)).
Proof.
  intros H. destruct (list_diff_members fuel l1 l2 paths H) as (st & Hst & M).
  exists st. split; [exact Hst|]. split.
  - intros e. rewrite M. split.
    + intros [(e' & He & E) | (i & j & x & y & tmp & q & _ & _ & _ & Hn & Hq & E)].
      * inversion E. subst. exact He.
      * inversion E. subst q. destruct (nested_diff_not_empty fuel x y tmp Hn Hq).
    + intros He. left. exists e. auto.
  - intros i j q Hq. rewrite M. split.
    + intros [(e & _ & E) | (i' & j' & x & y & tmp & q' & Hin & Hx & Hy & Hn & Hq' & E)].
      * inversion E. congruence.
      * inversion E. subst. split; [exact Hin|]. exists x, y, tmp. auto.
    + intros (Hin & x & y & tmp & Hx & Hy & Hn & Hq'). right.
      exists i, j, x, y, tmp, q. repeat split; auto.
Qed.

Lemma list_diff_composes_witness :
  exists st,
    match_elements [int 7; VDict [(str "a", int 1); (str "b", int 2)]]
                   [VDict [(str "a", int 1); (str "b", int 3)]; int 8] = Ok st
    /\ (forall e,
           In [IndexPair e]
              [[IndexPair (None, Some 1%nat)]; [IndexPair (Some 0%nat, None)];
               [IndexPair (Some 1%nat, Some 0%nat); Key (str "b")]]
           <-> In e (mismatch_set st))
    /\ (forall i j q,
           q <> [] ->
           (In (IndexPair (Some i, Some j) :: q)
               [[IndexPair (None, Some 1%nat)]; [IndexPair (Some 0%nat, None)];
                [IndexPair (Some 1%nat, Some 0%nat); Key (str "b")]]
            <->
            In (i, j) (to_recurse st)
            /\ exists x y tmp,
                nth_error [int 7; VDict [(str "a", int 1); (str "b", int 2)]] i = Some x
                /\ nth_error [VDict [(str "a", int 1); (str "b", int 3)]; int 8] j = Some y
                /\ nested_diff (@dict_diff (insertion_order scalar)
                                           (insertion_order index_pair) 1)
                               (@list_diff (insertion_order scalar)
                                           (insertion_order index_pair) 1) x y tmp
                /\ In q tmp)).
Proof.
  apply (list_diff_composes (insertion_order scalar) (insertion_order index_pair) 1
           [int 7; VDict [(str "a", int 1); (str "b", int 2)]]
           [VDict [(str "a", int 1); (str "b", int 3)]; int 8]).
  vm_compute. reflexivity.
Defined.

(** * The differs' general properties at the inputs of the examples *)

Lemma paths_lead_to_a_difference_witness :
  result (@list_diff (insertion_order scalar) (insertion_order index_pair) 2
            [int 7; VDict [(str "a", int 1); (str "b", int 2)]]
            [VDict [(str "a", int 1); (str "b", int 3)]; int 8])
  = Ok [[IndexPair (None, Some 1%nat)]; [IndexPair (Some 0%nat, None)];
        [IndexPair (Some 1%nat, Some 0%nat); Key (str "b")]]
  /\ Forall (fun p => leads_to_difference p = true /\ starts_with_pair p = true)
            [[IndexPair (None, Some 1%nat)]; [IndexPair (Some 0%nat, None)];
             [IndexPair (Some 1%nat, Some 0%nat); Key (str "b")]].
Proof.
  assert (H : result (@list_diff (insertion_order scalar) (insertion_order index_pair) 2
                        [int 7; VDict [(str "a", int 1); (str "b", int 2)]]
                        [VDict [(str "a", int 1); (str "b", int 3)]; int 8])
              = Ok [[IndexPair (None, Some 1%nat)]; [IndexPair (Some 0%nat, None)];
                    [IndexPair (Some 1%nat, Some 0%nat); Key (str "b")]])
    by (vm_compute; reflexivity).
  split; [exact H|].
  exact (proj1 (paths_lead_to_a_difference (insertion_order scalar)
                  (insertion_order index_pair) 2) _ _ _ H).
Defined.

Lemma differs_raise_only_index_error_witness :
  exists e,
    result (@list_diff (insertion_order scalar) (insertion_order index_pair) 1
              (ints [1; 2; 2]) (ints [2; 1])) = Raise e
    /\ e = IndexError.
Proof.
  assert (H : result (@list_diff (insertion_order scalar) (insertion_order index_pair) 1
                        (ints [1; 2; 2]) (ints [2; 1])) = Raise IndexError)
    by (vm_compute; reflexivity).
  exists IndexError. split; [exact H|].
  exact (proj1 (differs_raise_only_index_error (insertion_order scalar)
                  (insertion_order index_pair) 1) _ _ _ H).
Defined.

Lemma differs_end_within_depth_witness :
  le (Nat.min (depth_of_list [int 7; VDict [(str "a", VList (ints [1; 2]))]])
              (depth_of_list [VDict [(str "a", VList (ints [1; 3]))]; int 8])) 3
  /\ result (@list_diff (insertion_order scalar) (insertion_order index_pair) 3
               [int 7; VDict [(str "a", VList (ints [1; 2]))]]
               [VDict [(str "a", VList (ints [1; 3]))]; int 8]) <> OutOfFuel.
Proof.
  assert (H : le (Nat.min (depth_of_list [int 7; VDict [(str "a", VList (ints [1; 2]))]])
                          (depth_of_list [VDict [(str "a", VList (ints [1; 3]))]; int 8])) 3)
    by (vm_compute; lia).
  split; [exact H|].
  exact (proj1 (differs_end_within_depth (insertion_order scalar)
                  (insertion_order index_pair) 3) _ _ H).
Defined.

(** * Reordered sequences of scalars *)

Lemma distinct_scalars_nth (s : list scalar) (i j : nat) (a b : scalar) :
  distinct_scalars s = true ->
  nth_error s i = Some a -> nth_error s j = Some b ->
  scalar_eqb a b = true -> i = j.
Proof.
  revert i j. induction s as [|h s IH]; intros i j D Hi Hj E.
  - destruct i; discriminate.
  - simpl in D. apply andb_true_iff in D. destruct D as [Dh Ds].
    apply negb_true_iff in Dh.
    destruct i as [|i], j as [|j]; simpl in Hi, Hj.
    + reflexivity.
    + inversion Hi; subst h. exfalso.
      assert (existsb (scalar_eqb a) s = true); [|congruence].
      apply existsb_exists. exists b. split; [|exact E].
      eapply nth_error_In; eauto.
    + inversion Hj; subst h. exfalso.
      assert (existsb (scalar_eqb b) s = true); [|congruence].
      apply existsb_exists. exists a. split; [eapply nth_error_In; eauto|].
      rewrite scalar_eqb_sym. exact E.
    + f_equal. eapply IH; eauto.
Qed.

Lemma existsb_perm {A} (f : A -> bool) (s1 s2 : list A) :
  Permutation s1 s2 -> existsb f s1 = existsb f s2.
Proof.
  intros P. destruct (existsb f s2) eqn:E.
  - apply existsb_exists in E. destruct E as (x & Hx & Hf).
    apply existsb_exists. exists x. split; [|exact Hf].
    eapply Permutation_in; [symmetry; exact P | exact Hx].
  - destruct (existsb f s1) eqn:E1; [|reflexivity].
    apply existsb_exists in E1. destruct E1 as (x & Hx & Hf).
    assert (existsb f s2 = true); [|congruence].
    apply existsb_exists. exists x. split; [|exact Hf].
    eapply Permutation_in; [exact P | exact Hx].
Qed.

Lemma distinct_scalars_perm (s1 s2 : list scalar) :
  Permutation s1 s2 -> distinct_scalars s1 = distinct_scalars s2.
Proof.
  induction 1 as [|x l l' P IH|x y l|l l' l'' P1 IH1 P2 IH2].
  - reflexivity.
  - simpl. rewrite IH, (existsb_perm _ _ _ P). reflexivity.
  - simpl. rewrite (scalar_eqb_sym y x).
    destruct (scalar_eqb x y), (existsb (scalar_eqb y) l), (existsb (scalar_eqb x) l);
      reflexivity.
  - congruence.
Qed.

Lemma scalars_nth (s : list scalar) (i : nat) (x : value) :
  nth_error (scalars s) i = Some x -> exists a, nth_error s i = Some a /\ x = VScalar a.
Proof.
  unfold scalars. rewrite nth_error_map.
  destruct (nth_error s i) as [a|]; simpl; [|discriminate].
  intros E. inversion E. eauto.
Qed.

Lemma scalars_nth_some (s : list scalar) (i : nat) :
  (i < length s)%nat -> exists a, nth_error s i = Some a
                                  /\ nth_error (scalars s) i = Some (VScalar a).
Proof.
  intros Hi. destruct (nth_error s i) as [a|] eqn:E.
  - exists a. split; [reflexivity|]. unfold scalars. rewrite nth_error_map, E. reflexivity.
  - apply nth_error_None in E. lia.
Qed.

Lemma both_have_type_scalars (is_t : value -> bool) (s : list scalar) (l2 : list value)
      (r c : nat) :
  (forall a, is_t (VScalar a) = false) -> (r < length s)%nat ->
  both_have_type is_t (scalars s) r l2 c = Ok false.
Proof.
  intros Ht Hr. destruct (scalars_nth_some s r Hr) as (a & _ & E).
  unfold both_have_type, index. rewrite E. simpl. rewrite Ht. reflexivity.
Qed.

Lemma label_step_scalars (s : list scalar) (l2 : list value) (st : labels) (e : entry) :
  (row_of e < length s)%nat -> exists st', label_step (scalars s) l2 st e = Ok st'.
Proof.
  intros Hr. unfold label_step.
  rewrite (both_have_type_scalars is_dict s l2 _ _ (fun _ => eq_refl) Hr).
  rewrite (both_have_type_scalars is_list s l2 _ _ (fun _ => eq_refl) Hr).
  destruct (_ && _); simpl; [eauto|]. destruct (score e =? 0); eauto.
Qed.

Lemma label_all_scalars (s : list scalar) (l2 : list value) (sl : list entry) (st : labels) :
  Forall (fun e => (row_of e < length s)%nat) sl ->
  exists st', label_all (scalars s) l2 sl st = Ok st'.
Proof.
  revert st. induction sl as [|e sl IH]; intros st F; simpl; [eauto|].
  inversion F as [|? ? He Fr]; subst.
  destruct (label_step_scalars s l2 st e He) as (st1 & ->). simpl. apply IH. exact Fr.
Qed.

Lemma match_elements_scalars (s1 s2 : list scalar) :
  length s1 = length s2 -> exists st, match_elements (scalars s1) (scalars s2) = Ok st.
Proof.
  intros Hlen.
  assert (Hlen' : length (scalars s1) = length (scalars s2))
    by (unfold scalars; rewrite !length_map; exact Hlen).
  destruct (square_matrix_defined _ _ Hlen') as (m & Hm).
  unfold match_elements. rewrite Hm. simpl.
  destruct (label_all_scalars s1 (scalars s2) (_sort_similarity_matrix m) no_labels)
    as (st & ->).
  - apply Forall_forall. intros e He.
    destruct (entry_in_matrix _ _ m e Hm He) as [Hr _].
    unfold scalars in Hr. rewrite length_map in Hr. lia.
  - simpl. eauto.
Qed.

(** Every element that has an equal partner on the other side is matched. *)
Lemma scalar_rows_seen (s1 s2 : list scalar) (m : matrix) (claimed : list entry)
      (st : labels) :
  _create_similarity_matrix (scalars s1) (scalars s2) = Ok m ->
  matching_state (scalars s1) (scalars s2) (_sort_similarity_matrix m) [] claimed st ->
  distinct_scalars s1 = true ->
  (forall a, In a s1 -> exists b, In b s2 /\ scalar_eqb a b = true) ->
  forall i, (i < length s1)%nat -> In i (seen_l1_indices st).
Proof.
  intros Hm (A1 & A2 & _ & _ & A5 & _ & A7 & _) D Hp i Hi.
  destruct (scalars_nth_some s1 i Hi) as (a & Ea & Ex).
  destruct (Hp a (nth_error_In _ _ Ea)) as (b & Hb & Eab).
  apply In_nth_error in Hb. destruct Hb as (j & Eb).
  assert (Ey : nth_error (scalars s2) j = Some (VScalar b))
    by (unfold scalars; rewrite nth_error_map, Eb; reflexivity).
  assert (Hs : similarity (VScalar a) (VScalar b) = 1%nat)
    by (rewrite similarity_scalars, Eab; reflexivity).
  pose proof (positive_pair_cell _ _ m i j _ _ Hm Ex Ey) as Hc.
  rewrite Hs in Hc. specialize (Hc ltac:(lia)).
  apply rank_entries in Hc.
  assert (Hpos1 : score (1, i, j) > 0) by (unfold score; simpl; lia).
  destruct (A7 _ Hc Hpos1) as [Hrow | Hcol]; [exact Hrow|].
  unfold col_of in Hcol. simpl in Hcol.
  rewrite A2 in Hcol. apply in_map_iff in Hcol. destruct Hcol as (e' & Hcol & Hin').
  rewrite Forall_forall in A5. destruct (A5 e' Hin') as [Hpos Hpre].
  destruct (positive_entry_pair _ _ m e' Hm Hpre Hpos) as (x' & y' & Hx' & Hy' & Hsim & _).
  rewrite Hcol, Ey in Hy'. inversion Hy'; subst y'.
  apply scalars_nth in Hx'. destruct Hx' as (a' & Ea' & ->).
  rewrite similarity_scalars in Hsim.
  destruct (scalar_eqb a' b) eqn:Ea'b; [|lia].
  assert (Eaa' : scalar_eqb a a' = true).
  { eapply scalar_eqb_trans; [exact Eab|]. rewrite scalar_eqb_sym. exact Ea'b. }
  rewrite (distinct_scalars_nth s1 i (row_of e') a a' D Ea Ea' Eaa').
  rewrite A1. apply in_map. exact Hin'.
Qed.

Lemma scalar_cols_seen (s1 s2 : list scalar) (m : matrix) (claimed : list entry)
      (st : labels) :
  _create_similarity_matrix (scalars s1) (scalars s2) = Ok m ->
  matching_state (scalars s1) (scalars s2) (_sort_similarity_matrix m) [] claimed st ->
  distinct_scalars s2 = true ->
  (forall b, In b s2 -> exists a, In a s1 /\ scalar_eqb a b = true) ->
  forall j, (j < length s2)%nat -> In j (seen_l2_indices st).
Proof.
  intros Hm (A1 & A2 & _ & _ & A5 & _ & A7 & _) D Hp j Hj.
  destruct (scalars_nth_some s2 j Hj) as (b & Eb & Ey).
  destruct (Hp b (nth_error_In _ _ Eb)) as (a & Ha & Eab).
  apply In_nth_error in Ha. destruct Ha as (i & Ea).
  assert (Ex : nth_error (scalars s1) i = Some (VScalar a))
    by (unfold scalars; rewrite nth_error_map, Ea; reflexivity).
  assert (Hs : similarity (VScalar a) (VScalar b) = 1%nat)
    by (rewrite similarity_scalars, Eab; reflexivity).
  pose proof (positive_pair_cell _ _ m i j _ _ Hm Ex Ey) as Hc.
  rewrite Hs in Hc. specialize (Hc ltac:(lia)).
  apply rank_entries in Hc.
  assert (Hpos1 : score (1, i, j) > 0) by (unfold score; simpl; lia).
  destruct (A7 _ Hc Hpos1) as [Hrow | Hcol]; [|exact Hcol].
  unfold row_of in Hrow. simpl in Hrow.
  rewrite A1 in Hrow. apply in_map_iff in Hrow. destruct Hrow as (e' & Hrow & Hin').
  rewrite Forall_forall in A5. destruct (A5 e' Hin') as [Hpos Hpre].
  destruct (positive_entry_pair _ _ m e' Hm Hpre Hpos) as (x' & y' & Hx' & Hy' & Hsim & _).
  rewrite Hrow, Ex in Hx'. inversion Hx'; subst x'.
  apply scalars_nth in Hy'. destruct Hy' as (b' & Eb' & ->).
  rewrite similarity_scalars in Hsim.
  destruct (scalar_eqb a b') eqn:Eab'; [|lia].
  assert (Ebb' : scalar_eqb b b' = true).
  { eapply scalar_eqb_trans; [|exact Eab']. rewrite scalar_eqb_sym. exact Eab. }
  rewrite (distinct_scalars_nth s2 j (col_of e') b b' D Eb Eb' Ebb').
  rewrite A2. apply in_map. exact Hin'.
Qed.

Lemma no_members_nil {A} (l : list A) : (forall x, ~ In x l) -> l = [].
Proof.
  destruct l as [|x l]; [reflexivity|]. intros H. destruct (H x). left. reflexivity.
Qed.

Lemma reordered_scalars_match (s1 s2 : list scalar) (st : labels) :
  Permutation s1 s2 -> distinct_scalars s1 = true ->
  match_elements (scalars s1) (scalars s2) = Ok st ->
  mismatch_set st = [] /\ to_recurse st = [].
Proof.
  intros P D H.
  assert (D2 : distinct_scalars s2 = true) by (rewrite <- (distinct_scalars_perm _ _ P); exact D).
  pose proof (Permutation_length P) as Hlen.
  destruct (match_elements_state _ _ st H) as (m & st0 & claimed & Hm & Inv & ->).
  assert (R : forall i, (i < length s1)%nat -> In i (seen_l1_indices st0)).
  { apply (scalar_rows_seen s1 s2 m claimed st0 Hm Inv D).
    intros a Ha. exists a. split; [|apply scalar_eqb_refl].
    eapply Permutation_in; [exact P | exact Ha]. }
  assert (C : forall j, (j < length s2)%nat -> In j (seen_l2_indices st0)).
  { apply (scalar_cols_seen s1 s2 m claimed st0 Hm Inv D2).
    intros b Hb. exists b. split; [|apply scalar_eqb_refl].
    eapply Permutation_in; [symmetry; exact P | exact Hb]. }
  destruct Inv as (_ & _ & _ & _ & _ & A6 & _ & A8 & A9 & A10 & A11 & A12 & B1 & B2 & _).
  split.
  - apply no_members_nil. intros p Hp. apply label_stragglers_set in Hp.
    unfold scalars in Hp. rewrite !length_map in Hp.
    destruct Hp as [Hp | [(i & Hi & Hn & _) | (j & Hj & Hn & _)]].
    + destruct (A10 p Hp) as [[r ->] | [c ->]].
      * apply A8 in Hp. destruct (B1 r Hp) as (e & He & <-).
        apply (A11 _ Hp). apply R.
        destruct (entry_in_matrix _ _ m e Hm He) as [Hr _].
        unfold scalars in Hr. rewrite length_map in Hr. lia.
      * apply A9 in Hp. destruct (B2 c Hp) as (e & He & <-).
        apply (A12 _ Hp). apply C.
        destruct (entry_in_matrix _ _ m e Hm He) as [_ Hc].
        unfold scalars in Hc. rewrite length_map in Hc. lia.
    + exact (Hn (R i Hi)).
    + exact (Hn (C j Hj)).
  - cbn [label_stragglers to_recurse]. rewrite A6.
    replace (filter (fun e => same_container (scalars s1) (scalars s2) (position e)) claimed)
      with (@nil entry); [reflexivity|].
    symmetry. apply no_members_nil. intros e He. apply filter_In in He.
    destruct He as [_ He]. unfold same_container in He.
    destruct (nth_error (scalars s1) (fst (position e))) as [x|] eqn:Ex; [|discriminate].
    apply scalars_nth in Ex. destruct Ex as (a & _ & ->).
    destruct (nth_error (scalars s2) (snd (position e))); discriminate.
Qed.

(** X16: the diff of sequences ignores the order of their elements: for
    a sequence of scalars that are pairwise different under [==] and
    any reordering of it, [list_diff] returns no difference. *)
Theorem reordered_scalars_do_not_differ
        (key_order : IterOrder scalar) (pair_order : IterOrder index_pair)
        (fuel : nat) (s1 s2 : list scalar) :
  Permutation s1 s2 -> distinct_scalars s1 = true ->
  result (list_diff (S fuel) (scalars s1) (scalars s2)) = Ok [].
Proof.
  intros P D.
  destruct (match_elements_scalars s1 s2 (Permutation_length P)) as (st & Hst).
  destruct (reordered_scalars_match s1 s2 st P D Hst) as [Hms Hq].
  rewrite (list_diff_no_recursion fuel _ _ st Hst Hq), Hms, iter_set_nil. reflexivity.
Qed.

Lemma reordered_scalars_do_not_differ_witness :
  Permutation [SInt 1; SStr "x"; SNone; SInt 4] [SNone; SInt 4; SInt 1; SStr "x"]
  /\ distinct_scalars [SInt 1; SStr "x"; SNone; SInt 4] = true
  /\ result (@list_diff (insertion_order scalar) (insertion_order index_pair) 1
               (scalars [SInt 1; SStr "x"; SNone; SInt 4])
               (scalars [SNone; SInt 4; SInt 1; SStr "x"])) = Ok [].
Proof.
  assert (P : Permutation [SInt 1; SStr "x"; SNone; SInt 4]
                          [SNone; SInt 4; SInt 1; SStr "x"]).
  { apply Permutation_sym.
    apply (Permutation_cons_app [SInt 1; SStr "x"] [SInt 4] SNone).
    apply (Permutation_cons_app [SInt 1; SStr "x"] [] (SInt 4)).
    apply Permutation_refl. }
  split; [exact P|]. split; [reflexivity|].
  apply (reordered_scalars_do_not_differ (insertion_order scalar)
           (insertion_order index_pair) 0 _ _ P).
  reflexivity.
Defined.

(** * Queued pairs in complete runs of [list_diff] *)

Section QueuedPairs.
Variable dict_diff_rec : dict -> dict -> io (list path).
Variable list_diff_rec : list value -> list value -> io (list path).


End QueuedPairs.



(** * Absent keys and keys set to [None] *)

Lemma same_reads_sym (d d' : dict) : same_reads d d' -> same_reads d' d.
Proof. intros H k. symmetry. apply H. Qed.

Lemma same_reads_with_null (d : dict) (k : scalar) :
  dict_lookup d k = None -> same_reads d (with_null d k).
Proof. intros H k'. symmetry. apply dict_get_absent. exact H. Qed.

Lemma same_path_sym (p p' : path) : same_path p p' -> same_path p' p.
Proof.
  destruct p as [|[k|e] q], p' as [|[k'|e'] q']; simpl; try congruence.
  intros [H ->]. split; [rewrite scalar_eqb_sym; exact H | reflexivity].
Qed.

Lemma both_dicts_reads (d1 d2 d1' d2' : dict) (k : scalar) :
  same_reads d1 d1' -> same_reads d2 d2' -> both_dicts d1' d2' k = both_dicts d1 d2 k.
Proof. intros R1 R2. unfold both_dicts. rewrite (R1 k), (R2 k). reflexivity. Qed.

Lemma both_lists_reads (d1 d2 d1' d2' : dict) (k : scalar) :
  same_reads d1 d1' -> same_reads d2 d2' -> both_lists d1' d2' k = both_lists d1 d2 k.
Proof. intros R1 R2. unfold both_lists. rewrite (R1 k), (R2 k). reflexivity. Qed.

Lemma leaf_differs_reads (d1 d2 d1' d2' : dict) (k : scalar) :
  same_reads d1 d1' -> same_reads d2 d2' -> leaf_differs d1' d2' k = leaf_differs d1 d2 k.
Proof. intros R1 R2. unfold leaf_differs. rewrite (R1 k), (R2 k). reflexivity. Qed.

Lemma both_dicts_congr (d1 d2 : dict) (k k' : scalar) :
  scalar_eqb k' k = true -> both_dicts d1 d2 k' = both_dicts d1 d2 k.
Proof.
  intros H. unfold both_dicts.
  rewrite (dict_get_congr d1 k k' H), (dict_get_congr d2 k k' H). reflexivity.
Qed.

Lemma both_lists_congr (d1 d2 : dict) (k k' : scalar) :
  scalar_eqb k' k = true -> both_lists d1 d2 k' = both_lists d1 d2 k.
Proof.
  intros H. unfold both_lists.
  rewrite (dict_get_congr d1 k k' H), (dict_get_congr d2 k k' H). reflexivity.
Qed.

(** A key under which a mapping reads something other than [None] is
    one of its keys, up to [==]. *)
Lemma read_value_has_key (d : dict) (k : scalar) :
  dict_get d k <> VScalar SNone ->
  exists k0, In k0 (map fst d) /\ scalar_eqb k0 k = true.
Proof.
  unfold dict_get. destruct (dict_lookup d k) as [v|] eqn:E; [|congruence].
  intros _. destruct (dict_lookup_key d k v E) as (k0 & Hin & Hk).
  exists k0. split; [|exact Hk]. apply in_map_iff. exists (k0, v). auto.
Qed.

(** Under a key that is classified, one of the mappings reads something
    other than [None]. *)
Lemma classified_key_is_read (d1 d2 : dict) (k : scalar) :
  both_dicts d1 d2 k = true \/ both_lists d1 d2 k = true \/ leaf_differs d1 d2 k = true ->
  dict_get d1 k <> VScalar SNone \/ dict_get d2 k <> VScalar SNone.
Proof.
  unfold both_dicts, both_lists, leaf_differs.
  destruct (dict_get d1 k) as [[| | |]| |]; try (left; discriminate).
  destruct (dict_get d2 k) as [[| | |]| |]; try (right; discriminate).
  simpl. intros [H | [H | H]]; discriminate.
Qed.

Lemma dict_item_dict (d : dict) (k : scalar) :
  is_dict (dict_get d k) = true -> dict_item d k = Ok (dict_get d k).
Proof.
  unfold dict_item, dict_get. destruct (dict_lookup d k); [reflexivity | discriminate].
Qed.

Lemma dict_item_list (d : dict) (k : scalar) :
  is_list (dict_get d k) = true -> dict_item d k = Ok (dict_get d k).
Proof.
  unfold dict_item, dict_get. destruct (dict_lookup d k); [reflexivity | discriminate].
Qed.

Section ReturningLoops.
Variable dict_diff_rec : dict -> dict -> io (list path).
Variable list_diff_rec : list value -> list value -> io (list path).

Lemma recurse_dict_keys_calls (d1 d2 : dict) (ks : list scalar) (acc paths : list path) :
  result (recurse_dict_keys dict_diff_rec d1 d2 ks acc) = Ok paths ->
  forall k, In k ks ->
    exists tmp, result (call_dict_diff dict_diff_rec (dict_item d1 k) (dict_item d2 k))
                = Ok tmp.
Proof.
  revert acc. induction ks as [|k0 ks IH]; intros acc H k Hin; [destruct Hin|].
  cbn [recurse_dict_keys] in H. apply result_bind_ok in H. destruct H as (tmp & Ht & H).
  destruct Hin as [<- | Hin]; [eauto | exact (IH _ H k Hin)].
Qed.

Lemma recurse_list_keys_calls (d1 d2 : dict) (ks : list scalar) (acc paths : list path) :
  result (recurse_list_keys list_diff_rec d1 d2 ks acc) = Ok paths ->
  forall k, In k ks ->
    exists tmp, result (call_list_diff list_diff_rec (dict_item d1 k) (dict_item d2 k))
                = Ok tmp.
Proof.
  revert acc. induction ks as [|k0 ks IH]; intros acc H k Hin; [destruct Hin|].
  cbn [recurse_list_keys] in H. apply result_bind_ok in H. destruct H as (tmp & Ht & H).
  destruct Hin as [<- | Hin]; [eauto | exact (IH _ H k Hin)].
Qed.

Lemma recurse_dict_keys_returns (d1 d2 : dict) (ks : list scalar) (acc : list path) :
  (forall k, In k ks ->
     exists tmp, result (call_dict_diff dict_diff_rec (dict_item d1 k) (dict_item d2 k))
                 = Ok tmp) ->
  exists paths, result (recurse_dict_keys dict_diff_rec d1 d2 ks acc) = Ok paths.
Proof.
  revert acc. induction ks as [|k0 ks IH]; intros acc H; [exists acc; reflexivity|].
  cbn [recurse_dict_keys]. rewrite result_bind.
  destruct (H k0 (or_introl eq_refl)) as (tmp & ->).
  apply IH. intros k Hin. apply H. right. exact Hin.
Qed.

Lemma recurse_list_keys_returns (d1 d2 : dict) (ks : list scalar) (acc : list path) :
  (forall k, In k ks ->
     exists tmp, result (call_list_diff list_diff_rec (dict_item d1 k) (dict_item d2 k))
                 = Ok tmp) ->
  exists paths, result (recurse_list_keys list_diff_rec d1 d2 ks acc) = Ok paths.
Proof.
  revert acc. induction ks as [|k0 ks IH]; intros acc H; [exists acc; reflexivity|].
  cbn [recurse_list_keys]. rewrite result_bind.
  destruct (H k0 (or_introl eq_refl)) as (tmp & ->).
  apply IH. intros k Hin. apply H. right. exact Hin.
Qed.

(** The nested calls under two equal keys of mappings that read alike
    are one and the same call. *)
Lemma call_dict_diff_reads (d1 d2 d1' d2' : dict) (k k' : scalar) :
  same_reads d1 d1' -> same_reads d2 d2' -> scalar_eqb k' k = true ->
  both_dicts d1 d2 k = true ->
  call_dict_diff dict_diff_rec (dict_item d1' k') (dict_item d2' k')
  = call_dict_diff dict_diff_rec (dict_item d1 k) (dict_item d2 k).
Proof.
  intros R1 R2 E B. unfold both_dicts in B. apply andb_true_iff in B. destruct B as [B1 B2].
  rewrite (dict_item_dict d1 k B1), (dict_item_dict d2 k B2).
  rewrite <- (dict_get_congr d1 k k' E) in B1 |- *.
  rewrite <- (dict_get_congr d2 k k' E) in B2 |- *.
  rewrite (R1 k') in B1 |- *. rewrite (R2 k') in B2 |- *.
  rewrite (dict_item_dict d1' k' B1), (dict_item_dict d2' k' B2). reflexivity.
Qed.

Lemma call_list_diff_reads (d1 d2 d1' d2' : dict) (k k' : scalar) :
  same_reads d1 d1' -> same_reads d2 d2' -> scalar_eqb k' k = true ->
  both_lists d1 d2 k = true ->
  call_list_diff list_diff_rec (dict_item d1' k') (dict_item d2' k')
  = call_list_diff list_diff_rec (dict_item d1 k) (dict_item d2 k).
Proof.
  intros R1 R2 E B. unfold both_lists in B. apply andb_true_iff in B. destruct B as [B1 B2].
  rewrite (dict_item_list d1 k B1), (dict_item_list d2 k B2).
  rewrite <- (dict_get_congr d1 k k' E) in B1 |- *.
  rewrite <- (dict_get_congr d2 k k' E) in B2 |- *.
  rewrite (R1 k') in B1 |- *. rewrite (R2 k') in B2 |- *.
  rewrite (dict_item_list d1' k' B1), (dict_item_list d2' k' B2). reflexivity.
Qed.
End ReturningLoops.

Section SameReads.
Context {key_order : IterOrder scalar} {pair_order : IterOrder index_pair}.

(** A key that [dict_diff] classifies on two mappings has an equal key
    among those it visits on two mappings that read like them. *)
Lemma visited_key_transfer (d1 d2 d1' d2' : dict) (k : scalar) :
  same_reads d1 d1' -> same_reads d2 d2' ->
  both_dicts d1 d2 k = true \/ both_lists d1 d2 k = true \/ leaf_differs d1 d2 k = true ->
  exists k', In k' (iter_set (key_union d1' d2')) /\ scalar_eqb k' k = true.
Proof.
  intros R1 R2 H. apply classified_key_is_read in H.
  assert (Hk : exists k0, (In k0 (map fst d1') \/ In k0 (map fst d2'))
                          /\ scalar_eqb k0 k = true).
  { destruct H as [H | H].
    - rewrite (R1 k) in H. destruct (read_value_has_key d1' k H) as (k0 & Hin & E). eauto.
    - rewrite (R2 k) in H. destruct (read_value_has_key d2' k H) as (k0 & Hin & E). eauto. }
  destruct Hk as (k0 & Hin & E).
  destruct (key_union_complete d1' d2' k0 Hin) as (k' & Hin' & E').
  exists k'. split; [exact Hin'|]. eapply scalar_eqb_trans; eauto.
Qed.

Lemma classified_keys_exact (d1 d2 : dict) :
  (forall k, In k (dict_keys_to_recurse (classify_keys d1 d2)) <->
             In k (iter_set (key_union d1 d2)) /\ both_dicts d1 d2 k = true)
  /\ (forall k, In k (list_keys_to_recurse (classify_keys d1 d2)) <->
                In k (iter_set (key_union d1 d2))
                /\ both_dicts d1 d2 k = false /\ both_lists d1 d2 k = true)
  /\ (forall p, In p (return_values (classify_keys d1 d2)) <->
                exists k, In k (iter_set (key_union d1 d2))
                          /\ p = [Key k] /\ leaf_differs d1 d2 k = true).
Proof.
  destruct (classify_fold_sound d1 d2 (iter_set (key_union d1 d2)) (mk_classes [] [] []))
    as (A & B & C).
  fold (classify_keys d1 d2) in A, B, C. simpl in A, B, C.
  split; [|split].
  - intros k. split.
    + intros H. destruct (A k H) as [[] | H1]. exact H1.
    + intros [H1 H2].
      apply (classify_fold_complete d1 d2 _ (mk_classes [] [] []) k H1). exact H2.
  - intros k. split.
    + intros H. destruct (B k H) as [[] | H1]. exact H1.
    + intros (H1 & H2 & H3).
      apply (classify_fold_complete d1 d2 _ (mk_classes [] [] []) k H1); assumption.
  - intros p. split.
    + intros H. destruct (C p H) as [[] | (k & H1 & H2 & H3)]. eauto.
    + intros (k & H1 & -> & H3).
      apply (classify_fold_complete d1 d2 _ (mk_classes [] [] []) k H1). exact H3.
Qed.

Lemma dict_keys_transfer (d1 d2 d1' d2' : dict) (k : scalar) :
  same_reads d1 d1' -> same_reads d2 d2' ->
  In k (dict_keys_to_recurse (classify_keys d1 d2)) ->
  exists k', In k' (dict_keys_to_recurse (classify_keys d1' d2'))
             /\ scalar_eqb k' k = true /\ both_dicts d1 d2 k = true.
Proof.
  intros R1 R2 H. destruct (classified_keys_exact d1 d2) as (A & _ & _).
  destruct (classified_keys_exact d1' d2') as (A' & _ & _).
  apply A in H. destruct H as [_ B].
  destruct (visited_key_transfer d1 d2 d1' d2' k R1 R2 (or_introl B)) as (k' & Hin & E).
  exists k'. repeat split; auto. apply A'. split; [exact Hin|].
  rewrite (both_dicts_reads d1 d2 d1' d2' k' R1 R2), (both_dicts_congr d1 d2 k k' E).
  exact B.
Qed.

Lemma list_keys_transfer (d1 d2 d1' d2' : dict) (k : scalar) :
  same_reads d1 d1' -> same_reads d2 d2' ->
  In k (list_keys_to_recurse (classify_keys d1 d2)) ->
  exists k', In k' (list_keys_to_recurse (classify_keys d1' d2'))
             /\ scalar_eqb k' k = true /\ both_lists d1 d2 k = true.
Proof.
  intros R1 R2 H. destruct (classified_keys_exact d1 d2) as (_ & A & _).
  destruct (classified_keys_exact d1' d2') as (_ & A' & _).
  apply A in H. destruct H as (_ & Bd & B).
  destruct (visited_key_transfer d1 d2 d1' d2' k R1 R2 (or_intror (or_introl B)))
    as (k' & Hin & E).
  exists k'. repeat split; auto. apply A'. split; [exact Hin|].
  rewrite (both_dicts_reads d1 d2 d1' d2' k' R1 R2), (both_dicts_congr d1 d2 k k' E).
  rewrite (both_lists_reads d1 d2 d1' d2' k' R1 R2), (both_lists_congr d1 d2 k k' E).
  auto.
Qed.

Lemma leaves_transfer (d1 d2 d1' d2' : dict) (p : path) :
  same_reads d1 d1' -> same_reads d2 d2' ->
  In p (return_values (classify_keys d1 d2)) ->
  exists k k', p = [Key k] /\ In [Key k'] (return_values (classify_keys d1' d2'))
               /\ scalar_eqb k' k = true.
Proof.
  intros R1 R2 H. destruct (classified_keys_exact d1 d2) as (_ & _ & A).
  destruct (classified_keys_exact d1' d2') as (_ & _ & A').
  apply A in H. destruct H as (k & _ & -> & B).
  destruct (visited_key_transfer d1 d2 d1' d2' k R1 R2 (or_intror (or_intror B)))
    as (k' & Hin & E).
  exists k, k'. repeat split; auto. apply A'. exists k'. repeat split; auto.
  rewrite (leaf_differs_reads d1 d2 d1' d2' k' R1 R2), (leaf_differs_congr d1 d2 k k' E).
  exact B.
Qed.

(** If [dict_diff] returns on two mappings, it returns on two mappings
    that read like them. *)
Lemma dict_diff_returns_alike (fuel : nat) (d1 d2 d1' d2' : dict) (ps : list path) :
  same_reads d1 d1' -> same_reads d2 d2' ->
  result (dict_diff fuel d1 d2) = Ok ps ->
  exists ps', result (dict_diff fuel d1' d2') = Ok ps'.
Proof.
  intros R1 R2 H. destruct fuel as [|fuel]; [discriminate|].
  rewrite dict_diff_S in H |- *. unfold dict_diff_body in H |- *.
  apply result_bind_ok in H. destruct H as (acc & H1 & H2).
  pose proof (recurse_dict_keys_calls _ _ _ _ _ _ H1) as C1.
  pose proof (recurse_list_keys_calls _ _ _ _ _ _ H2) as C2.
  destruct (recurse_dict_keys_returns (dict_diff fuel) d1' d2'
              (dict_keys_to_recurse (classify_keys d1' d2'))
              (return_values (classify_keys d1' d2'))) as (acc' & Hacc').
  { intros k' Hk'.
    destruct (dict_keys_transfer d1' d2' d1 d2 k' (same_reads_sym _ _ R1)
                (same_reads_sym _ _ R2) Hk') as (k & Hk & E & B).
    destruct (C1 k Hk) as (tmp & Ht). exists tmp.
    rewrite <- (call_dict_diff_reads (dict_diff fuel) d1' d2' d1 d2 k' k
                  (same_reads_sym _ _ R1) (same_reads_sym _ _ R2) E B).
    exact Ht. }
  rewrite result_bind, Hacc'.
  apply recurse_list_keys_returns.
  intros k' Hk'.
  destruct (list_keys_transfer d1' d2' d1 d2 k' (same_reads_sym _ _ R1)
              (same_reads_sym _ _ R2) Hk') as (k & Hk & E & B).
  destruct (C2 k Hk) as (tmp & Ht). exists tmp.
  rewrite <- (call_list_diff_reads (list_diff fuel) d1' d2' d1 d2 k' k
                (same_reads_sym _ _ R1) (same_reads_sym _ _ R2) E B).
  exact Ht.
Qed.

(** Every path returned for two mappings is returned for two mappings
    that read like them, under an equal first key. *)
Lemma dict_diff_paths_alike (fuel : nat) (d1 d2 d1' d2' : dict) (ps ps' : list path) :
  same_reads d1 d1' -> same_reads d2 d2' ->
  result (dict_diff fuel d1 d2) = Ok ps ->
  result (dict_diff fuel d1' d2') = Ok ps' ->
  forall p, In p ps -> exists p', In p' ps' /\ same_path p p'.
Proof.
  intros R1 R2 H H'. destruct fuel as [|fuel]; [discriminate|].
  pose proof (dict_diff_members fuel d1 d2 ps H) as M.
  pose proof (dict_diff_members fuel d1' d2' ps' H') as M'.
  intros p Hp. apply M in Hp.
  destruct Hp as [Hp | [(k & tmp & q & Hk & Ht & Hq & ->)
                       | (k & tmp & q & Hk & Ht & Hq & ->)]].
  - destruct (leaves_transfer d1 d2 d1' d2' p R1 R2 Hp) as (k & k' & -> & Hin & E).
    exists [Key k']. split; [apply M'; left; exact Hin|].
    simpl. split; [rewrite scalar_eqb_sym; exact E | reflexivity].
  - destruct (dict_keys_transfer d1 d2 d1' d2' k R1 R2 Hk) as (k' & Hk' & E & B).
    exists (Key k' :: q). split.
    + apply M'. right. left. exists k', tmp, q. repeat split; auto.
      rewrite (call_dict_diff_reads (dict_diff fuel) d1 d2 d1' d2' k k' R1 R2 E B).
      exact Ht.
    + simpl. split; [rewrite scalar_eqb_sym; exact E | reflexivity].
  - destruct (list_keys_transfer d1 d2 d1' d2' k R1 R2 Hk) as (k' & Hk' & E & B).
    exists (Key k' :: q). split.
    + apply M'. right. right. exists k', tmp, q. repeat split; auto.
      rewrite (call_list_diff_reads (list_diff fuel) d1 d2 d1' d2' k k' R1 R2 E B).
      exact Ht.
    + simpl. split; [rewrite scalar_eqb_sym; exact E | reflexivity].
Qed.

(** [dict_diff] does not tell apart mappings that read alike. *)
Lemma dict_diff_same_reads (fuel : nat) (d1 d2 d1' d2' : dict) :
  same_reads d1 d1' -> same_reads d2 d2' ->
  same_outcome (dict_diff fuel d1 d2) (dict_diff fuel d1' d2').
Proof.
  intros R1 R2.
  pose proof (same_reads_sym _ _ R1) as R1'. pose proof (same_reads_sym _ _ R2) as R2'.
  split.
  - intros ps H.
    destruct (dict_diff_returns_alike fuel d1 d2 d1' d2' ps R1 R2 H) as (ps' & H').
    exists ps'. split; [exact H'|]. split.
    + apply (dict_diff_paths_alike fuel d1 d2 d1' d2' ps ps' R1 R2 H H').
    + intros p' Hp'.
      destruct (dict_diff_paths_alike fuel d1' d2' d1 d2 ps' ps R1' R2' H' H p' Hp')
        as (p & Hp & S).
      exists p. split; [exact Hp | apply same_path_sym; exact S].
  - intros ps' H'.
    destruct (dict_diff_returns_alike fuel d1' d2' d1 d2 ps' R1' R2' H') as (ps & H).
    exists ps. split; [exact H|]. split.
    + apply (dict_diff_paths_alike fuel d1 d2 d1' d2' ps ps' R1 R2 H H').
    + intros p' Hp'.
      destruct (dict_diff_paths_alike fuel d1' d2' d1 d2 ps' ps R1' R2' H' H p' Hp')
        as (p & Hp & S).
      exists p. split; [exact Hp | apply same_path_sym; exact S].
Qed.
End SameReads.

(** C7: [dict_diff] treats a side without the key [k] exactly as the
    same side with [k] set to [None].  On either side, setting the
    absent key to [None] changes nothing: the two calls return
    together, with the same paths (up to their order and to the name of
    a first key, which may be that of an equal key of the other
    mapping).  If the other side maps [k] to [None] or lacks it too, no
    returned path starts with [k]; and [dict_diff({}, {k: None})] and
    [dict_diff({k: None}, {})] return the empty list. *)
Theorem absent_key_equals_null
        (key_order : IterOrder scalar) (pair_order : IterOrder index_pair)
        (fuel : nat) (d1 d2 : dict) (k : scalar) :
  (dict_lookup d1 k = None ->
   same_outcome (dict_diff fuel d1 d2) (dict_diff fuel (with_null d1 k) d2))
  /\ (dict_lookup d2 k = None ->
      same_outcome (dict_diff fuel d1 d2) (dict_diff fuel d1 (with_null d2 k)))
  /\ (dict_get d1 k = VScalar SNone -> dict_get d2 k = VScalar SNone ->
      forall (paths : list path) (k' : scalar) (q : path),
        result (dict_diff fuel d1 d2) = Ok paths ->
        scalar_eqb k' k = true -> ~ In (Key k' :: q) paths)
  /\ dict_diff (S fuel) [] [(k, VScalar SNone)] = ([], Ok [])
  /\ dict_diff (S fuel) [(k, VScalar SNone)] [] = ([], Ok []).
Proof.
  split; [|split; [|split; [|apply dict_diff_empty_against_none]]].
  - intros H. apply dict_diff_same_reads.
    + apply same_reads_with_null. exact H.
    + intros k'. reflexivity.
  - intros H. apply dict_diff_same_reads.
    + intros k'. reflexivity.
    + apply same_reads_with_null. exact H.
  - intros G1 G2 paths k' q Hr E Hin.
    destruct (dict_diff_heads fuel d1 d2 paths _ Hr Hin) as (k0 & q0 & Ep & Hcase).
    inversion Ep; subst k0 q0.
    rewrite (dict_get_congr d1 k k' E), (dict_get_congr d2 k k' E), G1, G2 in Hcase.
    simpl in Hcase. destruct Hcase as [Hc | [Hc | Hc]]; discriminate.
Qed.

Lemma absent_key_equals_null_witness :
  same_outcome
    (@dict_diff (insertion_order scalar) (insertion_order index_pair) 2
       [(str "x", int 1)] [(str "k", int 5); (str "x", int 2)])
    (@dict_diff (insertion_order scalar) (insertion_order index_pair) 2
       (with_null [(str "x", int 1)] (str "k")) [(str "k", int 5); (str "x", int 2)])
  /\ same_outcome
       (@dict_diff (insertion_order scalar) (insertion_order index_pair) 2
          [(str "k", int 5); (str "x", int 2)] [(str "x", int 1)])
       (@dict_diff (insertion_order scalar) (insertion_order index_pair) 2
          [(str "k", int 5); (str "x", int 2)] (with_null [(str "x", int 1)] (str "k")))
  /\ ~ In [Key (str "k")] [[Key (str "x")]].
Proof.
  split; [|split].
  - exact (proj1 (absent_key_equals_null
                    (insertion_order scalar) (insertion_order index_pair)
                    2 [(str "x", int 1)] [(str "k", int 5); (str "x", int 2)] (str "k"))
                 eq_refl).
  - exact (proj1 (proj2 (absent_key_equals_null
                           (insertion_order scalar) (insertion_order index_pair)
                           2 [(str "k", int 5); (str "x", int 2)] [(str "x", int 1)]
                           (str "k")))
                 eq_refl).
  - exact (proj1 (proj2 (proj2 (absent_key_equals_null
                                  (insertion_order scalar) (insertion_order index_pair)
                                  2 [(str "x", int 1)]
                                  [(str "k", VScalar SNone); (str "x", int 2)] (str "k"))))
                 eq_refl eq_refl [[Key (str "x")]] (str "k") [] eq_refl eq_refl).
Defined.
